(** * Heroin-overdose spatio-temporal model: data assembly and model formulas

    A shallow embedding of the R Markdown analysis "Preliminary Modeling:
    Heroin Overdoses": the county adjacency matrix, the combined design
    table [df] with its imputation rules, the Leroux CAR model formulas of
    the model section, and the fitted/residual columns.  The sampler that
    the analysis calls belongs to the CARBayesST package; its engine is
    modelled from the specification, in a module of its own.

    R doubles are modelled by exact rationals ([Q]) tagged with the two
    missing markers of R ([NA] and [NaN]); rounding and infinities are not
    modelled.  An R evaluation either returns a value or stops with a
    condition ([outcome]).  Character vectors are strings, compared byte by
    byte as in the C locale. *)

From Stdlib Require Import QArith Qabs Qround Lqa Lia ZArith OrderedTypeEx Ascii.
From stdpp Require Import base list strings sorting numbers.

Local Open Scope Z_scope.

(** ** Stable sorting, as [dplyr::arrange] and [sort] do it *)

Module Arrange.
Section by_leb.
Context {A : Type} (leb : A -> A -> bool).

(** Insert [x] in front of the first element it is not greater than. *)
Fixpoint insert_by (x : A) (l : list A) : list A :=
  match l with
  | [] => [x]
  | h :: t => if leb x h then x :: l else h :: insert_by x t
  end.

(** Insertion sort from the right end: rows that compare equal keep
    their order. *)
Definition sort_by (l : list A) : list A := foldr insert_by [] l.

Definition le (x y : A) : Prop := leb x y = true.
End by_leb.
End Arrange.

(** ** R values *)

Module RVal.

(** A double as R sees it: [NA_real_], [NaN] or a number. *)
Inductive dbl : Type :=
  | NA
  | NaN
  | Num (q : Q).

(** [is.na(x)]: true for both [NA] and [NaN]. *)
Definition is_na (x : dbl) : bool :=
  match x with
  | Num _ => false
  | _ => true
  end.

(** [tidyr::replace_na(x, replace)] on one element. *)
Definition replace_na (x replace : dbl) : dbl :=
  if is_na x then replace else x.

(** [x[!is.na(x)]]: what [na.rm = TRUE] keeps. *)
Fixpoint na_rm (xs : list dbl) : list Q :=
  match xs with
  | [] => []
  | Num q :: xs' => q :: na_rm xs'
  | _ :: xs' => na_rm xs'
  end.

Definition Qsum (qs : list Q) : Q := foldr Qplus 0%Q qs.

(** [mean(x)] on numbers: [sum(x) / length(x)]; [NaN] on the empty vector. *)
Definition mean_num (qs : list Q) : dbl :=
  match qs with
  | [] => NaN
  | _ => Num (Qsum qs / inject_Z (Z.of_nat (length qs)))
  end.

(** [mean(x, na.rm = TRUE)]. *)
Definition mean (xs : list dbl) : dbl := mean_num (na_rm xs).

(** [sort(x)] on numbers. *)
Definition Qsort (qs : list Q) : list Q := Arrange.sort_by Qle_bool qs.

(** [median(x)] on numbers: [NA] on the empty vector; with
    [half = (n + 1) %/% 2], the [half]-th smallest when [n] is odd and the
    mean of the [half]-th and the next one when [n] is even. *)
Definition median_num (qs : list Q) : dbl :=
  let n := length qs in
  let s := Qsort qs in
  let half := ((n + 1) / 2)%nat in
  match n with
  | O => NA
  | _ =>
      if Nat.odd n then Num (nth (half - 1) s 0%Q)
      else mean_num [nth (half - 1) s 0%Q; nth half s 0%Q]
  end.

(** [median(x, na.rm = TRUE)]. *)
Definition median (xs : list dbl) : dbl := median_num (na_rm xs).

(** [x - y] on doubles.  A missing operand makes the result missing; which
    of [NA] and [NaN] comes out when both kinds meet depends on the
    platform, the left operand is taken here. *)
Definition sub (x y : dbl) : dbl :=
  match x, y with
  | Num a, Num b => Num (a - b)
  | Num _, m => m
  | m, _ => m
  end.

(** Equality of doubles up to the value of the rational. *)
Definition eqv (x y : dbl) : Prop :=
  match x, y with
  | NA, NA => True
  | NaN, NaN => True
  | Num a, Num b => (a == b)%Q
  | _, _ => False
  end.

(** The outcome of evaluating an R expression: a value, or [stop()] with
    the text of the condition. *)
Inductive outcome (A : Type) : Type :=
  | Returns (a : A)
  | Stops (condition : string).
Arguments Returns {A} a.
Arguments Stops {A} condition.

End RVal.

(** ** Spatial graph: the county adjacency matrix *)

Module SpatialGraph.
Import RVal.

Definition TERRITORY_FIPS : list string :=
  ["60"; "66"; "69"; "72"; "78"]%string.

(** A row of the edge list: [(fipscounty, fipsneighbor)]. *)
Abbreviation edge := (string * string)%type (only parsing).

(** [stringr::str_sub(s, start, end)], positions counted from 1, both ends
    included. *)
Definition str_sub (s : string) (start stop : nat) : string :=
  String.substring (start - 1) (stop + 1 - start) s.

(** The two conditions of [filter()]. *)
Definition keep_edge (e : edge) : bool :=
  negb (String.eqb e.2 e.1) &&
  negb (bool_decide (str_sub e.1 1 2 ∈ TERRITORY_FIPS)).

(** [arrange(fipscounty, fipsneighbor)]: by county, ties by neighbour. *)
Definition edge_leb (a b : edge) : bool :=
  match String.compare a.1 b.1 with
  | Lt => true
  | Eq => String.leb a.2 b.2
  | Gt => false
  end.

Definition county_adj (edges : list edge) : list edge :=
  Arrange.sort_by edge_leb (List.filter keep_edge edges).

(** [unique(x)]: the first occurrence of every value, in order. *)
Fixpoint unique_from (seen : list string) (l : list string) : list string :=
  match l with
  | [] => []
  | x :: l' =>
      if bool_decide (x ∈ seen) then unique_from seen l'
      else x :: unique_from (x :: seen) l'
  end.

Definition unique (l : list string) : list string := unique_from [] l.

Definition fips (edges : list edge) : list string :=
  unique ((county_adj edges).*1).

(** An integer matrix, as the list of its rows. *)
Abbreviation matrix := (list (list Z)) (only parsing).

(** [matrix(integer(K^2), nrow = K)]. *)
Definition zero_matrix (K : nat) : matrix := replicate K (replicate K 0).

(** Position of a name in [dimnames]: the first match, if any. *)
Definition match_name (dimnames : list string) (s : string) : option nat :=
  fst <$> list_find (λ x, x = s) dimnames.

(** One row of a two-column character index matrix, turned into a
    (row, column) position. *)
Definition subscript (dimnames : list string) (e : edge) : option (nat * nat) :=
  i ← match_name dimnames e.1;
  j ← match_name dimnames e.2;
  Some (i, j).

(** [M[i, j] <- v]. *)
Definition assign (M : matrix) (ij : nat * nat) (v : Z) : matrix :=
  alter (λ row, <[ij.2 := v]> row) ij.1 M.

(** [M[as.matrix(county_adj)] <- 1L] on the zero matrix with dimnames
    [fips]: a name that is not among the dimnames stops the assignment with
    "subscript out of bounds" before anything is written. *)
Definition county_adj_matrix (edges : list edge) : outcome matrix :=
  let names := fips edges in
  match mapM (subscript names) (county_adj edges) with
  | None => Stops "subscript out of bounds"
  | Some ijs =>
      Returns (foldl (λ M ij, assign M ij 1) (zero_matrix (length names)) ijs)
  end.

(** [W[i, j]] for positions inside the matrix. *)
Definition weight (W : matrix) (i j : nat) : option Z :=
  row ← W !! i; row !! j.

(** The weights as the claim states them: symmetric, and zero on the
    diagonal, for all positions of a [K] by [K] matrix. *)
Definition symmetric_without_loops (W : matrix) (K : nat) : Prop :=
  forall i j, (i < K)%nat -> (j < K)%nat ->
    weight W i j = weight W j i /\ weight W i i = Some 0.

(** An edge list with the self-loop of a county, one edge in both
    directions and one edge in one direction only. *)
Definition one_way_edges : list edge :=
  [("01001", "01001"); ("01001", "01003"); ("01003", "01001");
   ("01003", "01005"); ("01005", "01001")]%string.

End SpatialGraph.

(** ** Design table: the combined data [df] *)

Module Design.
Import RVal.

Definition TRAINING_YEARS : list Z := seqZ 2006 12.
Definition VALIDATION_YEAR : Z := 2018.
Definition TEST_YEAR : Z := 2019.

(** The join key [c('year', 'fips')]. *)
Abbreviation key := (Z * string)%type (only parsing).

Definition key_eqb (a b : key) : bool :=
  (a.1 =? b.1) && String.eqb a.2 b.2.

(** The three tables as their intake steps leave them. *)
Record overdose_row : Type := {
  od_year : Z;
  od_fips : string;
  od_county : string;
  od_death_rate : dbl
}.

Record poverty_row : Type := {
  pv_year : Z;
  pv_fips : string;
  pv_state : string;
  pv_pov_percent_all : dbl;
  pv_median_income : dbl;
  pv_pov_percent_minors : dbl
}.

Record industry_row : Type := {
  in_year : Z;
  in_fips : string;
  in_Coal_Mining_Cluster_LQ : dbl;
  in_high_Coal_Mining_Cluster_LQ : dbl
}.

Definition od_key (r : overdose_row) : key := (od_year r, od_fips r).
Definition pv_key (r : poverty_row) : key := (pv_year r, pv_fips r).
Definition in_key (r : industry_row) : key := (in_year r, in_fips r).

(** A row of [df]. *)
Record df_row : Type := {
  year : Z;
  fips : string;
  county : option string;
  death_rate : dbl;
  state : string;
  pov_percent_all : dbl;
  median_income : dbl;
  pov_percent_minors : dbl;
  Coal_Mining_Cluster_LQ : dbl;
  high_Coal_Mining_Cluster_LQ : dbl;
  masked_death_rate : dbl
}.

Definition row_key (r : df_row) : key := (year r, fips r).

(** [expand_grid(year = years, fips)]: every combination, the first
    column varying slowest. *)
Definition expand_grid (years : list Z) (codes : list string) : list key :=
  y ← years; (λ f, (y, f)) <$> codes.

(** [left_join(x, y, by = c('year', 'fips'))]: every row of [x], once for
    each row of [y] with the same key, and once with missing columns when
    there is none. *)
Definition left_join {A B : Type} (ka : A -> key) (kb : B -> key)
    (x : list A) (y : list B) : list (A * option B) :=
  a ← x;
  match List.filter (λ b, key_eqb (ka a) (kb b)) y with
  | [] => [(a, None)]
  | ms => (λ b, (a, Some b)) <$> ms
  end.

(** A column of the right-hand table after a left join. *)
Definition col {B : Type} (f : B -> dbl) (o : option B) : dbl :=
  from_option f NA o.

Abbreviation joined :=
  (key * option overdose_row * option poverty_row * option industry_row)%type
  (only parsing).

Definition join_all (codes : list string) (overdose : list overdose_row)
    (poverty : list poverty_row) (industry : list industry_row) : list joined :=
  let grid := expand_grid (TRAINING_YEARS ++ [VALIDATION_YEAR]) codes in
  let j1 := left_join id od_key grid overdose in
  let j2 := left_join fst pv_key j1 poverty in
  left_join (λ r, r.1.1) in_key j2 industry.

(** The first [mutate()]: [state], [masked_death_rate] and the industry
    flag with missing values set to 0. *)
Definition mutate_row (j : joined) : df_row :=
  let '(k, od, pv, ind) := j in
  let dr := col od_death_rate od in
  {| year := k.1;
     fips := k.2;
     county := od_county <$> od;
     death_rate := dr;
     state := SpatialGraph.str_sub k.2 1 2;
     pov_percent_all := col pv_pov_percent_all pv;
     median_income := col pv_median_income pv;
     pov_percent_minors := col pv_pov_percent_minors pv;
     Coal_Mining_Cluster_LQ := col in_Coal_Mining_Cluster_LQ ind;
     high_Coal_Mining_Cluster_LQ :=
       replace_na (col in_high_Coal_Mining_Cluster_LQ ind) (Num 0);
     masked_death_rate := if negb (k.1 =? VALIDATION_YEAR) then dr else NA |}.

(** [group_by(year, state)]. *)
Definition same_group (r r' : df_row) : bool :=
  (year r =? year r') && String.eqb (state r) (state r').

Definition group_of (df : list df_row) (r : df_row) : list df_row :=
  List.filter (same_group r) df.

Definition set_pov_percent_all (r : df_row) (v : dbl) : df_row :=
  {| year := year r; fips := fips r; county := county r;
     death_rate := death_rate r; state := state r;
     pov_percent_all := v;
     median_income := median_income r;
     pov_percent_minors := pov_percent_minors r;
     Coal_Mining_Cluster_LQ := Coal_Mining_Cluster_LQ r;
     high_Coal_Mining_Cluster_LQ := high_Coal_Mining_Cluster_LQ r;
     masked_death_rate := masked_death_rate r |}.

Definition set_pov_percent_minors (r : df_row) (v : dbl) : df_row :=
  {| year := year r; fips := fips r; county := county r;
     death_rate := death_rate r; state := state r;
     pov_percent_all := pov_percent_all r;
     median_income := median_income r;
     pov_percent_minors := v;
     Coal_Mining_Cluster_LQ := Coal_Mining_Cluster_LQ r;
     high_Coal_Mining_Cluster_LQ := high_Coal_Mining_Cluster_LQ r;
     masked_death_rate := masked_death_rate r |}.

Definition set_median_income (r : df_row) (v : dbl) : df_row :=
  {| year := year r; fips := fips r; county := county r;
     death_rate := death_rate r; state := state r;
     pov_percent_all := pov_percent_all r;
     median_income := v;
     pov_percent_minors := pov_percent_minors r;
     Coal_Mining_Cluster_LQ := Coal_Mining_Cluster_LQ r;
     high_Coal_Mining_Cluster_LQ := high_Coal_Mining_Cluster_LQ r;
     masked_death_rate := masked_death_rate r |}.

(** The grouped [mutate()].  Its three assignments run in order, each one
    on the table the previous one left, and each statistic is taken over
    the rows of the row's own (year, state) group. *)

(** [pov_percent_all = replace_na(pov_percent_all,
                                  mean(pov_percent_all, na.rm = TRUE))] *)
Definition impute_pov_percent_all (df : list df_row) : list df_row :=
  (λ r, set_pov_percent_all r
          (replace_na (pov_percent_all r)
             (mean (pov_percent_all <$> group_of df r)))) <$> df.

(** [pov_percent_minors = replace_na(pov_percent_minors,
                                     mean(pov_percent_all, na.rm = TRUE))] *)
Definition impute_pov_percent_minors (df : list df_row) : list df_row :=
  (λ r, set_pov_percent_minors r
          (replace_na (pov_percent_minors r)
             (mean (pov_percent_all <$> group_of df r)))) <$> df.

(** [median_income = replace_na(median_income,
                                median(pov_percent_all, na.rm = TRUE))] *)
Definition impute_median_income (df : list df_row) : list df_row :=
  (λ r, set_median_income r
          (replace_na (median_income r)
             (median (pov_percent_all <$> group_of df r)))) <$> df.

Definition impute (df : list df_row) : list df_row :=
  impute_median_income (impute_pov_percent_minors (impute_pov_percent_all df)).

(** [arrange(year, fips)]. *)
Definition row_leb (a b : df_row) : bool :=
  match year a ?= year b with
  | Lt => true
  | Eq => String.leb (fips a) (fips b)
  | Gt => false
  end.

(** The table that enters [group_by(year, state)]. *)
Definition combined (codes : list string) (overdose : list overdose_row)
    (poverty : list poverty_row) (industry : list industry_row)
    : list df_row :=
  mutate_row <$> join_all codes overdose poverty industry.

(** The whole pipeline that builds [df]: it has no failing step. *)
Definition df (codes : list string) (overdose : list overdose_row)
    (poverty : list poverty_row) (industry : list industry_row)
    : list df_row :=
  Arrange.sort_by row_leb (impute (combined codes overdose poverty industry)).

(** The Design Assembler as an R evaluation. *)
Definition assemble (codes : list string) (overdose : list overdose_row)
    (poverty : list poverty_row) (industry : list industry_row)
    : outcome (list df_row) :=
  Returns (df codes overdose poverty industry).

(** A row of [df] after
    [mutate(fitted = fitted(model), residuals = death_rate - fitted)]. *)
Record fitted_row : Type := {
  obs : df_row;
  fitted : dbl;
  residuals : dbl
}.

Definition with_residuals (r : df_row) (f : dbl) : fitted_row :=
  {| obs := r; fitted := f; residuals := sub (death_rate r) f |}.

(** The second [mutate()], given the vector that [fitted(model)] returns:
    a vector of the table's length is taken row by row, one of length 1 is
    recycled, any other length stops. *)
Definition add_fitted (df : list df_row) (fit : list dbl)
    : outcome (list fitted_row) :=
  if bool_decide (length fit = length df) then
    Returns (zip_with with_residuals df fit)
  else
    match fit with
    | [f] => Returns ((λ r, with_residuals r f) <$> df)
    | _ => Stops "fitted must be size nrow(df) or 1"
    end.

Abbreviation years := (TRAINING_YEARS ++ [VALIDATION_YEAR]).

(** Two counties of one state in 2006; the first has no value for the
    minors' poverty percent and the median income. *)
Definition poverty_two_counties : list poverty_row :=
  [ {| pv_year := 2006; pv_fips := "01001"; pv_state := "01";
       pv_pov_percent_all := Num 10; pv_median_income := NA;
       pv_pov_percent_minors := NA |};
    {| pv_year := 2006; pv_fips := "01003"; pv_state := "01";
       pv_pov_percent_all := Num 20; pv_median_income := Num 50000;
       pv_pov_percent_minors := Num 30 |} ].

(** One county with a death rate of 12 recorded for the validation year
    and a fitted value of 10 for every row. *)
Definition overdose_validation_year : list overdose_row :=
  [ {| od_year := 2018; od_fips := "01001"; od_county := "Autauga County";
       od_death_rate := Num 12 |} ].

(** Residuals as the claim states them: undefined on every validation-year
    row. *)
Definition held_out_residuals_undefined (rows : list fitted_row) : Prop :=
  forall r, r ∈ rows -> year (obs r) = VALIDATION_YEAR ->
    is_na (residuals r) = true.

(** A poverty table with two records for one county and year. *)
Definition poverty_repeated_record : list poverty_row :=
  [ {| pv_year := 2006; pv_fips := "01001"; pv_state := "01";
       pv_pov_percent_all := Num 10; pv_median_income := Num 40000;
       pv_pov_percent_minors := Num 12 |};
    {| pv_year := 2006; pv_fips := "01001"; pv_state := "01";
       pv_pov_percent_all := Num 11; pv_median_income := Num 41000;
       pv_pov_percent_minors := Num 13 |} ].

End Design.

(** ** The model of the section "Conditional Auto-regressive Bayesian
       Spatial-temporal Model" *)

Module Model.
Import RVal.
Local Open Scope Q_scope.

(** The years are indexed [t = 1, ..., N]. *)
Definition time_indices (N : nat) : list Z := seqZ 1 (Z.of_nat N).

(** [t_bar = (1/N) * sum_{t=1}^{N} t]. *)
Definition t_bar (N : nat) : Q :=
  (1 / inject_Z (Z.of_nat N)) * Qsum (inject_Z <$> time_indices N).

(** [t* = (t - t_bar) / N]. *)
Definition t_star (N : nat) (t : Z) : Q :=
  (inject_Z t - t_bar N) / inject_Z (Z.of_nat N).

(** [psi_kt = beta_1 + phi_k + (alpha + delta_k) * (t - t_bar) / N]. *)
Definition psi (N : nat) (beta_1 phi_k alpha delta_k : Q) (t : Z) : Q :=
  beta_1 + phi_k + (alpha + delta_k) * t_star N t.

(** [g(mu_kt) = x_kt' beta + psi_kt], with the identity link. *)
Definition mu (N : nat) (x_kt beta : list Q) (beta_1 phi_k alpha delta_k : Q)
    (t : Z) : Q :=
  Qsum (zip_with Qmult x_kt beta) + psi N beta_1 phi_k alpha delta_k t.

(** A quotient, undefined when the denominator is zero. *)
Definition quotient (a b : Q) : option Q :=
  if Qeq_bool b 0 then None else Some (a / b).

(** Row [k] of [W]. *)
Definition w_row (W : SpatialGraph.matrix) (k : nat) : list Z :=
  default [] (W !! k).

(** [sum_{j=1}^{K} w_kj]. *)
Definition sum_w (W : SpatialGraph.matrix) (k : nat) : Q :=
  Qsum (inject_Z <$> w_row W k).

(** [sum_{j=1}^{K} w_kj * x_j]. *)
Definition sum_w_x (W : SpatialGraph.matrix) (k : nat) (x : list Q) : Q :=
  Qsum (zip_with (λ w xj, inject_Z w * xj) (w_row W k) x).

(** The denominator shared by the conditional mean and variance:
    [rho * sum_j w_kj + 1 - rho]. *)
Definition car_denominator (rho : Q) (W : SpatialGraph.matrix) (k : nat) : Q :=
  rho * sum_w W k + 1 - rho.

(** Mean of [x_k | x_{-k}, W]:
    [rho * sum_j w_kj x_j / (rho * sum_j w_kj + 1 - rho)]. *)
Definition car_mean (rho : Q) (W : SpatialGraph.matrix) (x : list Q)
    (k : nat) : option Q :=
  quotient (rho * sum_w_x W k x) (car_denominator rho W k).

(** Variance of [x_k | x_{-k}, W]:
    [tau2 / (rho * sum_j w_kj + 1 - rho)]. *)
Definition car_variance (tau2 rho : Q) (W : SpatialGraph.matrix)
    (k : nat) : option Q :=
  quotient tau2 (car_denominator rho W k).

(** [phi_k | phi_{-k}, W ~ N(mean, variance)] with [rho_int], [tau2_int]. *)
Definition phi_conditional (rho_int tau2_int : Q) (W : SpatialGraph.matrix)
    (phi : list Q) (k : nat) : option Q * option Q :=
  (car_mean rho_int W phi k, car_variance tau2_int rho_int W k).

(** [delta_k | delta_{-k}, W ~ N(mean, variance)] with [rho_slo],
    [tau2_slo]. *)
Definition delta_conditional (rho_slo tau2_slo : Q) (W : SpatialGraph.matrix)
    (delta : list Q) (k : nat) : option Q * option Q :=
  (car_mean rho_slo W delta k, car_variance tau2_slo rho_slo W k).

(** The neighbours of entity [k]: the columns with a non-zero weight. *)
Definition neighbors (W : SpatialGraph.matrix) (k : nat) : list nat :=
  (filter (λ jw : nat * Z, jw.2 ≠ 0%Z) (imap (λ j w, (j, w)) (w_row W k))).*1.

Definition degree (W : SpatialGraph.matrix) (k : nat) : nat :=
  length (neighbors W k).




End Model.

(** ** The sampler engine

    The notebook calls [ST.CARlinear(..., burnin = 5000, n.sample = 10000,
    thin = 2)] of the CARBayesST package; the sampler itself is not among
    the sources.  This module follows section 4.3 of the specification. *)

Module Sampler.
Import RVal.
Local Open Scope Q_scope.

(** Modelled from the spec: the error taxonomy of section 7 (the sources
    have no error type). *)
Inductive error : Type :=
  | ConfigurationError
  | DataError
  | NumericalError (parameter : string).

(** Modelled from the spec: the run-length part of the model configuration
    of section 6 ([burn_in], [n_sample], [thin], random seed); the sources
    only have the call with [burnin = 5000, n.sample = 10000, thin = 2]. *)
Record Config : Type := {
  burn_in : Z;
  n_sample : Z;
  thin : Z;
  seed : Z
}.

(** Modelled from the spec: the Parameter State of section 3, which the
    sources leave inside the library. *)
Record ParameterState : Type := {
  beta : list Q;
  phi : list Q;
  delta : list Q;
  tau2_int : Q;
  tau2_slo : Q;
  rho_int : Q;
  rho_slo : Q;
  alpha : Q;
  nu2 : Q
}.

(** Modelled from the spec: "one pure update function per parameter group"
    (section 9), the draws of the seven steps of section 4.3 with the
    private pseudo-random stream threaded through them; the distributions
    themselves are inside the library and stay abstract.  The data, the
    priors and the spatial graph are read-only and part of each function. *)
Record Kernels (rng : Type) : Type := {
  seed_stream : Z -> rng;
  initial_state : rng -> ParameterState * rng;
  draw_beta : ParameterState -> rng -> list Q * rng;
  draw_phi : ParameterState -> rng -> list Q * rng;
  draw_delta : ParameterState -> rng -> list Q * rng;
  draw_alpha : ParameterState -> rng -> Q * rng;
  draw_tau2 : bool -> ParameterState -> rng -> Q * rng;
  propose_rho : bool -> Q -> ParameterState -> rng -> Q * rng;
  accept_rho : bool -> Q -> ParameterState -> rng -> bool * rng;
  tune_sd : Q -> bool -> Q;
  draw_nu2 : ParameterState -> rng -> Q * rng
}.
Arguments seed_stream {rng} _ _.
Arguments initial_state {rng} _ _.
Arguments draw_beta {rng} _ _ _.
Arguments draw_phi {rng} _ _ _.
Arguments draw_delta {rng} _ _ _.
Arguments draw_alpha {rng} _ _ _.
Arguments draw_tau2 {rng} _ _ _ _.
Arguments propose_rho {rng} _ _ _ _ _.
Arguments accept_rho {rng} _ _ _ _ _.
Arguments tune_sd {rng} _ _ _.
Arguments draw_nu2 {rng} _ _ _.

(** Modelled from the spec: the configuration test of section 8,
    [burn_in >= 0], [n_sample > 0], [n_sample % thin == 0]; a thinning
    interval has to be positive for "every thin-th draw" to mean
    something. *)
Definition valid_config (c : Config) : bool :=
  (0 <=? burn_in c)%Z && (0 <? n_sample c)%Z && (0 <? thin c)%Z &&
  (n_sample c mod thin c =? 0)%Z.

(** Modelled from the spec: which iterations are retained (section 4.3):
    none of [1..burn_in], then every [thin]-th. *)
Definition retained (c : Config) (i : Z) : bool :=
  (burn_in c <? i)%Z && ((i - burn_in c) mod thin c =? 0)%Z.

(** Modelled from the spec: re-centering of [phi] and [delta], "subtracting
    the mean" (section 4.3, steps 2 and 3). *)
Definition recenter (x : list Q) : list Q :=
  let m := Qsum x / inject_Z (Z.of_nat (length x)) in
  (λ v, v - m) <$> x.

(** Modelled from the spec: "rho in [0,1)". *)
Definition in_unit (r : Q) : bool := Qle_bool 0 r && negb (Qle_bool 1 r).

(** Modelled from the spec: the Parameter State owned by the engine
    together with its random stream and the two proposal standard
    deviations of step 6. *)
Record Engine (rng : Type) : Type := {
  state : ParameterState;
  stream : rng;
  sd_int : Q;
  sd_slo : Q
}.
Arguments state {rng} _.
Arguments stream {rng} _.
Arguments sd_int {rng} _.
Arguments sd_slo {rng} _.

Section Engine.
Context {rng : Type} (K : Kernels rng).

(** Modelled from the spec: step 5 (and 7), a conjugate draw of a
    variance; a non-positive value is a [NumericalError] naming the
    parameter (a rational is always finite). *)
Definition checked_variance (name : string) (draw : Q * rng)
    : error + (Q * rng) :=
  if Qle_bool draw.1 0 then inl (NumericalError name) else inr draw.

(** Modelled from the spec: step 6, the Metropolis step of a smoothness
    parameter: a proposal outside [0,1) is rejected without evaluating
    the acceptance ratio; the result is the new value, whether the
    proposal was accepted, and the stream. *)
Definition metropolis_rho (slope : bool) (sd current : Q)
    (s : ParameterState) (g : rng) : Q * bool * rng :=
  let '(proposal, g1) := propose_rho K slope sd s g in
  if in_unit proposal then
    let '(ok, g2) := accept_rho K slope proposal s g1 in
    (if ok then proposal else current, ok, g2)
  else (current, false, g1).

(** Modelled from the spec: one sweep, the seven steps of section 4.3 in
    their order, each on the values the previous ones left; the proposal
    standard deviations are tuned only while [tuning] holds. *)
Definition sweep (tuning : bool) (e : Engine rng) : error + Engine rng :=
  let s0 := state e in
  let '(b, g1) := draw_beta K s0 (stream e) in
  let s1 := {| beta := b; phi := phi s0; delta := delta s0;
               tau2_int := tau2_int s0; tau2_slo := tau2_slo s0;
               rho_int := rho_int s0; rho_slo := rho_slo s0;
               alpha := alpha s0; nu2 := nu2 s0 |} in
  let '(p, g2) := draw_phi K s1 g1 in
  let s2 := {| beta := b; phi := recenter p; delta := delta s0;
               tau2_int := tau2_int s0; tau2_slo := tau2_slo s0;
               rho_int := rho_int s0; rho_slo := rho_slo s0;
               alpha := alpha s0; nu2 := nu2 s0 |} in
  let '(d, g3) := draw_delta K s2 g2 in
  let s3 := {| beta := b; phi := recenter p; delta := recenter d;
               tau2_int := tau2_int s0; tau2_slo := tau2_slo s0;
               rho_int := rho_int s0; rho_slo := rho_slo s0;
               alpha := alpha s0; nu2 := nu2 s0 |} in
  let '(a, g4) := draw_alpha K s3 g3 in
  let s4 := {| beta := b; phi := recenter p; delta := recenter d;
               tau2_int := tau2_int s0; tau2_slo := tau2_slo s0;
               rho_int := rho_int s0; rho_slo := rho_slo s0;
               alpha := a; nu2 := nu2 s0 |} in
  match checked_variance "tau2_int" (draw_tau2 K false s4 g4) with
  | inl err => inl err
  | inr (ti, g5) =>
  let s5 := {| beta := b; phi := recenter p; delta := recenter d;
               tau2_int := ti; tau2_slo := tau2_slo s0;
               rho_int := rho_int s0; rho_slo := rho_slo s0;
               alpha := a; nu2 := nu2 s0 |} in
  match checked_variance "tau2_slo" (draw_tau2 K true s5 g5) with
  | inl err => inl err
  | inr (ts, g6) =>
  let s6 := {| beta := b; phi := recenter p; delta := recenter d;
               tau2_int := ti; tau2_slo := ts;
               rho_int := rho_int s0; rho_slo := rho_slo s0;
               alpha := a; nu2 := nu2 s0 |} in
  let '(ri, oki, g7) := metropolis_rho false (sd_int e) (rho_int s0) s6 g6 in
  let s7 := {| beta := b; phi := recenter p; delta := recenter d;
               tau2_int := ti; tau2_slo := ts;
               rho_int := ri; rho_slo := rho_slo s0;
               alpha := a; nu2 := nu2 s0 |} in
  let '(rs, oks, g8) := metropolis_rho true (sd_slo e) (rho_slo s0) s7 g7 in
  let s8 := {| beta := b; phi := recenter p; delta := recenter d;
               tau2_int := ti; tau2_slo := ts;
               rho_int := ri; rho_slo := rs;
               alpha := a; nu2 := nu2 s0 |} in
  match checked_variance "nu2" (draw_nu2 K s8 g8) with
  | inl err => inl err
  | inr (n2, g9) =>
      inr {| state := {| beta := b; phi := recenter p; delta := recenter d;
                         tau2_int := ti; tau2_slo := ts;
                         rho_int := ri; rho_slo := rs;
                         alpha := a; nu2 := n2 |};
             stream := g9;
             sd_int := if tuning then tune_sd K (sd_int e) oki else sd_int e;
             sd_slo := if tuning then tune_sd K (sd_slo e) oks else sd_slo e |}
  end end end.

(** Modelled from the spec: what a run leaves behind: how it ended, how
    many iterations were executed, and the retained samples, each with
    the number of the iteration that produced it. *)
Record Run : Type := {
  failure : option error;
  iterations : Z;
  samples : list (Z * ParameterState)
}.

(** Modelled from the spec: the state machine over the iterations after
    iteration [past]; a [NumericalError] aborts the run and keeps the
    samples up to the last good iteration. *)
Fixpoint iterate (c : Config) (todo : nat) (past : Z) (e : Engine rng)
    (chain : list (Z * ParameterState)) : Run :=
  match todo with
  | O => {| failure := None; iterations := past; samples := chain |}
  | S todo' =>
      let i := (past + 1)%Z in
      match sweep (i <=? burn_in c)%Z e with
      | inl err =>
          {| failure := Some err; iterations := past; samples := chain |}
      | inr e' =>
          iterate c todo' i e'
            (if retained c i then chain ++ [(i, state e')] else chain)
      end
  end.

(** Modelled from the spec: a run of the engine: the configuration is
    checked first, then [N_total = burn_in + n_sample] iterations run from
    the initial state. *)
Definition run (c : Config) (sd0 : Q) : Run :=
  if valid_config c then
    let '(s, g) := initial_state K (seed_stream K (seed c)) in
    iterate c (Z.to_nat (burn_in c + n_sample c)) 0
      {| state := s; stream := g; sd_int := sd0; sd_slo := sd0 |} []
  else
    {| failure := Some ConfigurationError; iterations := 0; samples := [] |}.

End Engine.





(** The configuration of the call in the notebook. *)
Definition notebook_config (seed : Z) : Config :=
  {| burn_in := 5000; n_sample := 10000; thin := 2; seed := seed |}.

(** Modelled from the spec: an instance of the update functions for the
    examples, since the sources have none: the stream is a counter, and the
    proposals for the smoothness parameters run through -1/3, 0, ..., 4/3. *)
Definition counter_kernels : Kernels Z := {|
  seed_stream := id;
  initial_state g :=
    ({| beta := [0]; phi := [0; 0]; delta := [0; 0];
        tau2_int := 1; tau2_slo := 1; rho_int := 0; rho_slo := 1 # 2;
        alpha := 0; nu2 := 1 |}, g);
  draw_beta s g := ([inject_Z g], (g + 1)%Z);
  draw_phi s g := ([1; 3], g);
  draw_delta s g := ([2; 6], g);
  draw_alpha s g := (1, g);
  draw_tau2 slope s g := (inject_Z (1 + g mod 3), (g + 1)%Z);
  propose_rho slope sd s g := ((inject_Z (g mod 6) - 1) / 3, (g + 1)%Z);
  accept_rho slope r s g := (Z.even g, (g + 1)%Z);
  tune_sd sd ok := if ok then sd * (11 # 10) else sd * (9 # 10);
  draw_nu2 s g := (2, g)
|}.


End Sampler.

(** ** The order of character vectors *)

Module StringOrder.

(** [a <= b] and [a < b] for strings, as [arrange] and [sort] compare
    them. *)
Definition str_le (a b : string) : Prop := String.leb a b = true.
Definition str_lt (a b : string) : Prop := String.compare a b = Lt.

(** The order of the keys [(year, fips)]. *)
Definition key_leb (a b : Z * string) : bool :=
  match a.1 ?= b.1 with
  | Lt => true
  | Eq => String.leb a.2 b.2
  | Gt => false
  end.

End StringOrder.

(** ** Data intake: the three tables as they are read *)

Module Intake.
Import RVal Design.

(** [n] copies of the padding character. *)
Fixpoint padding (n : nat) (pad : Ascii.ascii) : string :=
  match n with
  | O => EmptyString
  | S n' => String pad (padding n' pad)
  end.

(** [str_pad(s, width, side = 'left', pad)] with a padding of one
    character: a string shorter than [width] gets the missing characters in
    front, any other string is kept.  The width is counted in the
    characters of the string, as it is for the digits of a county code. *)
Definition str_pad (s : string) (width : nat) (pad : Ascii.ascii) : string :=
  String.append (padding (width - String.length s) pad) s.

(** A record of the overdose file; [FIPS] is the text of the code as
    [str_pad] receives it. *)
Record overdose_record : Type := {
  Year : Z;
  FIPS : string;
  County : string;
  Model_based_Death_Rate : dbl
}.

(** The [transmute()] of the overdose file. *)
Definition overdose (file : list overdose_record) : list overdose_row :=
  (λ r, {| od_year := Year r;
           od_fips := str_pad (FIPS r) 5 "0"%char;
           od_county := County r;
           od_death_rate := Model_based_Death_Rate r |}) <$> file.

(** A record of the poverty file. *)
Record poverty_record : Type := {
  pq_Year : Z;
  County_FIPS_Code : string;
  State_FIPS : string;
  Poverty_Percent_All_Ages : dbl;
  Median_Household_Income : dbl;
  Poverty_Percent_Age_5_17_in_Families : dbl
}.

(** The [transmute()] of the poverty file. *)
Definition poverty (file : list poverty_record) : list poverty_row :=
  (λ r, {| pv_year := pq_Year r;
           pv_fips := str_pad (County_FIPS_Code r) 5 "0"%char;
           pv_state := State_FIPS r;
           pv_pov_percent_all := Poverty_Percent_All_Ages r;
           pv_median_income := Median_Household_Income r;
           pv_pov_percent_minors := Poverty_Percent_Age_5_17_in_Families r |})
  <$> file.

(** [x[x > 0]] followed by [na.rm = TRUE]: the positive numbers of [x]. *)
Definition positive (x : list dbl) : list Q :=
  List.filter (λ q, negb (Qle_bool q 0)) (na_rm x).

(** [pmin(a, b)] and [pmax(a, b)] on two numbers. *)
Definition pmin (a b : Q) : Q := if Qle_bool a b then a else b.
Definition pmax (a b : Q) : Q := if Qle_bool a b then b else a.

(** [100 * .Machine$double.eps]. *)
Definition eps : Q := 100 * (1 # 2 ^ 52).

(** [quantile(x, probs = p, na.rm = TRUE)] on the numbers left by
    [na.rm], for one probability and the default type 7.  A probability
    outside [0,1] by more than [eps] stops; otherwise it is clamped to
    [0,1], [index = 1 + max(n - 1, 0) * p], and the result is
    [x[floor(index)]] of the sorted values, moved towards
    [x[ceiling(index)]] by the fraction [index - floor(index)] when the two
    differ.  With no value at all the result is [NA]. *)
Definition quantile (xs : list Q) (p : Q) : outcome dbl :=
  if Qlt_le_dec p (- eps) then Stops "'probs' outside [0,1]"
  else if Qlt_le_dec (1 + eps) p then Stops "'probs' outside [0,1]"
  else
    let p := pmax 0 (pmin 1 p) in
    let n := length xs in
    match xs with
    | [] => Returns NA
    | _ =>
        let index := (1 + inject_Z (Z.of_nat (n - 1)) * p)%Q in
        let lo := Qfloor index in
        let hi := Qceiling index in
        let s := Qsort xs in
        let qs := nth (Z.to_nat lo - 1) s 0%Q in
        let x_hi := nth (Z.to_nat hi - 1) s 0%Q in
        let h := (index - inject_Z lo)%Q in
        if Qlt_le_dec (inject_Z lo) index then
          if Qeq_bool x_hi qs then Returns (Num qs)
          else Returns (Num ((1 - h) * qs + h * x_hi))
        else Returns (Num qs)
    end.

(** [as.numeric(x >= q)] on one element. *)
Definition at_least (x q : dbl) : dbl :=
  match x, q with
  | Num a, Num b => if Qle_bool b a then Num 1 else Num 0
  | _, _ => NA
  end.

(** [has_high_lq(x, p)]:
    [as.numeric(x >= quantile(x[x > 0], probs = p, na.rm = TRUE))]. *)
Definition has_high_lq (x : list dbl) (p : Q) : outcome (list dbl) :=
  match quantile (positive x) p with
  | Stops c => Stops c
  | Returns q => Returns ((λ v, at_least v q) <$> x)
  end.

(** A record of the industry file. *)
Record industry_record : Type := {
  ic_year : Z;
  region : string;
  Coal_Mining_Cluster_LQ_value : dbl
}.

(** The industry table: the padded code, the location quotient and its
    flag [high_Coal.Mining_Cluster.LQ], computed over the whole column with
    the default [p = 0.75]. *)
Definition industry (file : list industry_record)
    : outcome (list industry_row) :=
  match has_high_lq (Coal_Mining_Cluster_LQ_value <$> file) (3 # 4) with
  | Stops c => Stops c
  | Returns flags =>
      Returns (zip_with
                 (λ r flag,
                    {| in_year := ic_year r;
                       in_fips := str_pad (region r) 5 "0"%char;
                       in_Coal_Mining_Cluster_LQ :=
                         Coal_Mining_Cluster_LQ_value r;
                       in_high_Coal_Mining_Cluster_LQ := flag |})
                 file flags)
  end.

End Intake.

(** ** Diagnostics: the residual tables that are plotted *)

Module Diagnostics.
Import RVal Design.

(** [filter(year %in% TRAINING_YEARS)]. *)
Definition training_rows (rows : list fitted_row) : list fitted_row :=
  List.filter (λ r, bool_decide (year (obs r) ∈ TRAINING_YEARS)) rows.

(** [filter(year == VALIDATION_YEAR)]. *)
Definition validation_rows (rows : list fitted_row) : list fitted_row :=
  List.filter (λ r, year (obs r) =? VALIDATION_YEAR) rows.

(** [group_by(fips) %>% summarise(residuals = mean(residuals, na.rm =
    TRUE))]: one row for every county of the table, the counties in
    increasing order. *)
Definition mean_residuals (rows : list fitted_row) : list (string * dbl) :=
  (λ f, (f, mean (residuals <$>
                    List.filter (λ r, String.eqb (fips (obs r)) f) rows)))
  <$> Arrange.sort_by String.leb
        (SpatialGraph.unique ((λ r, fips (obs r)) <$> rows)).

(** The table of the map "Average (over time) Training Error". *)
Definition average_training_error (rows : list fitted_row)
    : list (string * dbl) :=
  mean_residuals (training_rows rows).

End Diagnostics.

(** ** The data handed to the model *)

Module Fit.
Import RVal Design.

(** The columns of [df] that the formula of [ST.CARlinear] names:
    [masked_death_rate ~ median_income + pov_percent_all +
     pov_percent_minors + high_Coal.Mining_Cluster.LQ], the response
    first. *)
Definition formula_columns (r : df_row) : dbl * dbl * dbl * dbl * dbl :=
  (masked_death_rate r, median_income r, pov_percent_all r,
   pov_percent_minors r, high_Coal_Mining_Cluster_LQ r).

(** Two overdose records for the same county and year that may differ in
    the county's name, and in the death rate when the year is the
    validation year. *)
Definition same_outside_validation (a b : overdose_row) : Prop :=
  od_key a = od_key b /\
  (od_year a <> VALIDATION_YEAR -> od_death_rate a = od_death_rate b).

(** The overdose columns of two joined rows with the key [k]: both missing,
    or both present with the same death rate unless [k] is of the
    validation year. *)
Definition rates_agree (k : Z * string) (o o' : option overdose_row) : Prop :=
  match o, o' with
  | Some b, Some b' => k.1 <> VALIDATION_YEAR -> od_death_rate b = od_death_rate b'
  | None, None => True
  | _, _ => False
  end.

(** A row of [df] without the two columns that come from the overdose
    table and are not masked. *)
Definition blind (r : df_row) : df_row :=
  {| year := year r; fips := fips r; county := None;
     death_rate := NA; state := state r;
     pov_percent_all := pov_percent_all r;
     median_income := median_income r;
     pov_percent_minors := pov_percent_minors r;
     Coal_Mining_Cluster_LQ := Coal_Mining_Cluster_LQ r;
     high_Coal_Mining_Cluster_LQ := high_Coal_Mining_Cluster_LQ r;
     masked_death_rate := masked_death_rate r |}.

End Fit.

(** ** Conditional percentiles: [calculate_conditional_quantiles] *)

Module Binning.
Import RVal.

(** The numbers of a vector, when none of its values is missing. *)
Fixpoint numbers (v : list dbl) : option (list Q) :=
  match v with
  | [] => Some []
  | Num q :: v' => cons q <$> numbers v'
  | _ :: _ => None
  end.

(** [min(c(q, qs))] and [max(c(q, qs))]. *)
Definition min_of (q : Q) (qs : list Q) : Q := foldr Intake.pmin q qs.
Definition max_of (q : Q) (qs : list Q) : Q := foldr Intake.pmax q qs.

(** [seq(from, to, length = length_out)] between two whole numbers
    [from <= to]: [from] alone for the length 1, the repeated [from] when
    [to] is equal to it, and otherwise
    [c(from, from + seq_len(length_out - 2) * by, to)] with
    [by = (to - from) / (length_out - 1)], the [width] of an interval. *)
Definition width (from to : Z) (n1 : nat) : Q :=
  ((inject_Z to - inject_Z from) / inject_Z (Z.of_nat n1))%Q.

Definition seq_length_out (from to : Z) (length_out : nat) : list Q :=
  match length_out with
  | O => []
  | S O => [inject_Z from]
  | S n1 =>
      if from =? to then replicate length_out (inject_Z from)
      else
        inject_Z from ::
        ((λ i : nat, inject_Z from + inject_Z (Z.of_nat i) * width from to n1)%Q
           <$> seq 1 (length_out - 2)) ++
        [inject_Z to]
  end.

(** [diff(x)]. *)
Definition diff (x : list Q) : list Q :=
  zip_with (λ a b, b - a)%Q x (tail x).

(** [breaks[-length(breaks)] + 0.5 * diff(breaks)]: the middle of every
    interval. *)
Definition midpoints (breaks : list Q) : list Q :=
  zip_with (λ b d, b + (1 # 2) * d)%Q
    (take (length breaks - 1) breaks) (diff breaks).

(** [anyDuplicated(x)] as a truth value. *)
Fixpoint any_duplicated (x : list Q) : bool :=
  match x with
  | [] => false
  | a :: t => existsb (Qeq_bool a) t || any_duplicated t
  end.

(** The interval of one value, counted from 0, for [right = TRUE] and
    [include.lowest = TRUE]: the interval [(lo, hi]] that holds the value,
    the first interval also for the lowest break itself, and none for a
    value outside the breaks.  [first] tells that the breaks start with
    the lowest one. *)
Fixpoint bincode (first : bool) (v : Q) (breaks : list Q) : option nat :=
  match breaks with
  | lo :: ((hi :: _) as rest) =>
      if (negb (Qle_bool v lo) && Qle_bool v hi) || (first && Qeq_bool v lo)
      then Some O
      else S <$> bincode false v rest
  | _ => None
  end.

(** [cut(x, breaks = breaks, include.lowest = TRUE, labels = labels)]
    for at least two breaks, read back by
    [as.numeric(as.character(.))]: the label of the interval of every
    value, [NA] for a value outside the breaks.  The labels are taken as
    the numbers they are made from. *)
Definition cut (x breaks labels : list Q) : outcome (list dbl) :=
  let breaks := Qsort breaks in
  if any_duplicated breaks then Stops "'breaks' are not unique"
  else if bool_decide (length labels = (length breaks - 1)%nat) then
    Returns ((λ v, match bincode true v breaks with
                   | Some i => from_option Num NA (labels !! i)
                   | None => NA
                   end) <$> x)
  else Stops "number of intervals and length of 'labels' differ".

(** [tibble(a, b)]: two columns of one length, a column of length 1 being
    repeated. *)
Definition tibble {A B : Type} (a : list A) (b : list B)
    : outcome (list (A * B)) :=
  if bool_decide (length a = length b) then Returns (zip a b)
  else
    match a, b with
    | [a0], _ => Returns ((λ v, (a0, v)) <$> b)
    | _, [b0] => Returns ((λ v, (v, b0)) <$> a)
    | _, _ => Stops "Tibble columns must have compatible sizes"
    end.

(** Evaluation in sequence: the first [stop()] ends it. *)
Definition and_then {A B : Type} (o : outcome A) (f : A -> outcome B)
    : outcome B :=
  match o with
  | Returns a => f a
  | Stops c => Stops c
  end.

Fixpoint collect {A : Type} (l : list (outcome A)) : outcome (list A) :=
  match l with
  | [] => Returns []
  | o :: t =>
      and_then o (λ a, and_then (collect t) (λ r, Returns (a :: r)))
  end.

(** A row of the result. *)
Record quantile_row : Type := {
  x_bins : dbl;
  length_y : nat;
  quantiles : dbl;
  probs : Q
}.

(** [c(0.1, 0.25, 0.5, 0.75, 0.9)]. *)
Definition probabilities : list Q := [1 # 10; 1 # 4; 1 # 2; 3 # 4; 9 # 10].

(** Two values of the grouping column that fall into one group. *)
Definition same_bin (a b : dbl) : bool :=
  match a, b with
  | Num p, Num q => Qeq_bool p q
  | NA, NA => true
  | NaN, NaN => true
  | _, _ => false
  end.

(** The different numbers of a vector, each at its first place. *)
Fixpoint distinct (l : list Q) : list Q :=
  match l with
  | [] => []
  | a :: t => a :: List.filter (λ b, negb (Qeq_bool a b)) (distinct t)
  end.

(** The groups of [group_by(x_bins)]: the different values in increasing
    order, a missing one last. *)
Definition group_keys (col : list dbl) : list dbl :=
  (Num <$> Qsort (distinct (na_rm col))) ++
  (if existsb is_na col then [NA] else []).

(** [summarise(length = length(y), quantiles = quantile(y, probs),
    probs = probs)] on the group of the key [k]: five rows. *)
Definition summarise_group (t : list (dbl * Q)) (k : dbl)
    : outcome (list quantile_row) :=
  let y := snd <$> List.filter (λ r, same_bin r.1 k) t in
  and_then (collect (Intake.quantile y <$> probabilities))
    (λ qs, Returns (zip_with
                      (λ q p, {| x_bins := k; length_y := length y;
                                 quantiles := q; probs := p |})
                      qs probabilities)).

Definition summarise (t : list (dbl * Q)) : outcome (list quantile_row) :=
  and_then (collect (summarise_group t <$> group_keys (fst <$> t)))
    (λ groups, Returns (concat groups)).

(** [calculate_conditional_quantiles(x, y, n_bins)].  A missing value in
    [x] or [y], or no value at all, leaves [seq] without a finite start.
    With [n_bins = 0] the only break is read by [cut] as a number of
    intervals, and every way through [cut] stops: below 2 it is no number
    of intervals, an empty [x] has no range to divide, and otherwise
    there is no label for the intervals. *)
Definition calculate_conditional_quantiles (x y : list dbl) (n_bins : nat)
    : outcome (list quantile_row) :=
  match numbers x, numbers y with
  | Some xs, Some ys =>
      match xs ++ ys with
      | [] => Stops "'from' must be a finite number"
      | v0 :: v =>
          let from := Qfloor (min_of v0 v) in
          let to := Qceiling (max_of v0 v) in
          let breaks := seq_length_out from to (n_bins + 1) in
          let labs := midpoints breaks in
          match n_bins with
          | O =>
              if Qlt_le_dec (inject_Z from) 2 then
                Stops "invalid number of intervals"
              else
                match xs with
                | [] => Stops "'from' must be a finite number"
                | _ => Stops "number of intervals and length of 'labels' differ"
                end
          | _ =>
              and_then (cut xs breaks labs)
                (λ bins, and_then (tibble bins ys) summarise)
          end
      end
  | _, _ => Stops "'from' must be a finite number"
  end.

End Binning.

(** ** The exploratory notebook: checks of the overdose file *)

Module Eda.

(** A row of [county_od], with the two columns that the checks read; in
    either a value may be missing ([NaN]). *)
Record observation : Type := {
  FIPS : option string;
  Year : option Z
}.

(** [Series.isnull().sum()]: the number of missing values of a column. *)
Definition isnull_sum {A : Type} (col : list (option A)) : nat :=
  length (List.filter (λ v, match v with None => true | Some _ => false end)
            col).

(** [county_od[['FIPS', 'Year']]]. *)
Definition fips_year (t : list observation)
    : list (option string * option Z) :=
  (λ r, (FIPS r, Year r)) <$> t.

(** [DataFrame.duplicated()] with the default [keep='first']: a row is
    marked when an earlier row is equal to it, missing values counting as
    equal. *)
Fixpoint duplicated_from (seen l : list (option string * option Z))
    : list bool :=
  match l with
  | [] => []
  | k :: t => bool_decide (k ∈ seen) :: duplicated_from (k :: seen) t
  end.

Definition duplicated (l : list (option string * option Z)) : list bool :=
  duplicated_from [] l.

(** [Series.sum()] of truth values: the number of [True]. *)
Definition sum_bool (l : list bool) : nat := length (List.filter id l).

(** [county_od[['FIPS', 'Year']].duplicated().sum()]. *)
Definition duplicated_observations (t : list observation) : nat :=
  sum_bool (duplicated (fips_year t)).

(** A row that [groupby('FIPS')['Year'].count()] counts for the county
    [f]: its code is [f] and its year is not missing. *)
Definition counted (f : string) (r : observation) : bool :=
  bool_decide (FIPS r = Some f) &&
  match Year r with Some _ => true | None => false end.

(** [county_od.groupby('FIPS')['Year'].count()]: for every county code of
    the table (a row without a code is in no group), the number of its
    rows with a year, the counties in increasing order. *)
Definition year_count (t : list observation) : list (string * nat) :=
  (λ f, (f, length (List.filter (counted f) t)))
  <$> Arrange.sort_by String.leb (SpatialGraph.unique (omap FIPS t)).

(** [(county_od.groupby('FIPS')['Year'].count() != 16).sum()]. *)
Definition counties_without_16_years (t : list observation) : nat :=
  sum_bool ((λ c, negb (c.2 =? 16)%nat) <$> year_count t).

End Eda.

(** ** Further examples *)

Module Examples.

(** Two counties of one state that list each other, and themselves. *)
Definition mutual_edges : list (string * string) :=
  [("01001", "01001"); ("01001", "01003"); ("01003", "01001");
   ("01003", "01003")]%string.

(** A string that begins with the character [c]. *)
Definition starts_with (c : Ascii.ascii) (s : string) : Prop :=
  match s with
  | String a _ => a = c
  | EmptyString => False
  end.

(** Two overdose records of one year, with the codes as a reader of
    numbers leaves them. *)
Definition overdose_file : list Intake.overdose_record :=
  [ {| Intake.Year := 2006; Intake.FIPS := "1001";
       Intake.County := "Autauga County, AL";
       Intake.Model_based_Death_Rate := RVal.Num 3 |};
    {| Intake.Year := 2006; Intake.FIPS := "56045";
       Intake.County := "Weston County, WY";
       Intake.Model_based_Death_Rate := RVal.Num 5 |} ]%string.

(** One county with a row for each of the 16 years from 2003 on. *)
Definition one_county_16_years : list Eda.observation :=
  (λ y, {| Eda.FIPS := Some "01001"%string; Eda.Year := Some y |})
  <$> seqZ 2003 16.

(** The same table with one more row of the county, without a year. *)
Definition one_county_undated_row : list Eda.observation :=
  one_county_16_years ++
  [ {| Eda.FIPS := Some "01001"%string; Eda.Year := None |} ].

End Examples.

(** * Properties *)

(** ** Sorting *)

Module ArrangeFacts.
Import Arrange.
Section by_leb.
Context {A : Type} (leb : A -> A -> bool).

Lemma insert_by_Permutation (x : A) (l : list A) :
  insert_by leb x l ≡ₚ x :: l.
Proof.
  induction l as [|h t IH]; simpl; [done|].
  destruct (leb x h); [done|].
  rewrite IH. apply Permutation_swap.
Qed.

Lemma sort_by_Permutation (l : list A) : sort_by leb l ≡ₚ l.
Proof.
  induction l as [|h t IH]; simpl; [done|].
  rewrite insert_by_Permutation. by f_equiv.
Qed.

Lemma elem_of_sort_by (x : A) (l : list A) : x ∈ sort_by leb l <-> x ∈ l.
Proof. by rewrite sort_by_Permutation. Qed.

Hypothesis leb_total : forall x y, leb x y = false -> leb y x = true.

Lemma insert_by_Sorted (x : A) (l : list A) :
  Sorted (le leb) l -> Sorted (le leb) (insert_by leb x l).
Proof.
  induction 1 as [|h t Hs IH Hh]; simpl.
  - repeat constructor.
  - destruct (leb x h) eqn:Hx.
    + constructor; [by constructor|]. by constructor.
    + constructor; [done|].
      destruct Hh as [|y t' Hy]; simpl.
      * constructor. by apply leb_total.
      * destruct (leb x y); constructor; [by apply leb_total|done].
Qed.

Lemma sort_by_Sorted (l : list A) : Sorted (le leb) (sort_by leb l).
Proof.
  induction l as [|h t IH]; simpl; [constructor|].
  by apply insert_by_Sorted.
Qed.
End by_leb.
End ArrangeFacts.

(** ** Spatial graph *)

Module SpatialGraphFacts.
Import RVal SpatialGraph.

Lemma elem_of_county_adj (e : edge) (edges : list edge) :
  e ∈ county_adj edges <-> e ∈ edges /\ keep_edge e = true.
Proof.
  unfold county_adj. rewrite ArrangeFacts.elem_of_sort_by.
  rewrite !list_elem_of_In. apply filter_In.
Qed.

Lemma no_self_loop (a : string) (edges : list edge) :
  (a, a) ∉ county_adj edges.
Proof.
  rewrite elem_of_county_adj. intros [_ Hk]. unfold keep_edge in Hk.
  simpl in Hk. by rewrite String.eqb_refl in Hk.
Qed.

Lemma elem_of_unique_from (x : string) (seen l : list string) :
  x ∈ unique_from seen l <-> x ∈ l /\ x ∉ seen.
Proof.
  revert seen. induction l as [|h t IH]; intros seen; simpl.
  - split; [by intros ?%elem_of_nil | by intros [?%elem_of_nil _]].
  - case_bool_decide as Hh.
    + rewrite IH, elem_of_cons. split; [tauto|].
      intros [[->|Hx] Hs]; [done|tauto].
    + rewrite !elem_of_cons, IH, elem_of_cons.
      destruct (decide (x = h)) as [->|Hxh]; [tauto|]. tauto.
Qed.

Lemma NoDup_unique_from (seen l : list string) : NoDup (unique_from seen l).
Proof.
  revert seen. induction l as [|h t IH]; intros seen; simpl.
  - constructor.
  - case_bool_decide; [done|]. constructor; [|done].
    rewrite elem_of_unique_from, elem_of_cons. tauto.
Qed.

Lemma elem_of_unique (x : string) (l : list string) : x ∈ unique l <-> x ∈ l.
Proof.
  unfold unique. rewrite elem_of_unique_from.
  split; [tauto|]. intros ?; split; [done|]. by intros ?%elem_of_nil.
Qed.

Lemma NoDup_fips (edges : list edge) : NoDup (fips edges).
Proof. apply NoDup_unique_from. Qed.

Lemma elem_of_fips (a : string) (edges : list edge) :
  a ∈ fips edges <-> exists b, (a, b) ∈ county_adj edges.
Proof.
  unfold fips. rewrite elem_of_unique, list_elem_of_fmap. split.
  - intros [[a' b] [-> H]]. by exists b.
  - intros [b H]. by exists (a, b).
Qed.

Lemma match_name_Some (names : list string) (s : string) (i : nat) :
  match_name names s = Some i -> names !! i = Some s.
Proof.
  unfold match_name. destruct (list_find _ names) as [[k x]|] eqn:Hf; [|done].
  simpl. intros [= ->]. apply list_find_Some in Hf as (Hl & -> & _). done.
Qed.

Lemma match_name_lookup (names : list string) (s : string) (i : nat) :
  NoDup names -> names !! i = Some s -> match_name names s = Some i.
Proof.
  intros Hnd Hi. unfold match_name.
  destruct (list_find (λ x, x = s) names) as [[k x]|] eqn:Hf.
  - apply list_find_Some in Hf as (Hl & -> & _). simpl. f_equal.
    by eapply NoDup_lookup.
  - apply list_find_None in Hf. rewrite Forall_lookup in Hf.
    exfalso. by eapply Hf.
Qed.

Lemma subscript_Some (names : list string) (e : edge) (ij : nat * nat) :
  subscript names e = Some ij ->
  names !! ij.1 = Some e.1 /\ names !! ij.2 = Some e.2.
Proof.
  unfold subscript. intros H.
  destruct (match_name names e.1) as [i|] eqn:Hi; [|done].
  destruct (match_name names e.2) as [j|] eqn:Hj; [|done].
  simpl in H. injection H as <-. simpl.
  split; by apply match_name_Some.
Qed.

Lemma subscript_lookup (names : list string) (a b : string) (i j : nat) :
  NoDup names -> names !! i = Some a -> names !! j = Some b ->
  subscript names (a, b) = Some (i, j).
Proof.
  intros Hnd Hi Hj. unfold subscript. simpl.
  rewrite (match_name_lookup _ _ _ Hnd Hi).
  rewrite (match_name_lookup _ _ _ Hnd Hj). done.
Qed.

Lemma weight_assign (M : matrix) (a b : nat) (v : Z) (i j : nat) :
  weight (assign M (a, b) v) i j =
  if bool_decide (i = a /\ j = b) then (λ _, v) <$> weight M i j
  else weight M i j.
Proof.
  unfold weight, assign. cbn [fst snd].
  destruct (decide (i = a)) as [->|Hia].
  - rewrite list_lookup_alter_eq. destruct (M !! a) as [row|]; simpl.
    + destruct (decide (j = b)) as [->|Hjb].
      * rewrite bool_decide_eq_true_2 by done.
        destruct (row !! b) eqn:Hb; simpl.
        -- apply list_lookup_insert_eq. by eapply lookup_lt_Some.
        -- rewrite list_insert_ge; [done|]. by apply lookup_ge_None.
      * rewrite bool_decide_eq_false_2 by tauto.
        by rewrite list_lookup_insert_ne.
    + by case_bool_decide.
  - rewrite list_lookup_alter_ne by done.
    rewrite bool_decide_eq_false_2 by tauto. done.
Qed.

Lemma weight_foldl_assign (ijs : list (nat * nat)) (M : matrix) (i j : nat) :
  weight (foldl (λ M ij, assign M ij 1) M ijs) i j =
  if bool_decide ((i, j) ∈ ijs) then (λ _, 1) <$> weight M i j
  else weight M i j.
Proof.
  revert M. induction ijs as [|[a b] ijs IH]; intros M; cbn [foldl].
  - rewrite bool_decide_eq_false_2; [done|]. by intros ?%elem_of_nil.
  - rewrite IH, weight_assign.
    destruct (decide (i = a /\ j = b)) as [[-> ->]|Hne].
    + rewrite (bool_decide_eq_true_2 (a = a /\ b = b)) by done.
      rewrite (bool_decide_eq_true_2 ((a, b) ∈ (a, b) :: ijs))
        by (apply elem_of_cons; by left).
      case_bool_decide; [|done]. by destruct (weight M a b).
    + rewrite (bool_decide_eq_false_2 (i = a /\ j = b)) by done.
      assert ((i, j) ∈ (a, b) :: ijs <-> (i, j) ∈ ijs) as Hiff.
      { rewrite elem_of_cons. split; [|tauto].
        intros [[= -> ->]|?]; [tauto|done]. }
      by rewrite (bool_decide_ext _ _ Hiff).
Qed.

Lemma weight_zero_matrix (K i j : nat) :
  (i < K)%nat -> (j < K)%nat -> weight (zero_matrix K) i j = Some 0.
Proof.
  intros Hi Hj. unfold weight, zero_matrix.
  rewrite lookup_replicate_2 by done. simpl. by apply lookup_replicate_2.
Qed.

Lemma elem_of_subscripts (names : list string) (E : list edge)
    (ijs : list (nat * nat)) (i j : nat) (a b : string) :
  NoDup names ->
  Forall2 (λ e ij, subscript names e = Some ij) E ijs ->
  names !! i = Some a -> names !! j = Some b ->
  (i, j) ∈ ijs <-> (a, b) ∈ E.
Proof.
  intros Hnd HF Hi Hj. split.
  - intros [k Hk]%list_elem_of_lookup_1.
    destruct (Forall2_lookup_r _ _ _ _ _ HF Hk) as (e & He & Hs).
    apply subscript_Some in Hs as [H1 H2]. simpl in H1, H2.
    rewrite Hi in H1. rewrite Hj in H2.
    destruct e as [a' b']. simpl in H1, H2.
    injection H1 as ->. injection H2 as ->.
    by eapply list_elem_of_lookup_2.
  - intros [k Hk]%list_elem_of_lookup_1.
    destruct (Forall2_lookup_l _ _ _ _ _ HF Hk) as (ij & Hij & Hs).
    rewrite (subscript_lookup _ _ _ _ _ Hnd Hi Hj) in Hs.
    injection Hs as <-. by eapply list_elem_of_lookup_2.
Qed.

(** C7, as stated, fails: the one-way edges are neither refused nor made
    symmetric; the matrix is returned with weight 1 from "01003" to "01005"
    (positions 1 and 2, counted from 0) and weight 0 the other way. *)
Lemma one_way_edges_not_symmetric :
  exists W,
    county_adj_matrix one_way_edges = Returns W /\
    fips one_way_edges = ["01001"; "01003"; "01005"]%string /\
    weight W 1 2 = Some 1 /\ weight W 2 1 = Some 0 /\
    ~ symmetric_without_loops W (length (fips one_way_edges)).
Proof.
  eexists. split; [vm_compute; reflexivity|].
  split; [vm_compute; reflexivity|].
  split; [vm_compute; reflexivity|].
  split; [vm_compute; reflexivity|].
  intros Hs. destruct (Hs 1%nat 2%nat) as [Hw _]; [vm_compute; lia..|].
  vm_compute in Hw. discriminate.
Qed.

(** C7, amended: when the construction returns, the diagonal is zero (the
    filter drops self-loops), a weight is 1 exactly for the edges the
    filter keeps, and so two mirrored weights agree exactly when the kept
    edge list has both directions or neither; nothing checks or restores
    symmetry.  The construction stops, with "subscript out of bounds",
    exactly when a kept edge names a neighbour that is the county of no
    kept edge. *)
Theorem county_adj_matrix_weights (edges : list edge) :
  match county_adj_matrix edges with
  | Returns W =>
      (forall e, e ∈ county_adj edges -> e.2 ∈ fips edges) /\
      forall i j a b,
        fips edges !! i = Some a -> fips edges !! j = Some b ->
        weight W i i = Some 0 /\
        weight W i j =
          Some (if bool_decide ((a, b) ∈ county_adj edges) then 1 else 0) /\
        (weight W i j = weight W j i <->
         ((a, b) ∈ county_adj edges <-> (b, a) ∈ county_adj edges))
  | Stops condition =>
      condition = "subscript out of bounds"%string /\
      exists e, e ∈ county_adj edges /\ e.2 ∉ fips edges
  end.
Proof.
  unfold county_adj_matrix.
  destruct (mapM _ (county_adj edges)) as [ijs|] eqn:HmapM.
  - apply mapM_Some in HmapM. split.
    + intros e [k Hk]%list_elem_of_lookup_1.
      destruct (Forall2_lookup_l _ _ _ _ _ HmapM Hk) as (ij & _ & Hs).
      apply subscript_Some in Hs as [_ H2].
      by eapply list_elem_of_lookup_2.
    + intros i j a b Hi Hj.
      pose proof (NoDup_fips edges) as Hnd.
      pose proof (lookup_lt_Some _ _ _ Hi) as Hil.
      pose proof (lookup_lt_Some _ _ _ Hj) as Hjl.
      assert (forall i' j' a' b',
        fips edges !! i' = Some a' -> fips edges !! j' = Some b' ->
        weight (foldl (λ M ij, assign M ij 1)
                  (zero_matrix (length (fips edges))) ijs) i' j' =
        Some (if bool_decide ((a', b') ∈ county_adj edges) then 1 else 0))
        as Hw.
      { intros i' j' a' b' Hi' Hj'.
        rewrite weight_foldl_assign, weight_zero_matrix
          by (by eapply lookup_lt_Some).
        simpl.
        rewrite (bool_decide_ext _ _
          (elem_of_subscripts _ _ _ _ _ _ _ Hnd HmapM Hi' Hj')).
        by case_bool_decide. }
      split; [|split].
      * rewrite (Hw i i a a Hi Hi).
        rewrite bool_decide_eq_false_2; [done|]. apply no_self_loop.
      * by apply Hw.
      * rewrite (Hw i j a b Hi Hj), (Hw j i b a Hj Hi).
        do 2 case_bool_decide; split; first [done | tauto].
  - split; [reflexivity|].
    apply mapM_None in HmapM. apply Exists_exists in HmapM as (e & He & Hs).
    apply list_elem_of_In in He.
    exists e. split; [done|]. intros [k Hk]%list_elem_of_lookup_1.
    assert (e.1 ∈ fips edges) as [l Hl]%list_elem_of_lookup_1.
    { apply elem_of_fips. exists e.2. by destruct e. }
    destruct e as [a b]. simpl in *.
    by rewrite (subscript_lookup _ _ _ _ _ (NoDup_fips edges) Hl Hk) in Hs.
Qed.

(** The amended statement at the one-way edges: positions 1 and 2 are
    "01003" and "01005". *)
Lemma county_adj_matrix_weights_witness :
  exists W,
    county_adj_matrix one_way_edges = Returns W /\
    weight W 1 1 = Some 0 /\
    weight W 1 2 = Some 1 /\
    (weight W 1 2 = weight W 2 1 <->
     (("01003", "01005")%string ∈ county_adj one_way_edges <->
      ("01005", "01003")%string ∈ county_adj one_way_edges)).
Proof.
  pose proof (county_adj_matrix_weights one_way_edges) as H.
  destruct (county_adj_matrix one_way_edges) as [W|c] eqn:HW.
  - exists W. split; [done|].
    destruct H as [_ H].
    destruct (H 1%nat 2%nat "01003"%string "01005"%string)
      as (H1 & H2 & H3); [vm_compute; reflexivity..|].
    split; [done|]. split; [|done].
    rewrite H2. vm_compute. reflexivity.
  - vm_compute in HW. discriminate.
Defined.

End SpatialGraphFacts.

(** ** Design table *)

Module DesignFacts.
Import RVal Design.

Lemma key_eqb_eq (a b : key) : key_eqb a b = true <-> a = b.
Proof.
  destruct a as [y f], b as [y' f']. unfold key_eqb. simpl.
  rewrite andb_true_iff, Z.eqb_eq, String.eqb_eq.
  split; [by intros [-> ->] | by intros [= -> ->]].
Qed.

Section left_join.
Context {A B : Type} (ka : A -> key) (kb : B -> key).

Lemma elem_of_left_join (p : A * option B) (x : list A) (y : list B) :
  p ∈ left_join ka kb x y -> p.1 ∈ x.
Proof.
  unfold left_join. rewrite list_elem_of_bind. intros (a & Hp & Ha).
  destruct (List.filter _ y) as [|m ms].
  - apply list_elem_of_singleton in Hp as ->. done.
  - apply list_elem_of_fmap in Hp as (b & -> & _). done.
Qed.

Lemma left_join_covers (a : A) (x : list A) (y : list B) :
  a ∈ x -> exists o, (a, o) ∈ left_join ka kb x y.
Proof.
  intros Ha. unfold left_join. setoid_rewrite list_elem_of_bind.
  destruct (List.filter (λ b, key_eqb (ka a) (kb b)) y) as [|m ms] eqn:Hf.
  - exists None, a. rewrite Hf. split; [|done].
    by apply list_elem_of_singleton.
  - exists (Some m), a. rewrite Hf. split; [|done].
    apply list_elem_of_fmap. exists m. split; [done|].
    apply elem_of_cons. by left.
Qed.

Lemma matches_at_most_one (k : key) (y : list B) :
  NoDup (kb <$> y) ->
  (length (List.filter (λ b, key_eqb k (kb b)) y) <= 1)%nat.
Proof.
  induction y as [|b y IH]; simpl; [lia|].
  intros [Hb Hnd]%list.NoDup_cons. specialize (IH Hnd).
  destruct (key_eqb k (kb b)) eqn:Hk; [|done].
  apply key_eqb_eq in Hk as ->. simpl.
  destruct (List.filter _ y) as [|b' ms] eqn:Hf; [simpl; lia|].
  exfalso. apply Hb.
  assert (In b' (List.filter (λ b0, key_eqb (kb b) (kb b0)) y)) as Hin
    by (rewrite Hf; by left).
  apply filter_In in Hin as [Hin Hk%key_eqb_eq].
  rewrite Hk. apply list_elem_of_fmap. exists b'. split; [done|].
  by apply list_elem_of_In.
Qed.

Lemma left_join_one_to_one (x : list A) (y : list B) :
  NoDup (kb <$> y) -> (left_join ka kb x y).*1 = x.
Proof.
  intros Hnd. unfold left_join.
  induction x as [|a x IH]; [done|].
  rewrite bind_cons, fmap_app, IH.
  pose proof (matches_at_most_one (ka a) y Hnd) as Hlen.
  destruct (List.filter _ y) as [|m [|m' ms]]; simpl in *; [done|done|lia].
Qed.
End left_join.

Lemma elem_of_years (y : Z) : y ∈ years <-> 2006 <= y <= 2018.
Proof.
  unfold TRAINING_YEARS, VALIDATION_YEAR.
  rewrite elem_of_app, elem_of_seqZ, list_elem_of_singleton. lia.
Qed.

Lemma NoDup_years : NoDup years.
Proof.
  apply list.NoDup_app. split; [apply NoDup_seqZ|]. split.
  - intros y Hy%elem_of_seqZ Hv%list_elem_of_singleton.
    unfold VALIDATION_YEAR in Hv. lia.
  - apply NoDup_singleton.
Qed.

Lemma elem_of_expand_grid (y : Z) (f : string) (ys : list Z)
    (codes : list string) :
  (y, f) ∈ expand_grid ys codes <-> y ∈ ys /\ f ∈ codes.
Proof.
  unfold expand_grid. rewrite list_elem_of_bind. split.
  - intros (y' & (f' & [= -> ->] & Hf)%list_elem_of_fmap & Hy). done.
  - intros [Hy Hf]. exists y. split; [|done].
    apply list_elem_of_fmap. by exists f.
Qed.

Lemma NoDup_expand_grid (ys : list Z) (codes : list string) :
  NoDup ys -> NoDup codes -> NoDup (expand_grid ys codes).
Proof.
  intros Hys Hcodes. unfold expand_grid. apply NoDup_bind; [| |done].
  - intros y1 y2 [y f] _ _ (f1 & H1 & _)%list_elem_of_fmap
      (f2 & H2 & _)%list_elem_of_fmap. congruence.
  - intros y _. apply NoDup_fmap_2_strong; [|done].
    intros f1 f2 _ _ Heq. by injection Heq.
Qed.

Lemma row_key_mutate_row (j : joined) : row_key (mutate_row j) = j.1.1.1.
Proof. by destruct j as [[[[y f] od] pv] ind]. Qed.

Lemma elem_of_join_all (k : key) (codes : list string)
    (od : list overdose_row) (pv : list poverty_row)
    (ind : list industry_row) :
  (exists j, j ∈ join_all codes od pv ind /\ j.1.1.1 = k) <->
  k ∈ expand_grid years codes.
Proof.
  unfold join_all. split.
  - intros (j & Hj & <-).
    apply elem_of_left_join in Hj. apply elem_of_left_join in Hj.
    by apply elem_of_left_join in Hj.
  - intros Hk.
    destruct (left_join_covers id od_key k _ od Hk) as [o1 H1].
    destruct (left_join_covers fst pv_key _ _ pv H1) as [o2 H2].
    destruct (left_join_covers (λ r, r.1.1) in_key _ _ ind H2) as [o3 H3].
    by exists (k, o1, o2, o3).
Qed.

Lemma join_all_one_to_one (codes : list string) (od : list overdose_row)
    (pv : list poverty_row) (ind : list industry_row) :
  NoDup (od_key <$> od) -> NoDup (pv_key <$> pv) -> NoDup (in_key <$> ind) ->
  (λ j : joined, j.1.1.1) <$> join_all codes od pv ind =
  expand_grid years codes.
Proof.
  intros Hod Hpv Hind. unfold join_all.
  assert (forall l : list joined, (λ j : joined, j.1.1.1) <$> l = l.*1.*1.*1)
    as -> by (intros l; by rewrite <- !list_fmap_compose).
  rewrite (left_join_one_to_one _ in_key _ ind Hind).
  rewrite (left_join_one_to_one _ pv_key _ pv Hpv).
  by rewrite (left_join_one_to_one _ od_key _ od Hod).
Qed.

Lemma row_key_impute (l : list df_row) : row_key <$> impute l = row_key <$> l.
Proof.
  unfold impute, impute_median_income, impute_pov_percent_minors,
    impute_pov_percent_all.
  rewrite <- !list_fmap_compose. by apply list_fmap_ext.
Qed.

(** What the grouped [mutate()] leaves of a row: everything but the three
    covariates is kept, and [pov_percent_all] is filled from the mean of its
    own group. *)
Lemma elem_of_impute (r' : df_row) (l : list df_row) :
  r' ∈ impute l ->
  exists r, r ∈ l /\
    year r' = year r /\ fips r' = fips r /\ state r' = state r /\
    death_rate r' = death_rate r /\
    masked_death_rate r' = masked_death_rate r /\
    pov_percent_all r' =
      replace_na (pov_percent_all r) (mean (pov_percent_all <$> group_of l r)).
Proof.
  unfold impute, impute_median_income, impute_pov_percent_minors,
    impute_pov_percent_all.
  intros (r2 & -> & (r1 & -> & (r & -> & Hr)%list_elem_of_fmap)
    %list_elem_of_fmap)%list_elem_of_fmap.
  exists r. by repeat split.
Qed.

Lemma elem_of_combined (r : df_row) (codes : list string)
    (od : list overdose_row) (pv : list poverty_row)
    (ind : list industry_row) :
  r ∈ combined codes od pv ind ->
  row_key r ∈ expand_grid years codes /\
  state r = SpatialGraph.str_sub (fips r) 1 2 /\
  masked_death_rate r =
    (if year r =? VALIDATION_YEAR then NA else death_rate r).
Proof.
  unfold combined. intros (j & -> & Hj)%list_elem_of_fmap. split.
  - rewrite row_key_mutate_row.
    apply (elem_of_join_all _ codes od pv ind). by exists j.
  - destruct j as [[[k o1] o2] o3]. simpl. split; [done|].
    by destruct (k.1 =? VALIDATION_YEAR).
Qed.

Lemma elem_of_df (r : df_row) (codes : list string)
    (od : list overdose_row) (pv : list poverty_row)
    (ind : list industry_row) :
  r ∈ df codes od pv ind <-> r ∈ impute (combined codes od pv ind).
Proof. unfold df. apply ArrangeFacts.elem_of_sort_by. Qed.

Lemma row_leb_total (a b : df_row) : row_leb a b = false -> row_leb b a = true.
Proof.
  unfold row_leb. rewrite (Z.compare_antisym (year a) (year b)).
  destruct (year a ?= year b); simpl; [|done..].
  intros H. destruct (String.leb_total (fips a) (fips b)); congruence.
Qed.

Lemma same_group_refl (r : df_row) : same_group r r = true.
Proof. unfold same_group. by rewrite Z.eqb_refl, String.eqb_refl. Qed.

Lemma mean_all_missing (xs : list dbl) :
  (forall x, x ∈ xs -> is_na x = true) -> mean xs = NaN.
Proof.
  intros H. unfold mean. replace (na_rm xs) with (@nil Q); [done|].
  induction xs as [|x xs IH]; [done|].
  pose proof (H x ltac:(apply elem_of_cons; by left)) as Hx.
  destruct x; simpl in *; try done;
    apply IH; intros y Hy; apply H, elem_of_cons; by right.
Qed.

Lemma elem_of_add_fitted (t : list df_row) (fit : list dbl)
    (rows : list fitted_row) (r : fitted_row) :
  add_fitted t fit = Returns rows -> r ∈ rows ->
  obs r ∈ t /\ residuals r = sub (death_rate (obs r)) (fitted r).
Proof.
  unfold add_fitted. case_bool_decide.
  - intros [= <-] (r0 & f & -> & Hr0 & _)%elem_of_zip_with. done.
  - destruct fit as [|f [|]]; try done.
    intros [= <-] (r0 & -> & Hr0)%list_elem_of_fmap. done.
Qed.

(** *** C1: imputation of the three poverty covariates *)

(** C1, the code at a failing input: the first county's missing
    [pov_percent_minors] and [median_income] both become 15, the mean and
    the median of the group's [pov_percent_all] (10 and 20), although the
    group's own statistics of these two covariates are 30 and 50000. *)
Theorem minors_and_income_filled_from_pov_percent_all :
  let before := combined ["01001"; "01003"] [] poverty_two_counties [] in
  let after := df ["01001"; "01003"] [] poverty_two_counties [] in
  exists r0 r,
    before !! 0%nat = Some r0 /\ after !! 0%nat = Some r /\
    row_key r0 = (2006, "01001"%string) /\
    row_key r = (2006, "01001"%string) /\
    pov_percent_minors r0 = NA /\ median_income r0 = NA /\
    eqv (mean (pov_percent_minors <$> group_of before r0)) (Num 30) /\
    eqv (median (median_income <$> group_of before r0)) (Num 50000) /\
    eqv (pov_percent_minors r) (Num 15) /\
    eqv (median_income r) (Num 15).
Proof.
  eexists _, _. split; [vm_compute; reflexivity|].
  split; [vm_compute; reflexivity|].
  repeat split; vm_compute; reflexivity.
Qed.

(** *** C8: a covariate missing in a whole group *)

(** C8, as stated, fails: with no poverty record at all, every group has
    [pov_percent_all] missing in every row, yet the assembler returns its
    table, and the rows carry [NaN]. *)
Lemma no_poverty_record_no_error :
  let before := combined ["01001"] [] [] [] in
  (forall r0, r0 ∈ before -> is_na (pov_percent_all r0) = true) /\
  (forall c, assemble ["01001"] [] [] [] <> Stops c) /\
  exists rows r,
    assemble ["01001"] [] [] [] = Returns rows /\
    rows !! 0%nat = Some r /\ pov_percent_all r = NaN.
Proof.
  split; [|split].
  - intros r0 Hr0. apply list_elem_of_In in Hr0.
    vm_compute in Hr0. repeat destruct Hr0 as [<-|Hr0]; done.
  - done.
  - eexists _, _. split; [reflexivity|]. vm_compute. done.
Qed.

(** C8, amended: the assembler has no failing step; a row whose (year,
    state) group has [pov_percent_all] missing in every row gets [NaN], the
    mean of no value, for it. *)
Theorem missing_group_yields_NaN (codes : list string)
    (od : list overdose_row) (pv : list poverty_row)
    (ind : list industry_row) :
  assemble codes od pv ind = Returns (df codes od pv ind) /\
  forall r, r ∈ df codes od pv ind ->
    (forall r0, r0 ∈ combined codes od pv ind -> same_group r r0 = true ->
       is_na (pov_percent_all r0) = true) ->
    pov_percent_all r = NaN.
Proof.
  split; [done|]. intros r Hr Hmissing.
  apply elem_of_df, elem_of_impute in Hr
    as (r1 & Hr1 & Hy & _ & Hs & _ & _ & ->).
  assert (same_group r = same_group r1) as Hg
    by (unfold same_group; by rewrite Hy, Hs).
  rewrite Hg in Hmissing.
  unfold replace_na.
  rewrite (Hmissing r1 Hr1 (same_group_refl r1)).
  apply mean_all_missing.
  intros x (r0 & -> & Hr0)%list_elem_of_fmap.
  unfold group_of in Hr0. apply list_elem_of_In, filter_In in Hr0 as [Hr0 Hs0].
  apply Hmissing; [by apply list_elem_of_In|done].
Qed.

Lemma missing_group_yields_NaN_witness :
  exists r, df ["01001"] [] [] [] !! 0%nat = Some r /\ pov_percent_all r = NaN.
Proof.
  eexists. split; [vm_compute; reflexivity|].
  apply (missing_group_yields_NaN ["01001"] [] [] []).
  - apply (list_elem_of_lookup_2 _ 0%nat). vm_compute. reflexivity.
  - intros r0 Hr0 _. apply list_elem_of_In in Hr0.
    vm_compute in Hr0. repeat destruct Hr0 as [<-|Hr0]; done.
Defined.

(** *** C2: residuals *)

(** C2, as stated, fails: the validation-year row has its response masked
    ([masked_death_rate] is [NA]) and still gets the residual [12 - 10]. *)
Lemma held_out_row_has_residual :
  exists rows r,
    add_fitted (df ["01001"] overdose_validation_year [] []) [Num 10]
      = Returns rows /\
    rows !! 12%nat = Some r /\
    year (obs r) = VALIDATION_YEAR /\
    masked_death_rate (obs r) = NA /\
    residuals r = Num (12 - 10) /\
    ~ held_out_residuals_undefined rows.
Proof.
  eexists _, _. split; [vm_compute; reflexivity|].
  split; [vm_compute; reflexivity|].
  split; [reflexivity|]. split; [reflexivity|]. split; [reflexivity|].
  intros H.
  match goal with
  | H : held_out_residuals_undefined ?rows |- _ =>
      assert (exists r, rows !! 12%nat = Some r /\
                year (obs r) = VALIDATION_YEAR /\
                is_na (residuals r) = false) as (r & Hl & Hy & Hna)
        by (eexists; split; [reflexivity|]; split; reflexivity);
      rewrite (H r (list_elem_of_lookup_2 _ _ _ Hl) Hy) in Hna
  end.
  discriminate Hna.
Qed.

(** C2, amended: the residual of every row, held out or not, is
    [death_rate - fitted], the observed minus the fitted value whenever both
    are numbers, and missing exactly when one of the two is; the masking of
    the validation year is in [masked_death_rate] only, which the residual
    does not read. *)
Theorem residual_is_death_rate_minus_fitted (codes : list string)
    (od : list overdose_row) (pv : list poverty_row)
    (ind : list industry_row) (fit : list dbl) (rows : list fitted_row) :
  add_fitted (df codes od pv ind) fit = Returns rows ->
  forall r, r ∈ rows ->
    residuals r = sub (death_rate (obs r)) (fitted r) /\
    (forall d f, death_rate (obs r) = Num d -> fitted r = Num f ->
       residuals r = Num (d - f)) /\
    (is_na (residuals r) = true <->
     is_na (death_rate (obs r)) = true \/ is_na (fitted r) = true) /\
    masked_death_rate (obs r) =
      (if year (obs r) =? VALIDATION_YEAR then NA else death_rate (obs r)).
Proof.
  intros Hrows r Hr.
  destruct (elem_of_add_fitted _ _ _ _ Hrows Hr) as [Hobs Hres].
  split; [done|]. split; [|split].
  - intros d f Hd Hf. by rewrite Hres, Hd, Hf.
  - rewrite Hres. destruct (death_rate (obs r)), (fitted r); simpl;
      split; intros; try done; try tauto; try (by left); try (by right).
  - apply elem_of_df, elem_of_impute in Hobs
      as (r1 & Hr1 & Hy & _ & _ & Hd & Hm & _).
    apply elem_of_combined in Hr1 as (_ & _ & Hm1).
    by rewrite Hm, Hd, Hy.
Qed.

Lemma residual_is_death_rate_minus_fitted_witness :
  exists (rows : list fitted_row) r,
    add_fitted (df ["01001"] overdose_validation_year [] []) [Num 10]
      = Returns rows /\
    rows !! 12%nat = Some r /\
    residuals r = sub (death_rate (obs r)) (fitted r).
Proof.
  eexists _, _. split; [vm_compute; reflexivity|].
  split; [vm_compute; reflexivity|].
  refine (proj1 (residual_is_death_rate_minus_fitted ["01001"]
                   overdose_validation_year [] [] [Num 10] _ _ _ _)).
  - vm_compute. reflexivity.
  - apply (list_elem_of_lookup_2 _ 12%nat). vm_compute. reflexivity.
Defined.

(** *** C10: the rows of the design table *)

(** The tables have to be keyed: a key that occurs twice in a joined table
    gives two rows for that (year, entity) combination; here 14 rows for
    the 13 combinations of one county. *)
Lemma repeated_record_repeats_row :
  let t := df ["01001"] [] poverty_repeated_record [] in
  length t = 14%nat /\
  length (expand_grid years ["01001"%string]) = 13%nat /\
  exists r1 r2,
    t !! 0%nat = Some r1 /\ t !! 1%nat = Some r2 /\
    row_key r1 = (2006, "01001"%string) /\
    row_key r2 = (2006, "01001"%string).
Proof.
  split; [vm_compute; reflexivity|]. split; [vm_compute; reflexivity|].
  eexists _, _. split; [vm_compute; reflexivity|].
  split; [vm_compute; reflexivity|]. split; reflexivity.
Qed.

(** Whatever the tables hold, the keys of the design table are the keys of
    the joined grid, up to the order. *)
Lemma row_keys_df (codes : list string) (od : list overdose_row)
    (pv : list poverty_row) (ind : list industry_row) :
  row_key <$> df codes od pv ind ≡ₚ
  (λ j : joined, j.1.1.1) <$> join_all codes od pv ind.
Proof.
  unfold df. rewrite ArrangeFacts.sort_by_Permutation, row_key_impute.
  unfold combined. rewrite <- list_fmap_compose.
  erewrite list_fmap_ext; [done|]. intros ???. apply row_key_mutate_row.
Qed.

(** Whatever the tables hold, the design table has a row for a key exactly
    when the key is a combination of the grid. *)
Lemma design_keys (codes : list string) (od : list overdose_row)
    (pv : list poverty_row) (ind : list industry_row) (y : Z) (f : string) :
  (exists r, r ∈ df codes od pv ind /\ year r = y /\ fips r = f) <->
  (y, f) ∈ expand_grid years codes.
Proof.
  pose proof (row_keys_df codes od pv ind) as Hperm.
  rewrite <- (elem_of_join_all _ codes od pv ind). split.
  - intros (r & Hr & <- & <-).
    assert (row_key r ∈ row_key <$> df codes od pv ind) as Hk
      by (apply list_elem_of_fmap; by exists r).
    rewrite Hperm in Hk. apply list_elem_of_fmap in Hk as (j & Hk & Hj).
    by exists j.
  - intros (j & Hj & Hk).
    assert ((y, f) ∈ row_key <$> df codes od pv ind) as Hin.
    { rewrite Hperm. apply list_elem_of_fmap. by exists j. }
    apply list_elem_of_fmap in Hin as (r & [= -> ->] & Hr). by exists r.
Qed.

(** C10: the design table has a row for every combination of a year of
    2006..2018 (the training years and the validation year) with an entity
    of the index derived from the adjacency list, and for no other key; it
    is sorted by (year, entity); the test year 2019 is in no design row and
    in no row that carries a fitted value or a residual.  A combination has
    exactly one row when the overdose, poverty and industry tables are
    keyed by (year, fips), no key twice: then the keys of the table are
    the grid, each once. *)
Theorem design_rows (edges : list (string * string))
    (od : list overdose_row) (pv : list poverty_row)
    (ind : list industry_row) :
  let codes := SpatialGraph.fips edges in
  let t := df codes od pv ind in
  (forall y f, (exists r, r ∈ t /\ year r = y /\ fips r = f) <->
               2006 <= y <= 2018 /\ f ∈ codes) /\
  Sorted (Arrange.le row_leb) t /\
  (forall r, r ∈ t -> year r <> TEST_YEAR) /\
  (forall fit rows, add_fitted t fit = Returns rows ->
     forall r, r ∈ rows -> year (obs r) <> TEST_YEAR) /\
  (NoDup (od_key <$> od) -> NoDup (pv_key <$> pv) ->
   NoDup (in_key <$> ind) ->
   row_key <$> t ≡ₚ expand_grid years codes /\
   NoDup (row_key <$> t) /\
   length t = (13 * length codes)%nat).
Proof.
  intros codes t.
  pose proof (row_keys_df codes od pv ind) as Hperm.
  assert (forall r, r ∈ t -> year r <> TEST_YEAR) as Hyear.
  { intros r Hr.
    assert ((year r, fips r) ∈ expand_grid years codes) as Hin
      by (apply (design_keys codes od pv ind); by exists r).
    apply elem_of_expand_grid in Hin as [Hy%elem_of_years _].
    unfold TEST_YEAR. lia. }
  split; [|split; [|split; [|split]]].
  - intros y f. unfold t.
    rewrite design_keys, elem_of_expand_grid, elem_of_years. done.
  - apply ArrangeFacts.sort_by_Sorted, row_leb_total.
  - done.
  - intros fit rows Hrows r Hr. apply Hyear.
    by destruct (elem_of_add_fitted _ _ _ _ Hrows Hr).
  - intros Hod Hpv Hind.
    rewrite (join_all_one_to_one codes od pv ind Hod Hpv Hind) in Hperm.
    split; [done|]. split.
    + unfold t. rewrite Hperm.
      apply NoDup_expand_grid; [apply NoDup_years|].
      apply SpatialGraphFacts.NoDup_fips.
    + rewrite <- (length_fmap row_key). unfold t.
      rewrite (Permutation_length Hperm).
      assert (forall ys, length (expand_grid ys codes) =
                         (length ys * length codes)%nat) as Hlen.
      { intros ys. unfold expand_grid. induction ys as [|y ys IH]; [done|].
        rewrite bind_cons, length_app, length_fmap, IH. simpl. lia. }
      rewrite Hlen. reflexivity.
Qed.

Lemma design_rows_witness :
  let t := df (SpatialGraph.fips SpatialGraph.one_way_edges) []
             poverty_two_counties [] in
  length t = 39%nat /\ NoDup (row_key <$> t).
Proof.
  destruct (proj2 (proj2 (proj2 (proj2
              (design_rows SpatialGraph.one_way_edges []
                 poverty_two_counties [])))))
    as (_ & Hnd & Hlen).
  - constructor.
  - apply (bool_decide_unpack _). vm_compute. exact I.
  - constructor.
  - split; [exact Hlen | exact Hnd].
Defined.

End DesignFacts.

(** ** Model formulas *)

Module ModelFacts.
Import RVal Model.
Local Open Scope Q_scope.






Lemma inject_Z_nat_pos (n : nat) : (0 < n)%nat -> 0 < inject_Z (Z.of_nat n).
Proof. intros Hn. change 0 with (inject_Z 0). rewrite <- Zlt_Qlt. lia. Qed.



Lemma Qsum_t_star (N : nat) (l : list Z) :
  Qsum (t_star N <$> l) ==
  (Qsum (inject_Z <$> l) - inject_Z (Z.of_nat (length l)) * t_bar N)
  / inject_Z (Z.of_nat N).
Proof.
  induction l as [|x l IH].
  - simpl. unfold Qdiv. ring.
  - cbn [fmap list_fmap Qsum foldr length]. fold (Qsum (t_star N <$> l)).
    fold (Qsum (inject_Z <$> l)). rewrite IH.
    rewrite Nat2Z.inj_succ. unfold Z.succ. rewrite inject_Z_plus.
    unfold t_star, Qdiv. change (inject_Z 1) with 1. ring.
Qed.

Lemma isolated_row_zero (W : SpatialGraph.matrix) (k : nat) (w : Z) :
  degree W k = 0%nat -> w ∈ w_row W k -> w = 0%Z.
Proof.
  unfold degree, neighbors. rewrite length_fmap.
  intros Hnil%nil_length_inv [j Hj]%list_elem_of_lookup_1.
  destruct (decide (w = 0%Z)) as [|Hw]; [done|]. exfalso.
  eapply (filter_nil_not_elem_of _ _ (j, w) Hnil); [done|].
  apply elem_of_lookup_imap. by exists j, w.
Qed.

Lemma Qsum_zero_row (row : list Z) :
  (forall w, w ∈ row -> w = 0%Z) -> Qsum (inject_Z <$> row) == 0.
Proof.
  induction row as [|w row IH]; intros H; simpl; [reflexivity|].
  rewrite (H w) by (apply elem_of_cons; by left).
  rewrite IH by (intros v Hv; apply H, elem_of_cons; by right).
  reflexivity.
Qed.

Lemma Qsum_zero_row_x (row : list Z) (x : list Q) :
  (forall w, w ∈ row -> w = 0%Z) ->
  Qsum (zip_with (λ w xj, inject_Z w * xj) row x) == 0.
Proof.
  revert x. induction row as [|w row IH]; intros x H; [reflexivity|].
  destruct x as [|xj x]; [reflexivity|]. simpl.
  rewrite (H w) by (apply elem_of_cons; by left).
  rewrite IH by (intros v Hv; apply H, elem_of_cons; by right).
  ring.
Qed.

Lemma quotient_defined (a b : Q) :
  0 < b -> quotient a b = Some (a / b).
Proof.
  intros Hb. unfold quotient.
  destruct (Qeq_bool b 0) eqn:Hz; [|done].
  apply Qeq_bool_iff in Hz. rewrite Hz in Hb. by apply Qlt_irrefl in Hb.
Qed.

(** The conditional distribution of one effect with no neighbour. *)
Lemma isolated_car (W : SpatialGraph.matrix) (x : list Q) (rho tau2 : Q)
    (k : nat) :
  degree W k = 0%nat -> 0 <= rho -> rho < 1 ->
  (car_denominator rho W k == 1 - rho /\ 0 < car_denominator rho W k) /\
  (exists m, car_mean rho W x k = Some m /\ m == 0) /\
  (exists v, car_variance tau2 rho W k = Some v /\ v == tau2 / (1 - rho)).
Proof.
  intros Hdeg H0 H1.
  pose proof (Qsum_zero_row (w_row W k)
                (λ w, isolated_row_zero W k w Hdeg)) as Hw.
  pose proof (Qsum_zero_row_x (w_row W k) x
                (λ w, isolated_row_zero W k w Hdeg)) as Hwx.
  assert (car_denominator rho W k == 1 - rho) as Hden.
  { unfold car_denominator, sum_w. rewrite Hw. ring. }
  assert (0 < car_denominator rho W k) as Hpos by (rewrite Hden; lra).
  split; [done|]. split.
  - exists (rho * sum_w_x W k x / car_denominator rho W k). split.
    + unfold car_mean. by apply quotient_defined.
    + unfold sum_w_x. rewrite Hwx. unfold Qdiv. ring.
  - exists (tau2 / car_denominator rho W k). split.
    + unfold car_variance. by apply quotient_defined.
    + by rewrite Hden.
Qed.

(** C5: for an entity [k] without neighbours and a smoothness parameter in
    [0,1), the denominator [rho * sum_j w_kj + 1 - rho] of the full
    conditional of [phi_k], and of [delta_k], is [1 - rho > 0], so that the
    quotients are defined (nothing is divided by zero), and the conditional
    mean is 0. *)
Theorem isolated_entity_conditional (W : SpatialGraph.matrix)
    (phi delta : list Q) (rho_int rho_slo tau2_int tau2_slo : Q) (k : nat) :
  degree W k = 0%nat ->
  0 <= rho_int -> rho_int < 1 -> 0 <= rho_slo -> rho_slo < 1 ->
  (car_denominator rho_int W k == 1 - rho_int /\
   0 < car_denominator rho_int W k /\
   exists m v, phi_conditional rho_int tau2_int W phi k = (Some m, Some v) /\
               m == 0) /\
  (car_denominator rho_slo W k == 1 - rho_slo /\
   0 < car_denominator rho_slo W k /\
   exists m v, delta_conditional rho_slo tau2_slo W delta k
                 = (Some m, Some v) /\
               m == 0).
Proof.
  intros Hdeg Hi0 Hi1 Hs0 Hs1. split.
  - destruct (isolated_car W phi rho_int tau2_int k Hdeg Hi0 Hi1)
      as ([Hden Hpos] & (m & Hm & Hm0) & (v & Hv & _)).
    split; [done|]. split; [done|]. exists m, v.
    unfold phi_conditional. by rewrite Hm, Hv.
  - destruct (isolated_car W delta rho_slo tau2_slo k Hdeg Hs0 Hs1)
      as ([Hden Hpos] & (m & Hm & Hm0) & (v & Hv & _)).
    split; [done|]. split; [done|]. exists m, v.
    unfold delta_conditional. by rewrite Hm, Hv.
Qed.

(** Three entities, the third without neighbours. *)
Lemma isolated_entity_conditional_witness :
  let W := [[0; 1; 0]; [1; 0; 0]; [0; 0; 0]]%Z in
  degree W 2 = 0%nat /\
  0 < car_denominator (1 # 2) W 2 /\
  exists m v, phi_conditional (1 # 2) 3 W [1; 2; 3] 2 = (Some m, Some v) /\
              m == 0.
Proof.
  intros W.
  destruct (isolated_entity_conditional W [1; 2; 3] [1; 2; 3]
              (1 # 2) (1 # 2) 3 3 2) as ((_ & Hpos & Hm) & _).
  - vm_compute. reflexivity.
  - lra.
  - lra.
  - lra.
  - lra.
  - split; [vm_compute; reflexivity|]. split; [exact Hpos | exact Hm].
Defined.




End ModelFacts.

(** ** Sampler engine *)

Module SamplerFacts.
Import RVal Sampler.
Local Open Scope Q_scope.


Section Engine.
Context {rng : Type} (K : Kernels rng).





(** A sweep fails with a [NumericalError] only. *)
Lemma sweep_error (tuning : bool) (e : Engine rng) (err : error) :
  sweep K tuning e = inl err -> exists name, err = NumericalError name.
Proof.
  assert (forall name (d : Q * rng) err',
            checked_variance name d = inl err' ->
            err' = NumericalError name) as Hcv.
  { intros name d err'. unfold checked_variance.
    destruct (Qle_bool d.1 0); [|done]. by intros [= <-]. }
  unfold sweep.
  destruct (draw_beta K _ _) as [b g1].
  destruct (draw_phi K _ _) as [p g2].
  destruct (draw_delta K _ _) as [d g3].
  destruct (draw_alpha K _ _) as [a g4].
  destruct (checked_variance "tau2_int" _) as [e1|[ti g5]] eqn:Hti.
  { intros [= <-]. eauto. }
  destruct (checked_variance "tau2_slo" _) as [e2|[ts g6]] eqn:Hts.
  { intros [= <-]. eauto. }
  destruct (metropolis_rho K false _ _ _ _) as [[ri oki] g7].
  destruct (metropolis_rho K true _ _ _ _) as [[rs oks] g8].
  destruct (checked_variance "nu2" _) as [e3|[n2 g9]] eqn:Hn2; [|done].
  intros [= <-]. eauto.
Qed.

End Engine.

Section Schedule.
Context (c : Config).
Hypothesis burn_in_nonneg : (0 <= burn_in c)%Z.
Hypothesis thin_pos : (0 < thin c)%Z.
Local Open Scope Z_scope.

Lemma retained_burn_in (k : nat) :
  Z.of_nat k <= burn_in c ->
  List.filter (retained c) (seqZ 1 (Z.of_nat k)) = [].
Proof.
  induction k as [|k IH]; intros Hk; [done|].
  rewrite seqZ_S, List.filter_app, IH by lia. simpl.
  unfold retained. replace (burn_in c <? 1 + Z.of_nat k) with false; [done|].
  symmetry. apply Z.ltb_ge. lia.
Qed.

Lemma div_after_multiple (m : Z) :
  0 <= m -> (m + 1) mod thin c = 0 -> (m + 1) / thin c = m / thin c + 1.
Proof.
  intros Hm Hmod.
  pose proof (Z.div_mod (m + 1) (thin c) ltac:(lia)) as Hdm.
  rewrite Hmod in Hdm.
  assert ((m + 1) / thin c - 1 = m / thin c) as <-; [|lia].
  apply (Z.div_unique m (thin c) _ (thin c - 1)); lia.
Qed.

Lemma div_after_other (m : Z) :
  0 <= m -> (m + 1) mod thin c <> 0 -> (m + 1) / thin c = m / thin c.
Proof.
  intros Hm Hmod.
  pose proof (Z.div_mod (m + 1) (thin c) ltac:(lia)) as Hdm.
  pose proof (Z.mod_pos_bound (m + 1) (thin c) thin_pos) as Hb.
  apply (Z.div_unique m (thin c) _ ((m + 1) mod thin c - 1)); lia.
Qed.

(** The retained iterations among [1..burn_in + m] are
    [burn_in + thin, burn_in + 2 thin, ...]. *)
Lemma retained_iterations (m : nat) :
  List.filter (retained c) (seqZ 1 (burn_in c + Z.of_nat m)) =
  (λ j, burn_in c + thin c * j) <$> seqZ 1 (Z.of_nat m / thin c).
Proof.
  induction m as [|m IH].
  - rewrite Z.add_0_r, Zdiv_0_l. simpl.
    rewrite <- (Z2Nat.id (burn_in c)) by done.
    apply retained_burn_in. lia.
  - replace (burn_in c + Z.of_nat (S m))
      with (Z.of_nat (S (Z.to_nat (burn_in c) + m))) by lia.
    rewrite seqZ_S, List.filter_app.
    replace (Z.of_nat (Z.to_nat (burn_in c) + m))
      with (burn_in c + Z.of_nat m) by lia.
    rewrite IH. simpl. unfold retained at 1.
    replace (burn_in c <? 1 + (burn_in c + Z.of_nat m)) with true
      by (symmetry; apply Z.ltb_lt; lia).
    replace (1 + (burn_in c + Z.of_nat m) - burn_in c)
      with (Z.of_nat m + 1) by lia.
    replace (Z.of_nat (S m)) with (Z.of_nat m + 1) by lia. simpl.
    destruct (Z.eqb_spec ((Z.of_nat m + 1) mod thin c) 0) as [Hmod|Hmod].
    + rewrite (div_after_multiple (Z.of_nat m) ltac:(lia) Hmod).
      pose proof (Z.div_pos (Z.of_nat m) (thin c) ltac:(lia) thin_pos).
      replace (Z.of_nat m / thin c + 1)
        with (Z.of_nat (S (Z.to_nat (Z.of_nat m / thin c)))) at 1 by lia.
      rewrite seqZ_S, fmap_app. rewrite Z2Nat.id by done. simpl.
      do 2 f_equal.
      pose proof (Z.div_mod (Z.of_nat m + 1) (thin c) ltac:(lia)) as Hdm.
      rewrite Hmod, (div_after_multiple (Z.of_nat m) ltac:(lia) Hmod) in Hdm.
      lia.
    + rewrite (div_after_other (Z.of_nat m) ltac:(lia) Hmod).
      by rewrite app_nil_r.
Qed.
End Schedule.

Section Run.
Context {rng : Type} (K : Kernels rng).
Local Open Scope Z_scope.

(** The iterations a run has executed, and the samples it has stored:
    the retained ones among the executed iterations, in order. *)
Lemma iterate_schedule (c : Config) (todo : nat) (past : Z)
    (e : Engine rng) (chain : list (Z * ParameterState)) :
  let r := iterate K c todo past e chain in
  past <= iterations r <= past + Z.of_nat todo /\
  (failure r = None -> iterations r = past + Z.of_nat todo) /\
  (samples r).*1 =
    chain.*1 ++
    List.filter (retained c) (seqZ (past + 1) (iterations r - past)).
Proof.
  revert past e chain. induction todo as [|todo IH]; intros past e chain.
  - simpl. rewrite Z.sub_diag. simpl. rewrite app_nil_r.
    split; [lia|]. split; [intros _; lia | done].
  - cbn [iterate].
    destruct (sweep K _ e) as [err|e'] eqn:Hsweep; cbn zeta.
    + simpl. rewrite Z.sub_diag. simpl. rewrite app_nil_r.
      split; [lia|]. split; [done|done].
    + specialize (IH (past + 1) e'
        (if retained c (past + 1) then chain ++ [(past + 1, state e')]
         else chain)).
      cbn zeta in IH. destruct IH as (Hit & Hok & Hs).
      split; [lia|]. split; [intros Hf; rewrite (Hok Hf); lia|].
      rewrite Hs.
      rewrite (seqZ_cons (past + 1)) by lia. simpl.
      replace (Z.succ (past + 1)) with (past + 1 + 1) by lia.
      replace (Z.pred (iterations _ - past))
        with (iterations (iterate K c todo (past + 1) e'
                (if retained c (past + 1)
                 then chain ++ [(past + 1, state e')] else chain))
              - (past + 1)) by lia.
      destruct (retained c (past + 1)).
      * rewrite fmap_app. simpl. by rewrite <- app_assoc.
      * done.
Qed.

Lemma iterate_error (c : Config) (todo : nat) (past : Z)
    (e : Engine rng) (chain : list (Z * ParameterState)) (err : error) :
  failure (iterate K c todo past e chain) = Some err ->
  exists name, err = NumericalError name.
Proof.
  revert past e chain. induction todo as [|todo IH]; intros past e chain;
    [done|].
  cbn [iterate]. destruct (sweep K _ e) as [err'|e'] eqn:Hsweep.
  - intros [= <-]. by eapply sweep_error.
  - apply IH.
Qed.
End Run.




(** C3: a configuration that violates [burn_in >= 0], [n_sample > 0] or
    [n_sample % thin == 0] (in particular one whose [thin] does not divide
    [n_sample]) ends the run with [ConfigurationError] after zero
    iterations and with no sample, and a [ConfigurationError] comes with
    zero iterations only; a run of a valid configuration that is not
    aborted executes [N_total = burn_in + n_sample] iterations and retains
    the iterations [burn_in + thin, burn_in + 2 thin, ...] and no iteration
    of [1..burn_in]: [n_sample / thin] samples. *)
Theorem run_schedule {rng : Type} (K : Kernels rng) (c : Config) (sd0 : Q) :
  ((n_sample c mod thin c)%Z <> 0%Z -> valid_config c = false) /\
  (valid_config c = false ->
   run K c sd0 = {| failure := Some ConfigurationError;
                    iterations := 0; samples := [] |}) /\
  (failure (run K c sd0) = Some ConfigurationError ->
   iterations (run K c sd0) = 0%Z /\ samples (run K c sd0) = []) /\
  (valid_config c = true -> failure (run K c sd0) = None ->
   iterations (run K c sd0) = (burn_in c + n_sample c)%Z /\
   (samples (run K c sd0)).*1 =
     (λ j, burn_in c + thin c * j)%Z <$> seqZ 1 (n_sample c / thin c) /\
   length (samples (run K c sd0)) = Z.to_nat (n_sample c / thin c)).
Proof.
  split; [|split; [|split]].
  - intros Hmod. unfold valid_config.
    apply andb_false_iff. right. by apply Z.eqb_neq.
  - intros Hc. unfold run. by rewrite Hc.
  - unfold run. destruct (valid_config c); [|done].
    destruct (initial_state K _) as [s0 g0].
    intros Hf. apply iterate_error in Hf as [name Hname]. discriminate.
  - intros Hc Hok. unfold run in *. rewrite Hc in *.
    destruct (initial_state K _) as [s0 g0].
    unfold valid_config in Hc.
    apply andb_true_iff in Hc as [Hc _].
    apply andb_true_iff in Hc as [Hc Hthin%Z.ltb_lt].
    apply andb_true_iff in Hc as [Hburn%Z.leb_le Hn%Z.ltb_lt].
    match goal with
    | |- context [iterate K c ?todo 0%Z ?e []] =>
        destruct (iterate_schedule K c todo 0%Z e []) as (_ & Hit & Hs)
    end.
    specialize (Hit Hok). rewrite Z2Nat.id in Hit by lia.
    rewrite Hit, Z.sub_0_r, !Z.add_0_l in Hs. cbn [fmap list_fmap app] in Hs.
    replace (seqZ 1 (burn_in c + n_sample c))
      with (seqZ 1 (burn_in c + Z.of_nat (Z.to_nat (n_sample c)))) in Hs
      by (f_equal; lia).
    rewrite (retained_iterations c Hburn Hthin) in Hs.
    rewrite Z2Nat.id in Hs by lia. rewrite Z.add_0_l in Hit.
    split; [done|]. split; [done|].
    rewrite <- (length_fmap fst), Hs, length_fmap. apply length_seqZ.
Qed.

(** Two discarded iterations, then six of which every third is kept; and
    a thinning interval that does not divide [n_sample]. *)
Lemma run_schedule_witness :
  let c := {| burn_in := 2; n_sample := 6; thin := 3; seed := 0 |} in
  let c' := {| burn_in := 2; n_sample := 6; thin := 4; seed := 0 |} in
  (iterations (run counter_kernels c 1) = 8%Z /\
   (samples (run counter_kernels c 1)).*1 = [5; 8]%Z) /\
  failure (run counter_kernels c' 1) = Some ConfigurationError /\
  valid_config (notebook_config 0) = true.
Proof.
  intros c c'.
  destruct (run_schedule counter_kernels c 1) as (_ & _ & _ & Hrun).
  destruct (run_schedule counter_kernels c' 1) as (Hthin & Hbad & _).
  split; [|split].
  - destruct Hrun as (Hit & Hs & _);
      [vm_compute; reflexivity | vm_compute; reflexivity |].
    split; [exact Hit | exact Hs].
  - rewrite Hbad; [reflexivity|]. apply Hthin. vm_compute. discriminate.
  - reflexivity.
Defined.

End SamplerFacts.

(** ** More on the spatial graph *)

Module SpatialGraphMore.
Import RVal SpatialGraph StringOrder SpatialGraphFacts.

Lemma str_lt_trans (a b c : string) : str_lt a b -> str_lt b c -> str_lt a c.
Proof.
  unfold str_lt. intros H1 H2.
  apply String_as_OT.cmp_lt. apply String_as_OT.cmp_lt in H1, H2.
  by eapply String_as_OT.lt_trans.
Qed.

Lemma str_le_lt_eq (a b : string) : str_le a b <-> str_lt a b \/ a = b.
Proof.
  unfold str_le, str_lt, String.leb.
  destruct (String.compare a b) eqn:Hc.
  - apply String.compare_eq_iff in Hc. split; [by right|done].
  - split; [by left|done].
  - split; [done|]. intros [Hlt | ->]; [done|].
    assert (String.compare b b = Eq) as Hbb
      by (by apply String_as_OT.cmp_eq).
    congruence.
Qed.

Lemma str_le_trans (a b c : string) : str_le a b -> str_le b c -> str_le a c.
Proof.
  rewrite !str_le_lt_eq. intros [H1 | ->] [H2 | ->]; eauto using str_lt_trans.
Qed.

Lemma edge_leb_total (a b : string * string) :
  edge_leb a b = false -> edge_leb b a = true.
Proof.
  unfold edge_leb. rewrite (String.compare_antisym a.1 b.1).
  destruct (String.compare b.1 a.1); simpl; [|done..].
  intros H. destruct (String.leb_total a.2 b.2); congruence.
Qed.

Lemma edge_leb_fst (a b : string * string) :
  edge_leb a b = true -> str_le a.1 b.1.
Proof.
  unfold edge_leb, str_le, String.leb.
  by destruct (String.compare a.1 b.1).
Qed.

Lemma unique_from_sorted (seen l : list string) :
  StronglySorted str_le l -> StronglySorted str_lt (unique_from seen l).
Proof.
  revert seen. induction l as [|x l IH]; intros seen Hs; simpl.
  - constructor.
  - apply StronglySorted_cons in Hs as [Hx Hs].
    case_bool_decide; [by apply IH|].
    constructor; [by apply IH|].
    apply list.Forall_forall. intros y [Hy Hny]%elem_of_unique_from.
    rewrite list.Forall_forall in Hx.
    destruct (proj1 (str_le_lt_eq x y) (Hx y Hy)) as [Hlt | ->]; [done|].
    exfalso. apply Hny, elem_of_cons. by left.
Qed.

Lemma elem_of_county_adj_iff (edges : list (string * string)) (a b : string) :
  (a, b) ∈ county_adj edges <->
  (a, b) ∈ edges /\ a <> b /\ str_sub a 1 2 ∉ TERRITORY_FIPS.
Proof.
  rewrite elem_of_county_adj. unfold keep_edge. simpl.
  rewrite andb_true_iff, !negb_true_iff, String.eqb_neq,
    bool_decide_eq_false.
  split; intros (? & ? & ?); split_and!; try done; congruence.
Qed.

Lemma fips_strictly_sorted (edges : list (string * string)) :
  StronglySorted str_lt (fips edges).
Proof.
  unfold fips, unique. apply unique_from_sorted.
  apply Sorted_StronglySorted; [intros a b c; apply str_le_trans|].
  eapply Sorted_fmap; [|apply ArrangeFacts.sort_by_Sorted, edge_leb_total].
  intros x y. apply edge_leb_fst.
Qed.

(** X1: the kept edge list [county_adj] is sorted by county and then by
    neighbour, has no row with a county equal to its neighbour, and no row
    whose county is in a territory; it keeps every other row of the input,
    and nothing else. *)
Theorem county_adj_sorted_filtered (edges : list (string * string)) :
  Sorted (Arrange.le edge_leb) (county_adj edges) /\
  county_adj edges ≡ₚ List.filter keep_edge edges /\
  forall a b, (a, b) ∈ county_adj edges <->
    (a, b) ∈ edges /\ a <> b /\ str_sub a 1 2 ∉ TERRITORY_FIPS.
Proof.
  split; [|split].
  - apply ArrangeFacts.sort_by_Sorted, edge_leb_total.
  - apply ArrangeFacts.sort_by_Permutation.
  - intros a b. apply elem_of_county_adj_iff.
Qed.

(** X2: the entity index [fips] lists each county once, in strictly
    increasing order; a county is in it exactly when it is outside the
    territories and the edge list gives it a neighbour other than itself, so
    a county that is listed with itself only is not an entity. *)
Theorem fips_sorted_index (edges : list (string * string)) :
  StronglySorted str_lt (fips edges) /\
  NoDup (fips edges) /\
  (forall a, a ∈ fips edges <->
     (str_sub a 1 2 ∉ TERRITORY_FIPS) /\ (exists b, (a, b) ∈ edges /\ a <> b)) /\
  (forall a, (forall b, (a, b) ∈ edges -> b = a) -> a ∉ fips edges).
Proof.
  assert (forall a, a ∈ fips edges <->
     (str_sub a 1 2 ∉ TERRITORY_FIPS) /\ (exists b, (a, b) ∈ edges /\ a <> b))
    as Hin.
  { intros a. rewrite elem_of_fips. split.
    - intros [b Hb]. apply elem_of_county_adj_iff in Hb as (? & ? & ?). eauto.
    - intros [Ht (b & Hb & Hab)]. exists b. by apply elem_of_county_adj_iff. }
  split; [|split; [|split]].
  - apply fips_strictly_sorted.
  - apply NoDup_fips.
  - done.
  - intros a Hself [_ (b & Hb & Hab)]%Hin. by rewrite (Hself b Hb) in Hab.
Qed.

Lemma fips_sorted_index_witness :
  "01001"%string ∉ fips [("01001", "01001")]%string.
Proof.
  refine (proj2 (proj2 (proj2 (fips_sorted_index
                                 [("01001", "01001")]%string)))
            "01001"%string _).
  intros b Hb%list_elem_of_singleton. by injection Hb.
Defined.

(** The shape of an adjacency matrix over [K] entities: [K] rows of [K]
    entries, each 0 or 1. *)
Lemma binary_rows_assign (K : nat) (M : list (list Z)) (ij : nat * nat) :
  length M = K /\
  Forall (λ row, length row = K /\ Forall (λ w, w = 0 \/ w = 1) row) M ->
  length (assign M ij 1) = K /\
  Forall (λ row, length row = K /\ Forall (λ w, w = 0 \/ w = 1) row)
    (assign M ij 1).
Proof.
  intros [Hlen Hrows]. unfold assign. rewrite length_alter. split; [done|].
  apply Forall_alter; [done|]. intros row _ [Hr Hw].
  rewrite length_insert. split; [done|]. apply Forall_insert; [done|].
  by right.
Qed.

Lemma returned_matrix (edges : list (string * string)) (W : list (list Z)) :
  county_adj_matrix edges = Returns W ->
  exists ijs,
    Forall2 (λ e ij, subscript (fips edges) e = Some ij) (county_adj edges) ijs
    /\ W = foldl (λ M ij, assign M ij 1)
              (zero_matrix (length (fips edges))) ijs.
Proof.
  unfold county_adj_matrix.
  destruct (mapM _ (county_adj edges)) as [ijs|] eqn:HmapM; [|done].
  intros [= <-]. exists ijs. split; [|done]. by apply mapM_Some.
Qed.

Lemma returned_weight (edges : list (string * string)) (W : list (list Z))
    (i j : nat) (a b : string) :
  county_adj_matrix edges = Returns W ->
  fips edges !! i = Some a -> fips edges !! j = Some b ->
  weight W i j = Some (if bool_decide ((a, b) ∈ county_adj edges) then 1 else 0).
Proof.
  intros (ijs & HF & ->)%returned_matrix Hi Hj.
  rewrite weight_foldl_assign, weight_zero_matrix
    by (by eapply lookup_lt_Some).
  simpl.
  rewrite (bool_decide_ext _ _
    (elem_of_subscripts _ _ _ _ _ _ _ (NoDup_fips edges) HF Hi Hj)).
  by case_bool_decide.
Qed.

Lemma county_adj_matrix_returns (edges : list (string * string)) :
  (forall e, e ∈ county_adj edges -> e.2 ∈ fips edges) ->
  exists W, county_adj_matrix edges = Returns W.
Proof.
  intros Hclosed. unfold county_adj_matrix.
  destruct (mapM _ (county_adj edges)) as [ijs|] eqn:HmapM; [by eexists|].
  exfalso. apply mapM_None, list.Exists_exists in HmapM as (e & He & Hs).
  assert (e.1 ∈ fips edges) as [i Hi]%list_elem_of_lookup_1.
  { apply elem_of_fips. exists e.2. by destruct e. }
  pose proof (Hclosed e He) as [j Hj]%list_elem_of_lookup_1.
  destruct e as [a b]. simpl in *.
  by rewrite (subscript_lookup _ _ _ _ _ (NoDup_fips edges) Hi Hj) in Hs.
Qed.

Lemma returned_shape (edges : list (string * string)) (W : list (list Z)) :
  county_adj_matrix edges = Returns W ->
  length W = length (fips edges) /\
  Forall (λ row, length row = length (fips edges) /\
                 Forall (λ w, w = 0 \/ w = 1) row) W.
Proof.
  intros (ijs & _ & ->)%returned_matrix.
  generalize (length (fips edges)) as K. intros K.
  assert (length (zero_matrix K) = K /\
          Forall (λ row, length row = K /\ Forall (λ w, w = 0 \/ w = 1) row)
            (zero_matrix K)) as H0.
  { unfold zero_matrix. rewrite length_replicate. split; [done|].
    apply Forall_replicate. rewrite length_replicate. split; [done|].
    apply Forall_replicate. by left. }
  revert H0. generalize (zero_matrix K) as M.
  induction ijs as [|ij ijs IH]; intros M HM; simpl; [done|].
  by apply IH, binary_rows_assign.
Qed.

(** X3: a constructed [county_adj_matrix] is square over the entity index,
    [K] rows of [K] entries for [K = length(fips)], every entry is 0 or 1,
    and an entry is 1 only between two different entities. *)
Theorem county_adj_matrix_binary (edges : list (string * string))
    (W : list (list Z)) :
  county_adj_matrix edges = Returns W ->
  length W = length (fips edges) /\
  (forall row, row ∈ W -> length row = length (fips edges)) /\
  (forall i j, (i < length (fips edges))%nat -> (j < length (fips edges))%nat ->
     weight W i j = Some 0 \/ (weight W i j = Some 1 /\ i <> j)).
Proof.
  intros HW. destruct (returned_shape edges W HW) as [Hlen Hrows].
  split; [done|]. split.
  - intros row Hrow. rewrite list.Forall_forall in Hrows.
    by destruct (Hrows row Hrow).
  - intros i j Hi Hj.
    destruct (lookup_lt_is_Some_2 _ _ Hi) as [a Ha].
    destruct (lookup_lt_is_Some_2 _ _ Hj) as [b Hb].
    rewrite (returned_weight edges W i j a b HW Ha Hb).
    case_bool_decide as Hab; [right|by left]. split; [done|].
    intros ->. rewrite Ha in Hb. injection Hb as ->.
    by apply no_self_loop in Hab.
Qed.

Lemma county_adj_matrix_binary_witness :
  exists W, county_adj_matrix Examples.mutual_edges = Returns W /\
            length W = 2%nat.
Proof.
  eexists. split; [vm_compute; reflexivity|].
  refine (proj1 (county_adj_matrix_binary Examples.mutual_edges _ _)).
  vm_compute. reflexivity.
Defined.

(** X4: when the edge list has every edge in both directions and no edge
    from a county outside the territories to one inside, the construction
    returns, and the matrix is symmetric with a zero diagonal. *)
Theorem symmetric_edges_symmetric_matrix (edges : list (string * string)) :
  (forall a b, (a, b) ∈ edges -> (b, a) ∈ edges) ->
  (forall a b, (a, b) ∈ edges -> str_sub a 1 2 ∉ TERRITORY_FIPS ->
               str_sub b 1 2 ∉ TERRITORY_FIPS) ->
  exists W, county_adj_matrix edges = Returns W /\
            symmetric_without_loops W (length (fips edges)).
Proof.
  intros Hsym Hterr.
  pose proof (elem_of_county_adj_iff edges) as Hadj.
  assert (forall a b, (a, b) ∈ county_adj edges -> (b, a) ∈ county_adj edges)
    as Hmirror.
  { intros a b (Hab & Hne & Ht)%Hadj. apply Hadj.
    split; [by apply Hsym|]. split; [done|]. by eapply Hterr. }
  destruct (county_adj_matrix_returns edges) as [W HW].
  { intros [a b] He. apply elem_of_fips. exists a. by apply Hmirror. }
  exists W. split; [done|]. intros i j Hi Hj.
  destruct (lookup_lt_is_Some_2 _ _ Hi) as [a Ha].
  destruct (lookup_lt_is_Some_2 _ _ Hj) as [b Hb].
  rewrite (returned_weight edges W i j a b HW Ha Hb).
  rewrite (returned_weight edges W j i b a HW Hb Ha).
  rewrite (returned_weight edges W i i a a HW Ha Ha).
  split.
  - rewrite (bool_decide_ext _ _ (conj (Hmirror a b) (Hmirror b a))). done.
  - rewrite bool_decide_eq_false_2; [done|]. apply no_self_loop.
Qed.

Lemma symmetric_edges_symmetric_matrix_witness :
  exists W, county_adj_matrix Examples.mutual_edges = Returns W /\
            symmetric_without_loops W 2.
Proof.
  apply (symmetric_edges_symmetric_matrix Examples.mutual_edges).
  - intros a b Hab. apply list_elem_of_In in Hab. apply list_elem_of_In.
    simpl in *. intuition congruence.
  - intros a b Hab. apply list_elem_of_In in Hab. simpl in Hab.
    intuition (simplify_eq; done).
Defined.

End SpatialGraphMore.

(** ** More on the design table *)

Module DesignMore.
Import RVal Design StringOrder DesignFacts.

Lemma sort_by_sorted {A : Type} (leb : A -> A -> bool) (l : list A) :
  Sorted (Arrange.le leb) l -> Arrange.sort_by leb l = l.
Proof.
  induction 1 as [|x l Hs IH Hhd]; [done|].
  simpl. fold (Arrange.sort_by leb l). rewrite IH.
  destruct Hhd as [|h t Hxh]; simpl; [done|].
  unfold Arrange.le in Hxh. by rewrite Hxh.
Qed.

Lemma row_leb_key_leb (a b : df_row) :
  row_leb a b = key_leb (row_key a) (row_key b).
Proof. done. Qed.

Lemma Sorted_rows_of_keys (l : list df_row) :
  Sorted (Arrange.le key_leb) (row_key <$> l) -> Sorted (Arrange.le row_leb) l.
Proof.
  induction l as [|r l IH]; [constructor|].
  rewrite fmap_cons. intros [Hs Hhd]%Sorted_inv. constructor; [by apply IH|].
  destruct l as [|r' l]; [constructor|].
  rewrite fmap_cons in Hhd. apply HdRel_inv in Hhd. constructor.
  unfold Arrange.le in *. by rewrite row_leb_key_leb.
Qed.

Lemma StronglySorted_years : StronglySorted Z.lt years.
Proof.
  unfold TRAINING_YEARS, VALIDATION_YEAR.
  apply StronglySorted_app_2.
  - intros y y' Hy%elem_of_seqZ ->%list_elem_of_singleton. lia.
  - apply Sorted_StronglySorted; [intros ???; lia|].
    change (seqZ 2006 12) with (seqZ 2006 (Z.of_nat 12)).
    generalize 12%nat 2006. intros n. induction n as [|n IH]; intros m.
    + constructor.
    + rewrite seqZ_cons by lia. constructor.
      * replace (Z.pred (Z.of_nat (S n))) with (Z.of_nat n) by lia. apply IH.
      * replace (Z.pred (Z.of_nat (S n))) with (Z.of_nat n) by lia.
        destruct n as [|n]; [constructor|].
        rewrite seqZ_cons by lia. constructor. lia.
  - repeat constructor.
Qed.

Lemma StronglySorted_expand_grid (ys : list Z) (codes : list string) :
  StronglySorted Z.lt ys -> StronglySorted str_le codes ->
  StronglySorted (Arrange.le key_leb) (expand_grid ys codes).
Proof.
  intros Hys Hcodes. unfold expand_grid.
  induction Hys as [|y ys Hys IH Hy]; [constructor|].
  rewrite bind_cons. apply StronglySorted_app_2.
  - intros k1 k2 (f1 & -> & _)%list_elem_of_fmap
      (y' & (f2 & -> & _)%list_elem_of_fmap & Hy')%list_elem_of_bind.
    rewrite list.Forall_forall in Hy. specialize (Hy y' Hy').
    unfold Arrange.le, key_leb. simpl.
    by rewrite (proj2 (Z.compare_lt_iff y y') Hy).
  - eapply StronglySorted_fmap; [|done].
    intros f1 f2 Hle. unfold Arrange.le, key_leb. simpl.
    by rewrite Z.compare_refl.
  - done.
Qed.

Lemma lookup_expand_grid (ys : list Z) (codes : list string) (i j : nat)
    (y : Z) (f : string) :
  ys !! i = Some y -> codes !! j = Some f ->
  expand_grid ys codes !! (i * length codes + j)%nat = Some (y, f).
Proof.
  unfold expand_grid. revert i. induction ys as [|y0 ys IH]; intros i Hi Hj.
  - done.
  - rewrite bind_cons. destruct i as [|i]; simpl in Hi.
    + injection Hi as ->. simpl. rewrite lookup_app_l.
      * by rewrite list_lookup_fmap, Hj.
      * rewrite length_fmap. by eapply lookup_lt_Some.
    + rewrite lookup_app_r by (rewrite length_fmap; simpl; lia).
      rewrite length_fmap.
      replace (S i * length codes + j - length codes)%nat
        with (i * length codes + j)%nat by (simpl; lia).
      by apply IH.
Qed.

Lemma length_expand_grid (ys : list Z) (codes : list string) :
  length (expand_grid ys codes) = (length ys * length codes)%nat.
Proof.
  unfold expand_grid. induction ys as [|y ys IH]; [done|].
  rewrite bind_cons, length_app, length_fmap, IH. simpl. lia.
Qed.

Lemma row_keys_before_arrange (codes : list string) (od : list overdose_row)
    (pv : list poverty_row) (ind : list industry_row) :
  NoDup (od_key <$> od) -> NoDup (pv_key <$> pv) -> NoDup (in_key <$> ind) ->
  row_key <$> impute (combined codes od pv ind) = expand_grid years codes.
Proof.
  intros Hod Hpv Hind. rewrite row_key_impute. unfold combined.
  rewrite <- list_fmap_compose.
  rewrite <- (join_all_one_to_one codes od pv ind Hod Hpv Hind).
  apply list_fmap_ext. intros ???. apply row_key_mutate_row.
Qed.

Lemma df_unchanged_by_arrange (edges : list (string * string))
    (od : list overdose_row) (pv : list poverty_row)
    (ind : list industry_row) :
  NoDup (od_key <$> od) -> NoDup (pv_key <$> pv) -> NoDup (in_key <$> ind) ->
  df (SpatialGraph.fips edges) od pv ind =
  impute (combined (SpatialGraph.fips edges) od pv ind).
Proof.
  intros Hod Hpv Hind.
  pose proof (row_keys_before_arrange (SpatialGraph.fips edges) od pv ind
                Hod Hpv Hind) as Hkeys.
  assert (StronglySorted str_le (SpatialGraph.fips edges)) as Hcodes.
  { rewrite <- (list_fmap_id (SpatialGraph.fips edges)).
    eapply StronglySorted_fmap;
      [|apply (SpatialGraphMore.fips_strictly_sorted edges)].
    intros a b Hab. apply SpatialGraphMore.str_le_lt_eq. by left. }
  unfold df. apply sort_by_sorted, Sorted_rows_of_keys.
  rewrite Hkeys. apply StronglySorted_Sorted.
  apply StronglySorted_expand_grid; [apply StronglySorted_years|done].
Qed.

(** X5: with keyed tables, the rows of [df] are the grid in its own order:
    the years one after the other, and within a year the entities in the
    order of the rows and columns of the adjacency matrix.  For
    [K = length(fips)] the table has [13 * K] rows, and row [i * K + j]
    (counted from 0) is year [2006 + i] of the entity at position [j] of
    [fips]. *)
Theorem df_rows_in_matrix_order (edges : list (string * string))
    (od : list overdose_row) (pv : list poverty_row)
    (ind : list industry_row) :
  NoDup (od_key <$> od) -> NoDup (pv_key <$> pv) -> NoDup (in_key <$> ind) ->
  let codes := SpatialGraph.fips edges in
  let t := df codes od pv ind in
  row_key <$> t = expand_grid years codes /\
  length t = (13 * length codes)%nat /\
  forall i j f, (i < 13)%nat -> codes !! j = Some f ->
    exists r, t !! (i * length codes + j)%nat = Some r /\
              year r = 2006 + Z.of_nat i /\ fips r = f.
Proof.
  intros Hod Hpv Hind codes t.
  pose proof (row_keys_before_arrange codes od pv ind Hod Hpv Hind) as Hkeys.
  pose proof (df_unchanged_by_arrange edges od pv ind Hod Hpv Hind) as Ht.
  fold codes in Ht. fold t in Ht.
  rewrite Ht, Hkeys. split; [done|]. split.
  - by rewrite <- (length_fmap row_key), Hkeys, length_expand_grid.
  - intros i j f Hi Hj.
    assert (years !! i = Some (2006 + Z.of_nat i)) as Hy.
    { unfold TRAINING_YEARS, VALIDATION_YEAR.
      destruct (decide (i < 12)%nat).
      - rewrite lookup_app_l by (rewrite length_seqZ; lia).
        apply lookup_seqZ_lt. lia.
      - rewrite lookup_app_r by (rewrite length_seqZ; lia).
        rewrite length_seqZ. replace i with 12%nat by lia. done. }
    pose proof (lookup_expand_grid _ _ _ _ _ _ Hy Hj) as Hl.
    rewrite <- Hkeys, list_lookup_fmap in Hl.
    destruct (impute _ !! _) as [r|] eqn:Hr; [|done].
    exists r. split; [done|]. by injection Hl as <- <-.
Qed.

Lemma df_rows_in_matrix_order_witness :
  let codes := SpatialGraph.fips SpatialGraph.one_way_edges in
  length (df codes [] poverty_two_counties []) = 39%nat.
Proof.
  refine (proj1 (proj2 (df_rows_in_matrix_order SpatialGraph.one_way_edges
                          [] poverty_two_counties [] _ _ _))).
  - constructor.
  - apply (bool_decide_unpack _). vm_compute. exact I.
  - constructor.
Defined.

(** What the grouped [mutate()] does to every column of a row. *)
Lemma elem_of_impute_all (r' : df_row) (l : list df_row) :
  r' ∈ impute l ->
  exists r, r ∈ l /\
    (year r' = year r /\ fips r' = fips r /\ county r' = county r /\
     death_rate r' = death_rate r /\ state r' = state r /\
     Coal_Mining_Cluster_LQ r' = Coal_Mining_Cluster_LQ r /\
     high_Coal_Mining_Cluster_LQ r' = high_Coal_Mining_Cluster_LQ r /\
     masked_death_rate r' = masked_death_rate r) /\
    pov_percent_all r' =
      replace_na (pov_percent_all r) (mean (pov_percent_all <$> group_of l r))
    /\ (exists v, pov_percent_minors r' = replace_na (pov_percent_minors r) v)
    /\ (exists v, median_income r' = replace_na (median_income r) v).
Proof.
  unfold impute, impute_median_income, impute_pov_percent_minors,
    impute_pov_percent_all.
  intros (r2 & -> & (r1 & -> & (r & -> & Hr)%list_elem_of_fmap)
    %list_elem_of_fmap)%list_elem_of_fmap.
  exists r. split; [done|]. split; [by repeat split|]. split; [done|].
  split; eexists; reflexivity.
Qed.

Lemma replace_na_observed (q : Q) (v : dbl) : replace_na (Num q) v = Num q.
Proof. done. Qed.

Lemma mutate_row_flag (j : joined) :
  is_na (high_Coal_Mining_Cluster_LQ (mutate_row j)) = false.
Proof.
  destruct j as [[[k o1] o2] o3]. simpl. unfold replace_na.
  by destruct (col in_high_Coal_Mining_Cluster_LQ o3).
Qed.

(** X6: imputation only fills gaps.  Every row of [df] comes from a row of
    the joined table with the same key whose death rate, masked death rate,
    county, state and industry columns it keeps, and in which every poverty
    covariate that was observed (a number) keeps its value; the industry
    flag is never missing in [df]. *)
Theorem imputation_keeps_observed (codes : list string)
    (od : list overdose_row) (pv : list poverty_row)
    (ind : list industry_row) (r' : df_row) :
  r' ∈ df codes od pv ind ->
  exists r, r ∈ combined codes od pv ind /\
    row_key r' = row_key r /\
    (county r' = county r /\ death_rate r' = death_rate r /\
     masked_death_rate r' = masked_death_rate r /\ state r' = state r /\
     Coal_Mining_Cluster_LQ r' = Coal_Mining_Cluster_LQ r /\
     high_Coal_Mining_Cluster_LQ r' = high_Coal_Mining_Cluster_LQ r) /\
    (forall q, pov_percent_all r = Num q -> pov_percent_all r' = Num q) /\
    (forall q, median_income r = Num q -> median_income r' = Num q) /\
    (forall q, pov_percent_minors r = Num q -> pov_percent_minors r' = Num q)
    /\ is_na (high_Coal_Mining_Cluster_LQ r') = false.
Proof.
  intros Hr'%elem_of_df%elem_of_impute_all.
  destruct Hr' as (r & Hr & (Hy & Hf & Hc & Hd & Hs & Hlq & Hh & Hm)
                     & Hall & [vm Hmin] & [vi Hinc]).
  exists r. split; [done|]. split; [unfold row_key; congruence|].
  split; [by repeat split|]. split; [|split; [|split]].
  - intros q Hq. by rewrite Hall, Hq.
  - intros q Hq. by rewrite Hinc, Hq.
  - intros q Hq. by rewrite Hmin, Hq.
  - rewrite Hh. unfold combined in Hr.
    apply list_elem_of_fmap in Hr as (j & -> & _). apply mutate_row_flag.
Qed.

Lemma imputation_keeps_observed_witness :
  exists r' r,
    df ["01001"; "01003"] [] poverty_two_counties [] !! 1%nat = Some r' /\
    r ∈ combined ["01001"; "01003"] [] poverty_two_counties [] /\
    row_key r' = row_key r /\
    is_na (high_Coal_Mining_Cluster_LQ r') = false.
Proof.
  assert (exists r', df ["01001"; "01003"] [] poverty_two_counties []
                       !! 1%nat = Some r') as [r' Hr']
    by (eexists; vm_compute; reflexivity).
  destruct (imputation_keeps_observed _ _ _ _ r'
              (list_elem_of_lookup_2 _ _ _ Hr'))
    as (r & Hin & Hk & _ & _ & _ & _ & Hflag).
  by exists r', r.
Defined.

Lemma elem_of_na_rm (q : Q) (xs : list dbl) : q ∈ na_rm xs <-> Num q ∈ xs.
Proof.
  induction xs as [|x xs IH]; simpl.
  - split; by intros ?%elem_of_nil.
  - destruct x as [| |q']; rewrite ?elem_of_cons, IH; [| |].
    + split; [by right|]. by intros [|].
    + split; [by right|]. by intros [|].
    + split; intros [Hq|]; auto; left; congruence.
Qed.

Lemma Qsum_bounds (lo hi : Q) (qs : list Q) :
  (forall q, q ∈ qs -> (lo <= q /\ q <= hi)%Q) ->
  (inject_Z (Z.of_nat (length qs)) * lo <= Qsum qs /\
   Qsum qs <= inject_Z (Z.of_nat (length qs)) * hi)%Q.
Proof.
  induction qs as [|q qs IH]; intros H.
  - cbn [length Qsum foldr]. change (inject_Z (Z.of_nat 0)) with 0%Q.
    split; [rewrite Qmult_0_l|rewrite Qmult_0_l]; apply Qle_refl.
  - destruct (H q) as [Hlo Hhi]; [apply elem_of_cons; by left|].
    destruct IH as [IH1 IH2];
      [intros q' Hq'; apply H, elem_of_cons; by right|].
    cbn [length Qsum foldr]. fold (Qsum qs).
    rewrite Nat2Z.inj_succ. unfold Z.succ. rewrite inject_Z_plus.
    change (inject_Z 1) with 1%Q.
    generalize dependent (inject_Z (Z.of_nat (length qs))).
    intros n IH1 IH2. split; lra.
Qed.

(** The mean of the observed values lies between any two bounds of
    them. *)
Lemma mean_within (lo hi : Q) (xs : list dbl) :
  (exists q, Num q ∈ xs) ->
  (forall q, Num q ∈ xs -> (lo <= q /\ q <= hi)%Q) ->
  exists m, mean xs = Num m /\ (lo <= m /\ m <= hi)%Q.
Proof.
  intros [q0 Hq0%elem_of_na_rm] Hb. unfold mean.
  assert (forall q, q ∈ na_rm xs -> (lo <= q /\ q <= hi)%Q) as Hb'
    by (intros q Hq; by apply Hb, elem_of_na_rm).
  destruct (na_rm xs) as [|q1 qs] eqn:Hqs; [by apply elem_of_nil in Hq0|].
  destruct (Qsum_bounds lo hi (q1 :: qs) Hb') as [H1 H2].
  unfold mean_num. eexists. split; [reflexivity|].
  assert (0 < inject_Z (Z.of_nat (length (q1 :: qs))))%Q as Hpos.
  { change 0%Q with (inject_Z 0). rewrite <- Zlt_Qlt. simpl. lia. }
  split.
  - apply Qle_shift_div_l; [done|]. by rewrite Qmult_comm.
  - apply Qle_shift_div_r; [done|]. by rewrite Qmult_comm.
Qed.

(** X7: when some row of a (year, state) group has an observed
    [pov_percent_all], every row of the group has a number in [df], and the
    number lies between any two bounds of the group's observed values: a gap
    is filled with a value inside the range of the group. *)
Theorem imputed_poverty_within_group_range (codes : list string)
    (od : list overdose_row) (pv : list poverty_row)
    (ind : list industry_row) (r' : df_row) (lo hi : Q) :
  r' ∈ df codes od pv ind ->
  (exists r0 q, r0 ∈ combined codes od pv ind /\ same_group r' r0 = true /\
                pov_percent_all r0 = Num q) ->
  (forall r0 q, r0 ∈ combined codes od pv ind -> same_group r' r0 = true ->
                pov_percent_all r0 = Num q -> (lo <= q /\ q <= hi)%Q) ->
  exists m, pov_percent_all r' = Num m /\ (lo <= m /\ m <= hi)%Q.
Proof.
  intros Hr' (r0 & q0 & Hr0 & Hg0 & Hq0) Hb.
  apply elem_of_df, elem_of_impute in Hr'
    as (r & Hr & Hy & _ & Hs & _ & _ & ->).
  assert (same_group r' = same_group r) as Hg
    by (unfold same_group; by rewrite Hy, Hs).
  rewrite Hg in *.
  destruct (pov_percent_all r) as [| |q] eqn:Hq.
  3: { exists q. split; [done|]. apply (Hb r q Hr (same_group_refl r) Hq). }
  all: simpl; apply mean_within.
  all: try (exists q0; apply list_elem_of_fmap; exists r0; split; [done|];
            unfold group_of; apply list_elem_of_In, filter_In;
            split; [by apply list_elem_of_In|done]).
  all: intros q (r1 & Hq1 & Hr1)%list_elem_of_fmap;
       unfold group_of in Hr1;
       apply list_elem_of_In, filter_In in Hr1 as [Hr1 Hg1];
       eapply Hb; [by apply list_elem_of_In|done|done].
Qed.

Lemma imputed_poverty_within_group_range_witness :
  exists r' m,
    df ["01001"; "01003"] [] poverty_two_counties [] !! 0%nat = Some r' /\
    pov_percent_all r' = Num m /\ (10 <= m /\ m <= 20)%Q.
Proof.
  assert (exists r', df ["01001"; "01003"] [] poverty_two_counties []
                       !! 0%nat = Some r' /\ year r' = 2006
                     /\ state r' = "01"%string) as (r' & Hr' & Hy & Hs)
    by (eexists; split; [vm_compute; reflexivity|]; split; reflexivity).
  destruct (imputed_poverty_within_group_range
              ["01001"; "01003"] [] poverty_two_counties [] r' 10 20)
    as (m & Hm & Hb).
  - by eapply list_elem_of_lookup_2.
  - assert (exists r0, combined ["01001"; "01003"] [] poverty_two_counties []
                         !! 0%nat = Some r0 /\ year r0 = 2006 /\
                       state r0 = "01"%string /\
                       pov_percent_all r0 = Num 10)
      as (r0 & Hr0 & Hy0 & Hs0 & Hq0)
      by (eexists; split; [vm_compute; reflexivity|]; repeat split).
    exists r0, 10%Q. split; [by eapply list_elem_of_lookup_2|].
    split; [|done]. unfold same_group. by rewrite Hy, Hs, Hy0, Hs0.
  - intros r0 q Hr0 _ Hq. apply list_elem_of_In in Hr0.
    vm_compute in Hr0.
    repeat (destruct Hr0 as [<-|Hr0]; [simpl in Hq; simplify_eq; lra|]).
    done.
  - by exists r', m.
Defined.

End DesignMore.

(** ** More on the model formulas *)

Module ModelMore.
Import RVal SpatialGraph Model ModelFacts.
Local Open Scope Q_scope.

Lemma Qsum_cons (a : Q) (l : list Q) : Qsum (a :: l) = a + Qsum l.
Proof. done. Qed.

Lemma Qsum_nonneg_row (row : list Z) :
  (forall w, w ∈ row -> (0 <= w)%Z) -> 0 <= Qsum (inject_Z <$> row).
Proof.
  induction row as [|w row IH]; intros H; [apply Qle_refl|].
  assert (0 <= inject_Z w) as Hw.
  { change 0 with (inject_Z 0). rewrite <- Zle_Qle.
    apply H, elem_of_cons. by left. }
  specialize (IH (λ v Hv, H v (proj2 (elem_of_cons _ _ _) (or_intror Hv)))).
  rewrite fmap_cons, Qsum_cons.
  generalize dependent (Qsum (inject_Z <$> row)). intros S HS.
  generalize dependent (inject_Z w). intros a Ha. lra.
Qed.

(** The weighted sum of values between [lo <= 0] and [hi >= 0] lies between
    [lo] and [hi] times the sum of the weights. *)
Lemma Qsum_weighted_bounds (lo hi : Q) (row : list Z) (x : list Q) :
  lo <= 0 -> 0 <= hi ->
  (forall w, w ∈ row -> (0 <= w)%Z) ->
  (forall v, v ∈ x -> lo <= v /\ v <= hi) ->
  lo * Qsum (inject_Z <$> row)
    <= Qsum (zip_with (λ w xj, inject_Z w * xj) row x) /\
  Qsum (zip_with (λ w xj, inject_Z w * xj) row x)
    <= hi * Qsum (inject_Z <$> row).
Proof.
  intros Hlo Hhi. revert x. induction row as [|w row IH]; intros x Hw Hx.
  - change (Qsum (inject_Z <$> [])) with 0.
    change (Qsum (zip_with (λ w xj, inject_Z w * xj) [] x)) with 0.
    split; lra.
  - assert (0 <= inject_Z w) as Hw0.
    { change 0 with (inject_Z 0). rewrite <- Zle_Qle.
      apply Hw, elem_of_cons. by left. }
    assert (forall w', w' ∈ row -> (0 <= w')%Z) as Hw'
      by (intros w' Hin; apply Hw, elem_of_cons; by right).
    pose proof (Qsum_nonneg_row row Hw') as Hrow.
    rewrite fmap_cons, Qsum_cons.
    destruct x as [|v x].
    + change (Qsum (zip_with (λ w xj, inject_Z w * xj) (w :: row) [])) with 0.
      generalize dependent (Qsum (inject_Z <$> row)). intros S HS.
      generalize dependent (inject_Z w). intros a Ha. split; nra.
    + destruct (Hx v) as [Hv1 Hv2]; [apply elem_of_cons; by left|].
      destruct (IH x Hw') as [IH1 IH2];
        [intros v' Hv'; apply Hx, elem_of_cons; by right|].
      change (zip_with (λ w xj, inject_Z w * xj) (w :: row) (v :: x))
        with (inject_Z w * v :: zip_with (λ w xj, inject_Z w * xj) row x).
      rewrite Qsum_cons.
      generalize dependent (Qsum (zip_with (λ w xj, inject_Z w * xj) row x)).
      intros T HT1 HT2.
      generalize dependent (Qsum (inject_Z <$> row)). intros S HS HT1 HT2.
      generalize dependent (inject_Z w). intros a Ha. split; nra.
Qed.

(** X8: with non-negative weights in row [k], a smoothness parameter in
    [0,1) and a positive variance parameter, the full conditional of the
    effect of entity [k] is defined: its denominator is at least [1 - rho],
    its variance is positive and at most [tau2 / (1 - rho)], and its mean
    lies between any [lo <= 0] and [hi >= 0] that bound the other effects
    (the neighbours' values are shrunk towards 0). *)
Theorem car_conditional_shrinks (W : list (list Z)) (x : list Q)
    (rho tau2 lo hi : Q) (k : nat) :
  (forall w, w ∈ w_row W k -> (0 <= w)%Z) ->
  0 <= rho -> rho < 1 -> 0 < tau2 ->
  lo <= 0 -> 0 <= hi -> (forall v, v ∈ x -> lo <= v /\ v <= hi) ->
  1 - rho <= car_denominator rho W k /\
  exists m v,
    car_mean rho W x k = Some m /\ car_variance tau2 rho W k = Some v /\
    (lo <= m /\ m <= hi) /\ (0 < v /\ v <= tau2 / (1 - rho)).
Proof.
  intros Hw H0 H1 Htau Hlo Hhi Hx.
  pose proof (Qsum_nonneg_row _ Hw) as Hsum.
  destruct (Qsum_weighted_bounds lo hi _ x Hlo Hhi Hw Hx) as [Hb1 Hb2].
  assert (1 - rho <= car_denominator rho W k) as Hden.
  { unfold car_denominator, sum_w.
    generalize dependent (Qsum (inject_Z <$> w_row W k)). intros S HS _ _.
    nra. }
  assert (0 < car_denominator rho W k) as Hpos by lra.
  split; [done|].
  exists (rho * sum_w_x W k x / car_denominator rho W k),
         (tau2 / car_denominator rho W k).
  split; [unfold car_mean; by apply quotient_defined|].
  split; [unfold car_variance; by apply quotient_defined|].
  unfold sum_w_x, car_denominator, sum_w in *.
  generalize dependent (Qsum (zip_with (λ w xj, inject_Z w * xj)
                                (w_row W k) x)).
  intros T HT1 HT2.
  generalize dependent (Qsum (inject_Z <$> w_row W k)).
  intros S HS HT1 HT2 Hden Hpos.
  split; split.
  - apply Qle_shift_div_l; [done|]. nra.
  - apply Qle_shift_div_r; [done|]. nra.
  - apply Qlt_shift_div_l; [done|]. lra.
  - apply Qle_shift_div_l; [lra|].
    assert (tau2 / (rho * S + 1 - rho) * (1 - rho)
            == tau2 * (1 - rho) / (rho * S + 1 - rho)) as ->
      by (field; lra).
    apply Qle_shift_div_r; [done|]. nra.
Qed.

Lemma car_conditional_shrinks_witness :
  let W := [[0; 1; 1]; [1; 0; 0]; [1; 0; 0]]%Z in
  exists m v,
    car_mean (1 # 2) W [0; 2; -1] 0 = Some m /\
    car_variance 3 (1 # 2) W 0 = Some v /\
    (-1 <= m /\ m <= 2) /\ (0 < v /\ v <= 3 / (1 - (1 # 2))).
Proof.
  intros W.
  destruct (car_conditional_shrinks W [0; 2; -1] (1 # 2) 3 (-1) 2 0)
    as (_ & m & v & H); [|lra..| |by exists m, v].
  - intros w Hw. apply list_elem_of_In in Hw. simpl in Hw.
    intuition lia.
  - intros v Hv. apply list_elem_of_In in Hv. simpl in Hv.
    destruct Hv as [<-|[<-|[<-|[]]]]; lra.
Defined.

Lemma car_denominator_lower (W : list (list Z)) (rho : Q) (k : nat) :
  (forall w, w ∈ w_row W k -> (0 <= w)%Z) -> 0 <= rho -> rho < 1 ->
  1 - rho <= car_denominator rho W k /\ 0 < car_denominator rho W k.
Proof.
  intros Hw H0 H1. pose proof (Qsum_nonneg_row _ Hw) as Hsum.
  unfold car_denominator, sum_w.
  generalize dependent (Qsum (inject_Z <$> w_row W k)). intros S HS.
  split; nra.
Qed.

Lemma length_filter_imap (row : list Z) (g : nat -> nat) :
  length (filter (λ jw : nat * Z, jw.2 ≠ 0%Z) (imap (λ j w, (g j, w)) row)) =
  length (filter (λ w : Z, w ≠ 0%Z) row).
Proof.
  revert g. induction row as [|w row IH]; intros g; [done|].
  rewrite imap_cons, !filter_cons. cbn [snd].
  change (imap ((λ j w0, (g j, w0)) ∘ S) row)
    with (imap (λ j w0, ((g ∘ S) j, w0)) row).
  destruct (decide (w ≠ 0%Z)); cbn [length]; by rewrite (IH (g ∘ S)).
Qed.

Lemma binary_row_sum (row : list Z) :
  Forall (λ w, w = 0 \/ w = 1)%Z row ->
  Qsum (inject_Z <$> row) ==
  inject_Z (Z.of_nat (length (filter (λ w : Z, w ≠ 0%Z) row))).
Proof.
  induction 1 as [|w row Hw Hrow IH]; [reflexivity|].
  rewrite fmap_cons, Qsum_cons, IH, filter_cons.
  destruct Hw as [-> | ->].
  - rewrite decide_False by (intros H0; by apply H0).
    change (inject_Z 0) with 0. ring.
  - rewrite decide_True by done. cbn [length].
    rewrite Nat2Z.inj_succ. unfold Z.succ. rewrite inject_Z_plus. ring.
Qed.

(** X9: for an adjacency matrix that [county_adj_matrix] returns, the row
    sum [sum_j w_kj] of an entity is its number of neighbours, and for every
    smoothness parameter in [0,1) and positive variance parameter the full
    conditionals of [phi_k] and [delta_k] are defined for every entity, with
    denominator [rho * degree + 1 - rho >= 1 - rho] and a positive
    variance. *)
Theorem adjacency_conditionals_defined (edges : list (string * string))
    (W : list (list Z)) (x : list Q) (rho tau2 : Q) (k : nat) :
  county_adj_matrix edges = Returns W ->
  0 <= rho -> rho < 1 -> 0 < tau2 ->
  sum_w W k == inject_Z (Z.of_nat (degree W k)) /\
  car_denominator rho W k == rho * inject_Z (Z.of_nat (degree W k)) + 1 - rho /\
  exists m v,
    phi_conditional rho tau2 W x k = (Some m, Some v) /\
    delta_conditional rho tau2 W x k = (Some m, Some v) /\ 0 < v.
Proof.
  intros HW H0 H1 Htau.
  destruct (SpatialGraphMore.returned_shape edges W HW) as [_ Hrows].
  assert (Forall (λ w, w = 0 \/ w = 1)%Z (w_row W k)) as Hrow.
  { unfold w_row. destruct (W !! k) as [row|] eqn:Hk; simpl; [|constructor].
    rewrite list.Forall_forall in Hrows.
    by destruct (Hrows row (list_elem_of_lookup_2 _ _ _ Hk)). }
  assert (sum_w W k == inject_Z (Z.of_nat (degree W k))) as Hsum.
  { unfold sum_w, degree, neighbors.
    rewrite length_fmap, length_filter_imap. by apply binary_row_sum. }
  destruct (car_denominator_lower W rho k) as [Hden Hpos]; [|done|done|].
  { intros w Hw. rewrite list.Forall_forall in Hrow.
    destruct (Hrow w Hw) as [-> | ->]; lia. }
  split; [done|]. split; [unfold car_denominator; by rewrite Hsum|].
  exists (rho * sum_w_x W k x / car_denominator rho W k),
         (tau2 / car_denominator rho W k).
  unfold phi_conditional, delta_conditional, car_mean, car_variance.
  rewrite !quotient_defined by done. split; [done|]. split; [done|].
  apply Qlt_shift_div_l; [done|]. lra.
Qed.

Lemma adjacency_conditionals_defined_witness :
  exists W m v,
    county_adj_matrix Examples.mutual_edges = Returns W /\
    phi_conditional (1 # 2) 3 W [1; 2] 0 = (Some m, Some v) /\ 0 < v.
Proof.
  assert (exists W, county_adj_matrix Examples.mutual_edges = Returns W)
    as [W HW] by (eexists; vm_compute; reflexivity).
  destruct (adjacency_conditionals_defined Examples.mutual_edges W [1; 2]
              (1 # 2) 3 0 HW) as (_ & _ & m & v & Hphi & _ & Hv);
    [lra..|].
  by exists W, m, v.
Defined.

Lemma Qsum_t_star_zero (N : nat) :
  (0 < N)%nat -> Qsum (t_star N <$> time_indices N) == 0.
Proof.
  intros HN. pose proof (inject_Z_nat_pos N HN) as Hpos.
  rewrite Qsum_t_star. unfold time_indices at 2.
  rewrite length_seqZ, Nat2Z.id. unfold t_bar. field. lra.
Qed.

Lemma Qsum_psi (N : nat) (beta_1 phi_k alpha delta_k : Q) (l : list Z) :
  Qsum (psi N beta_1 phi_k alpha delta_k <$> l) ==
  inject_Z (Z.of_nat (length l)) * (beta_1 + phi_k) +
  (alpha + delta_k) * Qsum (t_star N <$> l).
Proof.
  induction l as [|t l IH].
  - change (inject_Z (Z.of_nat (length []))) with 0.
    change (Qsum (psi N beta_1 phi_k alpha delta_k <$> [])) with 0.
    change (Qsum (t_star N <$> [])) with 0. ring.
  - rewrite !fmap_cons, !Qsum_cons, IH. cbn [length].
    rewrite Nat2Z.inj_succ. unfold Z.succ. rewrite inject_Z_plus.
    unfold psi. change (inject_Z 1) with 1. ring.
Qed.

(** X10: in the linear predictor [psi_kt], [beta_1 + phi_k] is the level of
    county [k]: the average of [psi_kt] over the years [t = 1..N]; and
    [alpha + delta_k] is its slope: from one year to the next [psi_kt]
    changes by [(alpha + delta_k) / N]. *)
Theorem psi_intercept_and_slope (N : nat) (beta_1 phi_k alpha delta_k : Q)
    (t : Z) :
  (0 < N)%nat ->
  Qsum (psi N beta_1 phi_k alpha delta_k <$> time_indices N)
    / inject_Z (Z.of_nat N) == beta_1 + phi_k /\
  psi N beta_1 phi_k alpha delta_k (t + 1) - psi N beta_1 phi_k alpha delta_k t
    == (alpha + delta_k) / inject_Z (Z.of_nat N).
Proof.
  intros HN. pose proof (inject_Z_nat_pos N HN) as Hpos. split.
  - rewrite Qsum_psi, (Qsum_t_star_zero N HN).
    unfold time_indices. rewrite length_seqZ, Nat2Z.id. field. lra.
  - unfold psi, t_star. rewrite inject_Z_plus. change (inject_Z 1) with 1.
    field. lra.
Qed.

Lemma psi_intercept_and_slope_witness :
  Qsum (psi 13 2 (1 # 2) 3 (-1) <$> time_indices 13) / inject_Z 13
    == 2 + (1 # 2).
Proof.
  refine (proj1 (psi_intercept_and_slope 13 2 (1 # 2) 3 (-1) 1 _)). lia.
Defined.

End ModelMore.

(** ** Data intake *)

Module IntakeFacts.
Import RVal Design Intake Examples.

Lemma append_nil (b : string) : String.append EmptyString b = b.
Proof. reflexivity. Qed.

Lemma append_cons (c : Ascii.ascii) (a b : string) :
  String.append (String c a) b = String c (String.append a b).
Proof. reflexivity. Qed.

Lemma length_padding (n : nat) (c : Ascii.ascii) :
  String.length (padding n c) = n.
Proof. induction n as [|n IH]; simpl; congruence. Qed.

Lemma length_append (a b : string) :
  String.length (String.append a b) = (String.length a + String.length b)%nat.
Proof.
  induction a as [|c a IH]; [done|].
  rewrite append_cons. simpl. congruence.
Qed.

Lemma padding_cancel (n1 n2 : nat) (c : Ascii.ascii) (s1 s2 : string) :
  ~ starts_with c s1 -> ~ starts_with c s2 ->
  String.append (padding n1 c) s1 = String.append (padding n2 c) s2 ->
  s1 = s2.
Proof.
  intros H1 H2. revert n2. induction n1 as [|n1 IH]; intros [|n2];
    cbn [padding]; rewrite ?append_nil, ?append_cons.
  - done.
  - intros ->. by destruct H1.
  - intros <-. by destruct H2.
  - intros [= H]. by eapply IH.
Qed.

Lemma NoDup_fmap_same {A B : Type} (f : A -> B) (l : list A) (x y : A) :
  NoDup (f <$> l) -> x ∈ l -> y ∈ l -> f x = f y -> x = y.
Proof.
  induction l as [|a l IH]; [by intros _ ?%elem_of_nil|].
  rewrite fmap_cons. intros [Ha Hnd]%list.NoDup_cons.
  intros [-> | Hx]%elem_of_cons [-> | Hy]%elem_of_cons Hxy; [done| | |by apply IH].
  - exfalso. apply Ha. rewrite Hxy. apply list_elem_of_fmap. by exists y.
  - exfalso. apply Ha. rewrite <- Hxy. apply list_elem_of_fmap. by exists x.
Qed.

(** X12: padding keeps different codes different, as long as no code
    begins with the padding character itself (a code read as a number does
    not begin with 0); so an overdose file without a repeated (Year, FIPS)
    pair gives a table keyed by (year, fips). *)
Theorem overdose_intake_keyed (file : list overdose_record) :
  (forall r, r ∈ file -> ~ starts_with "0"%char (FIPS r)) ->
  NoDup ((λ r, (Year r, FIPS r)) <$> file) ->
  NoDup (od_key <$> overdose file) /\
  length (overdose file) = length file /\
  forall r, r ∈ overdose file -> (5 <= String.length (od_fips r))%nat.
Proof.
  intros Hzero Hnd. split; [|split].
  - unfold overdose. rewrite <- list_fmap_compose.
    apply NoDup_fmap_2_strong.
    + intros r1 r2 Hr1 Hr2 [= Hy Hf].
      assert (FIPS r1 = FIPS r2) as HF
        by (eapply padding_cancel; [by apply Hzero..|done]).
      assert ((Year r1, FIPS r1) = (Year r2, FIPS r2)) as Hk by congruence.
      by eapply (NoDup_fmap_same (λ r, (Year r, FIPS r))).
    + eapply NoDup_fmap_1, Hnd.
  - unfold overdose. apply length_fmap.
  - unfold overdose. intros r (r0 & -> & _)%list_elem_of_fmap. simpl.
    unfold str_pad. rewrite length_append, length_padding. lia.
Qed.

Lemma overdose_intake_keyed_witness :
  NoDup (od_key <$> overdose overdose_file) /\
  length (overdose overdose_file) = 2%nat.
Proof.
  destruct (overdose_intake_keyed overdose_file) as (H1 & H2 & _).
  - intros r Hr. apply list_elem_of_In in Hr. simpl in Hr.
    destruct Hr as [<-|[<-|[]]]; simpl; discriminate.
  - apply (bool_decide_unpack _). vm_compute. exact I.
  - split; [exact H1 | exact H2].
Defined.

Local Open Scope Q_scope.

Lemma clamp_range (p : Q) : 0 <= pmax 0 (pmin 1 p) /\ pmax 0 (pmin 1 p) <= 1.
Proof.
  unfold pmax, pmin.
  destruct (Qle_bool 1 p) eqn:H1; destruct (Qle_bool 0 _) eqn:H0;
    try apply Qle_bool_iff in H0; try apply Qle_bool_iff in H1;
    split; try lra.
  all: try (assert (~ 1 <= p) as Hn
              by (intros Hle; apply Qle_bool_iff in Hle; congruence); lra).
  all: assert (~ 0 <= 1) as Hn
         by (intros Hle; apply Qle_bool_iff in Hle; congruence); lra.
Qed.

Lemma elem_of_Qsort (q : Q) (xs : list Q) : q ∈ Qsort xs <-> q ∈ xs.
Proof. unfold Qsort. apply ArrangeFacts.elem_of_sort_by. Qed.

Lemma length_Qsort (xs : list Q) : length (Qsort xs) = length xs.
Proof.
  unfold Qsort. apply Permutation_length, ArrangeFacts.sort_by_Permutation.
Qed.

(** A quantile of type 7 is a value between two of the numbers: a
    combination [(1 - h) * u + h * v] of two of them with [0 <= h <= 1]. *)
Lemma quantile_between (xs : list Q) (p : Q) :
  xs <> [] -> - eps <= p -> p <= 1 + eps ->
  exists q u v h,
    quantile xs p = Returns (Num q) /\ u ∈ xs /\ v ∈ xs /\
    0 <= h /\ h <= 1 /\ q == (1 - h) * u + h * v.
Proof.
  intros Hxs Hp0 Hp1. unfold quantile.
  destruct (Qlt_le_dec p (- eps)) as [Hlt|_]; [lra|].
  destruct (Qlt_le_dec (1 + eps) p) as [Hlt|_]; [lra|].
  destruct (clamp_range p) as [Hc0 Hc1].
  generalize dependent (pmax 0 (pmin 1 p)). intros p' Hc0 Hc1.
  destruct xs as [|x0 xs']; [done|].
  set (xs := x0 :: xs') in *. set (n := length xs).
  assert (n = S (length xs')) as Hn by done.
  set (index := 1 + inject_Z (Z.of_nat (n - 1)) * p').
  assert (0 <= inject_Z (Z.of_nat (n - 1))) as Hn0
    by (change 0 with (inject_Z 0); rewrite <- Zle_Qle; lia).
  assert (1 <= index /\ index <= inject_Z (Z.of_nat n)) as [Hi1 Hi2].
  { unfold index.
    assert (inject_Z (Z.of_nat n) == 1 + inject_Z (Z.of_nat (n - 1))) as ->.
    { rewrite <- (inject_Z_plus 1). f_equiv. lia. }
    generalize dependent (inject_Z (Z.of_nat (n - 1))). intros m Hm.
    split; nra. }
  assert (1 <= Qfloor index <= Z.of_nat n)%Z as Hlo.
  { split.
    - rewrite <- (Qfloor_Z 1). by apply Qfloor_resp_le.
    - rewrite <- (Qfloor_Z (Z.of_nat n)). by apply Qfloor_resp_le. }
  assert (1 <= Qceiling index <= Z.of_nat n)%Z as Hhi.
  { split.
    - rewrite <- (Qceiling_Z 1). by apply Qceiling_resp_le.
    - rewrite <- (Qceiling_Z (Z.of_nat n)). by apply Qceiling_resp_le. }
  assert (forall k : Z, (1 <= k <= Z.of_nat n)%Z ->
                        nth (Z.to_nat k - 1) (Qsort xs) 0 ∈ xs) as Hnth.
  { intros k Hk. apply elem_of_Qsort, list_elem_of_In, nth_In.
    rewrite length_Qsort. fold n. lia. }
  pose proof (Hnth _ Hlo) as Hqs. pose proof (Hnth _ Hhi) as Hxhi.
  pose proof (Qfloor_le index) as Hf1. pose proof (Qlt_floor index) as Hf2.
  rewrite inject_Z_plus in Hf2. change (inject_Z 1) with 1 in Hf2.
  set (qs := nth (Z.to_nat (Qfloor index) - 1) (Qsort xs) 0) in *.
  set (x_hi := nth (Z.to_nat (Qceiling index) - 1) (Qsort xs) 0) in *.
  destruct (Qlt_le_dec (inject_Z (Qfloor index)) index) as [Hlt|Hle].
  - destruct (Qeq_bool x_hi qs).
    + exists qs, qs, qs, 0. split; [done|].
      repeat split; try done; try lra; ring.
    + eexists _, qs, x_hi, (index - inject_Z (Qfloor index)).
      split; [reflexivity|]. repeat split; try done; try lra; reflexivity.
  - exists qs, qs, qs, 0. split; [done|].
    repeat split; try done; try lra; ring.
Qed.

Lemma elem_of_positive (q : Q) (x : list dbl) :
  q ∈ positive x <-> Num q ∈ x /\ 0 < q.
Proof.
  unfold positive. rewrite list_elem_of_In, filter_In, <- list_elem_of_In.
  rewrite DesignMore.elem_of_na_rm, negb_true_iff.
  split; intros [Hin Hq]; (split; [done|]).
  - apply Qnot_le_lt. intros Hle. apply Qle_bool_iff in Hle. congruence.
  - destruct (Qle_bool q 0) eqn:Hb; [|done].
    apply Qle_bool_iff in Hb. lra.
Qed.

(** The threshold of [has_high_lq]: missing when no value is positive,
    and else a positive number that no largest value is below. *)
Lemma has_high_lq_threshold (x : list dbl) (p : Q) :
  - eps <= p -> p <= 1 + eps ->
  exists thr,
    has_high_lq x p = Returns ((λ v, at_least v thr) <$> x) /\
    (positive x = [] -> thr = NA) /\
    (positive x <> [] ->
     exists q, thr = Num q /\ 0 < q /\
       forall a, Num a ∈ x -> (forall v, Num v ∈ x -> v <= a) -> q <= a).
Proof.
  intros Hp0 Hp1. unfold has_high_lq.
  destruct (positive x) as [|q0 qs] eqn:Hpos.
  - exists NA. unfold quantile.
    destruct (Qlt_le_dec p (- eps)) as [Hlt|_]; [lra|].
    destruct (Qlt_le_dec (1 + eps) p) as [Hlt|_]; [lra|].
    split; [done|]. split; [done|]. by intros [].
  - destruct (quantile_between (q0 :: qs) p) as
      (q & u & v & h & Hq & Hu & Hv & Hh0 & Hh1 & Hqeq); [done..|].
    rewrite Hq. exists (Num q). split; [done|]. split; [done|]. intros _.
    rewrite <- Hpos in Hu, Hv.
    apply elem_of_positive in Hu as [Hu Hu0], Hv as [Hv Hv0].
    exists q. split; [done|]. split; [rewrite Hqeq; nra|].
    intros a Ha Hmax. pose proof (Hmax u Hu). pose proof (Hmax v Hv).
    rewrite Hqeq. nra.
Qed.

(** X13: [has_high_lq(x, p)] stops when [p] is outside [0,1] by more than
    the tolerance, and else returns one flag for every element of [x]: [NA]
    for a missing element, and [NA] everywhere when no element is positive;
    otherwise 0 or 1 for every number, 0 for every number that is not
    positive, 1 for a largest number, and 1 for every number that is at
    least as large as a flagged one. *)
Theorem has_high_lq_flags (x : list dbl) (p : Q) :
  (p < - eps \/ 1 + eps < p ->
   has_high_lq x p = Stops "'probs' outside [0,1]") /\
  (- eps <= p /\ p <= 1 + eps ->
   exists flags,
     has_high_lq x p = Returns flags /\ length flags = length x /\
     (forall i v, x !! i = Some v -> is_na v = true -> flags !! i = Some NA) /\
     (positive x = [] -> forall f, f ∈ flags -> f = NA) /\
     (positive x <> [] -> forall i a, x !! i = Some (Num a) ->
        (flags !! i = Some (Num 0) \/ flags !! i = Some (Num 1)) /\
        (a <= 0 -> flags !! i = Some (Num 0)) /\
        ((forall v, Num v ∈ x -> v <= a) -> flags !! i = Some (Num 1)) /\
        (forall j b, x !! j = Some (Num b) -> a <= b ->
           flags !! i = Some (Num 1) -> flags !! j = Some (Num 1)))).
Proof.
  split.
  - intros Hout. unfold has_high_lq, quantile.
    destruct (Qlt_le_dec p (- eps)) as [|Hle]; [done|].
    destruct (Qlt_le_dec (1 + eps) p) as [|Hle']; [done|]. lra.
  - intros [Hp0 Hp1].
    destruct (has_high_lq_threshold x p Hp0 Hp1) as (thr & Hret & Hnone & Hsome).
    eexists. split; [exact Hret|]. split; [apply length_fmap|].
    split; [|split].
    + intros i v Hi Hv. rewrite list_lookup_fmap, Hi. simpl.
      by destruct v.
    + intros Hpos f (v & -> & _)%list_elem_of_fmap.
      rewrite (Hnone Hpos). by destruct v.
    + intros Hpos i a Hi.
      destruct (Hsome Hpos) as (q & -> & Hq0 & Hmax).
      assert (forall j b, x !! j = Some (Num b) ->
                ((λ v, at_least v (Num q)) <$> x) !! j =
                Some (if Qle_bool q b then Num 1 else Num 0)) as Hflag
        by (intros j b Hj; by rewrite list_lookup_fmap, Hj).
      rewrite (Hflag i a Hi). split; [|split; [|split]].
      * destruct (Qle_bool q a); auto.
      * intros Ha. destruct (Qle_bool q a) eqn:Hb; [|done].
        apply Qle_bool_iff in Hb. lra.
      * intros Hall. rewrite (proj2 (Qle_bool_iff q a)); [done|].
        apply Hmax; [by eapply list_elem_of_lookup_2|done].
      * intros j b Hj Hab. rewrite (Hflag j b Hj).
        destruct (Qle_bool q a) eqn:Hb; [|done]. intros _.
        apply Qle_bool_iff in Hb.
        rewrite (proj2 (Qle_bool_iff q b)); [done|]. lra.
Qed.

Lemma has_high_lq_flags_witness :
  (exists flags,
     has_high_lq [Num 1; Num 2; Num 3; Num 4; Num 0; NA; Num (-1); Num 5]
       (3 # 4) = Returns flags /\ length flags = 8%nat) /\
  has_high_lq [Num 1] 2 = Stops "'probs' outside [0,1]".
Proof.
  split.
  - destruct (proj2 (has_high_lq_flags
                       [Num 1; Num 2; Num 3; Num 4; Num 0; NA; Num (-1); Num 5]
                       (3 # 4))) as (flags & Hret & Hlen & _).
    + split; vm_compute; discriminate.
    + by exists flags.
  - apply (proj1 (has_high_lq_flags [Num 1] 2)). right. vm_compute.
    reflexivity.
Defined.

Lemma left_join_right {A B : Type} (ka : A -> Z * string)
    (kb : B -> Z * string) (x : list A) (y : list B) (a : A) (b : B) :
  (a, Some b) ∈ left_join ka kb x y -> b ∈ y /\ kb b = ka a.
Proof.
  unfold left_join. intros (a' & Hin & _)%list_elem_of_bind.
  destruct (List.filter _ y) as [|m ms] eqn:Hf.
  - by apply list_elem_of_singleton in Hin.
  - apply list_elem_of_fmap in Hin as (b' & [= -> ->] & Hb').
    rewrite <- Hf in Hb'. apply list_elem_of_In, filter_In in Hb' as [Hb' Hk].
    split; [by apply list_elem_of_In|]. symmetry. by apply DesignFacts.key_eqb_eq.
Qed.

Lemma at_least_values (v thr : dbl) :
  at_least v thr = NA \/ at_least v thr = Num 0 \/ at_least v thr = Num 1.
Proof.
  destruct v as [| |a], thr as [| |q]; simpl; auto.
  destruct (Qle_bool q a); auto.
Qed.

(** X14: the industry intake never stops and gives one row for every
    record of the file; and whatever the other tables hold, the industry
    flag of every row of [df] built on it is 0 or 1: 0 where the county has
    no industry record or no flag. *)
Theorem industry_flag_binary (file : list industry_record) :
  exists rows,
    industry file = Returns rows /\ length rows = length file /\
    forall codes od pv r, r ∈ df codes od pv rows ->
      high_Coal_Mining_Cluster_LQ r = Num 0 \/
      high_Coal_Mining_Cluster_LQ r = Num 1.
Proof.
  unfold industry.
  destruct (has_high_lq_threshold (Coal_Mining_Cluster_LQ_value <$> file)
              (3 # 4)) as (thr & -> & _); [vm_compute; discriminate..|].
  eexists. split; [reflexivity|]. split.
  { rewrite length_zip_with, !length_fmap. lia. }
  intros codes od pv r Hr.
  apply DesignFacts.elem_of_df, DesignMore.elem_of_impute_all in Hr
    as (r0 & Hr0 & (_ & _ & _ & _ & _ & _ & -> & _) & _).
  unfold combined in Hr0. apply list_elem_of_fmap in Hr0 as (j & -> & Hj).
  destruct j as [[[k o1] o2] [b|]]; simpl; [|by left].
  unfold join_all in Hj. apply left_join_right in Hj as [Hb _].
  apply elem_of_zip_with in Hb as (rec & flag & -> & _ & Hflag). simpl.
  apply list_elem_of_fmap in Hflag as (v & -> & _).
  destruct (at_least_values v thr) as [-> | [-> | ->]]; auto.
Qed.

Lemma industry_flag_binary_witness :
  exists rows,
    industry [ {| ic_year := 2006; region := "1001";
                  Coal_Mining_Cluster_LQ_value := Num 2 |} ] = Returns rows.
Proof.
  destruct (industry_flag_binary
              [ {| ic_year := 2006; region := "1001";
                   Coal_Mining_Cluster_LQ_value := Num 2 |} ])
    as (rows & Hrows & _).
  by exists rows.
Defined.

End IntakeFacts.

(** ** The residual tables of the diagnostics *)

Module DiagnosticsFacts.
Import RVal Design Diagnostics StringOrder.

Lemma obs_zip_with (t : list df_row) (fit : list dbl) :
  length fit = length t -> obs <$> zip_with with_residuals t fit = t.
Proof.
  revert fit. induction t as [|r t IH]; intros [|f fit] Hlen;
    simplify_eq/=; [done|].
  f_equal. by apply IH.
Qed.

Lemma obs_add_fitted (t : list df_row) (fit : list dbl)
    (rows : list fitted_row) :
  add_fitted t fit = Returns rows -> obs <$> rows = t.
Proof.
  unfold add_fitted. case_bool_decide as Hlen.
  - intros [= <-]. by apply obs_zip_with.
  - destruct fit as [|f [|]]; try done. intros [= <-].
    clear Hlen. induction t as [|r t IH]; csimpl; [done|]. by f_equal.
Qed.

Lemma filter_fmap {A B : Type} (f : A -> B) (p : B -> bool) (l : list A) :
  List.filter p (f <$> l) = f <$> List.filter (λ a, p (f a)) l.
Proof.
  induction l as [|a l IH]; [done|].
  rewrite fmap_cons. cbn [List.filter]. destruct (p (f a)).
  - by rewrite fmap_cons, IH.
  - done.
Qed.

Lemma filter_all {A : Type} (p : A -> bool) (l : list A) :
  (forall a, a ∈ l -> p a = true) -> List.filter p l = l.
Proof.
  induction l as [|a l IH]; intros H; [done|]. cbn [List.filter].
  rewrite (H a) by (apply elem_of_cons; by left).
  f_equal. apply IH. intros b Hb. apply H, elem_of_cons. by right.
Qed.

Lemma filter_none {A : Type} (p : A -> bool) (l : list A) :
  (forall a, a ∈ l -> p a = false) -> List.filter p l = [].
Proof.
  induction l as [|a l IH]; intros H; [done|]. cbn [List.filter].
  rewrite (H a) by (apply elem_of_cons; by left).
  apply IH. intros b Hb. apply H, elem_of_cons. by right.
Qed.

Lemma elem_of_filter_bool {A : Type} (p : A -> bool) (l : list A) (a : A) :
  a ∈ List.filter p l <-> a ∈ l /\ p a = true.
Proof. rewrite !list_elem_of_In. apply filter_In. Qed.

(** A vector whose values are those of a strictly increasing index, made
    unique and sorted, is the index. *)
Lemma sorted_unique_index (L codes : list string) :
  StronglySorted str_lt codes ->
  (forall f, f ∈ L <-> f ∈ codes) ->
  Arrange.sort_by String.leb (SpatialGraph.unique L) = codes.
Proof.
  intros Hs Hiff.
  apply (StronglySorted_unique_strong str_le).
  - intros a b _ _ Hab Hba. by apply String.leb_antisym.
  - apply Sorted_StronglySorted.
    + intros a b c. apply SpatialGraphMore.str_le_trans.
    + apply ArrangeFacts.sort_by_Sorted. intros a b Hab.
      destruct (String.leb_total a b); congruence.
  - rewrite <- (list_fmap_id codes). eapply StronglySorted_fmap; [|done].
    intros a b Hab. apply SpatialGraphMore.str_le_lt_eq. by left.
  - rewrite ArrangeFacts.sort_by_Permutation.
    apply NoDup_Permutation.
    + apply SpatialGraphFacts.NoDup_unique_from.
    + clear Hiff. induction Hs as [|c codes Hs IH Hc]; constructor; [|done].
      intros Hin. rewrite list.Forall_forall in Hc. specialize (Hc c Hin).
      unfold str_lt in Hc.
      pose proof (String.compare_antisym c c) as Ha.
      rewrite Hc in Ha. done.
    + intros f. by rewrite SpatialGraphFacts.elem_of_unique.
Qed.

Lemma mean_NaN_iff (xs : list dbl) :
  mean xs = NaN <-> forall x, x ∈ xs -> is_na x = true.
Proof.
  split; [|apply DesignFacts.mean_all_missing].
  unfold mean. intros Hm x Hx. destruct x as [| |q]; [done|done|].
  apply DesignMore.elem_of_na_rm in Hx.
  destruct (na_rm xs); [by apply elem_of_nil in Hx|done].
Qed.

Lemma mean_not_NA (xs : list dbl) : mean xs <> NA.
Proof. unfold mean, mean_num. by destruct (na_rm xs). Qed.

Lemma training_counties (codes : list string) (od : list overdose_row)
    (pv : list poverty_row) (ind : list industry_row) (fit : list dbl)
    (rows : list fitted_row) (f : string) :
  add_fitted (df codes od pv ind) fit = Returns rows ->
  f ∈ (λ r, fips (obs r)) <$> training_rows rows <-> f ∈ codes.
Proof.
  intros Hrows. pose proof (obs_add_fitted _ _ _ Hrows) as Hobs.
  rewrite list_elem_of_fmap. split.
  - intros (r & -> & [Hr _]%elem_of_filter_bool).
    assert (obs r ∈ df codes od pv ind) as Hin
      by (rewrite <- Hobs; apply list_elem_of_fmap; by exists r).
    assert ((year (obs r), fips (obs r)) ∈ expand_grid years codes) as Hk
      by (apply (DesignFacts.design_keys codes od pv ind); by exists (obs r)).
    by apply DesignFacts.elem_of_expand_grid in Hk as [_ Hk].
  - intros Hf.
    assert ((2006, f) ∈ expand_grid years codes) as Hk.
    { apply DesignFacts.elem_of_expand_grid. split; [|done].
      apply DesignFacts.elem_of_years. lia. }
    apply (DesignFacts.design_keys codes od pv ind) in Hk
      as (r0 & Hr0 & Hy & Hf0).
    rewrite <- Hobs in Hr0. apply list_elem_of_fmap in Hr0 as (r & -> & Hr).
    exists r. split; [done|]. apply elem_of_filter_bool. split; [done|].
    apply bool_decide_eq_true. rewrite Hy. unfold TRAINING_YEARS.
    apply elem_of_seqZ. lia.
Qed.

(** X15: the table of the map of average training errors has one row for
    every county of the entity index, in the order of the index, whatever
    the three tables hold.  The value of a county is never [NA]; it is
    [NaN] exactly when every training-year residual of the county is
    missing, and otherwise a number within any bounds of the county's
    observed training-year residuals. *)
Theorem training_error_one_row_per_county (edges : list (string * string))
    (od : list overdose_row) (pv : list poverty_row)
    (ind : list industry_row) (fit : list dbl) (rows : list fitted_row) :
  add_fitted (df (SpatialGraph.fips edges) od pv ind) fit = Returns rows ->
  (average_training_error rows).*1 = SpatialGraph.fips edges /\
  forall f v, (f, v) ∈ average_training_error rows ->
    v <> NA /\
    (v = NaN <->
     forall r, r ∈ rows -> year (obs r) ∈ TRAINING_YEARS ->
       fips (obs r) = f -> is_na (residuals r) = true) /\
    forall lo hi q,
      (forall r e, r ∈ rows -> year (obs r) ∈ TRAINING_YEARS ->
         fips (obs r) = f -> residuals r = Num e -> (lo <= e /\ e <= hi)%Q) ->
      v = Num q -> (lo <= q /\ q <= hi)%Q.
Proof.
  intros Hrows. unfold average_training_error, mean_residuals. split.
  - rewrite <- list_fmap_compose.
    erewrite list_fmap_ext; [rewrite list_fmap_id|by intros ???].
    apply sorted_unique_index;
      [apply SpatialGraphMore.fips_strictly_sorted|].
    intros f. by apply (training_counties _ od pv ind fit).
  - intros f v (f' & [= -> ->] & _)%list_elem_of_fmap.
    set (xs := residuals <$> List.filter _ (training_rows rows)).
    assert (forall x, x ∈ xs <->
              exists r, r ∈ rows /\ year (obs r) ∈ TRAINING_YEARS /\
                        fips (obs r) = f' /\ residuals r = x) as Hxs.
    { intros x. unfold xs. rewrite list_elem_of_fmap. split.
      - intros (r & -> & [[Hr Hy%bool_decide_eq_true]%elem_of_filter_bool
                            Hf%String.eqb_eq]%elem_of_filter_bool).
        by exists r.
      - intros (r & Hr & Hy & Hf & <-). exists r. split; [done|].
        apply elem_of_filter_bool. split; [|by apply String.eqb_eq].
        apply elem_of_filter_bool. split; [done|].
        by apply bool_decide_eq_true. }
    split; [apply mean_not_NA|]. split.
    + rewrite mean_NaN_iff. split.
      * intros H r Hr Hy Hf. apply H, Hxs. by exists r.
      * intros H x (r & Hr & Hy & Hf & <-)%Hxs. by apply H.
    + intros lo hi q Hb Hv.
      destruct (na_rm xs) as [|q0 qs] eqn:Hna.
      { unfold mean in Hv. by rewrite Hna in Hv. }
      destruct (DesignMore.mean_within lo hi xs) as (m & Hm & Hlo & Hhi).
      * exists q0. apply DesignMore.elem_of_na_rm. rewrite Hna.
        apply elem_of_cons. by left.
      * intros e (r & Hr & Hy & Hf & He)%Hxs. by apply (Hb r e).
      * rewrite Hm in Hv. injection Hv as <-. done.
Qed.

Lemma training_error_one_row_per_county_witness :
  exists rows,
    add_fitted (df (SpatialGraph.fips Examples.mutual_edges)
                  overdose_validation_year [] []) [Num 10] = Returns rows /\
    (average_training_error rows).*1 =
      SpatialGraph.fips Examples.mutual_edges.
Proof.
  eexists. split; [vm_compute; reflexivity|].
  refine (proj1 (training_error_one_row_per_county Examples.mutual_edges
                   overdose_validation_year [] [] [Num 10] _ _)).
  vm_compute. reflexivity.
Defined.

Lemma expand_grid_app (ys1 ys2 : list Z) (codes : list string) :
  expand_grid (ys1 ++ ys2) codes =
  expand_grid ys1 codes ++ expand_grid ys2 codes.
Proof. unfold expand_grid. apply bind_app. Qed.

Lemma expand_grid_singleton (y : Z) (codes : list string) :
  expand_grid [y] codes = (λ f, (y, f)) <$> codes.
Proof. unfold expand_grid. rewrite bind_cons. apply app_nil_r. Qed.

(** X16: with keyed tables, the table with the residuals is the block of
    the training years followed by the block of the validation year: the
    validation rows are one row for every county of the entity index, in
    the order of the index, and the training rows are the grid of the 12
    training years. *)
Theorem validation_rows_follow_index (edges : list (string * string))
    (od : list overdose_row) (pv : list poverty_row)
    (ind : list industry_row) (fit : list dbl) (rows : list fitted_row) :
  NoDup (od_key <$> od) -> NoDup (pv_key <$> pv) -> NoDup (in_key <$> ind) ->
  add_fitted (df (SpatialGraph.fips edges) od pv ind) fit = Returns rows ->
  rows = training_rows rows ++ validation_rows rows /\
  (λ r, row_key (obs r)) <$> validation_rows rows =
    (λ f, (VALIDATION_YEAR, f)) <$> SpatialGraph.fips edges /\
  (λ r, row_key (obs r)) <$> training_rows rows =
    expand_grid TRAINING_YEARS (SpatialGraph.fips edges) /\
  length (training_rows rows) = (12 * length (SpatialGraph.fips edges))%nat.
Proof.
  intros Hod Hpv Hind Hrows.
  pose proof (obs_add_fitted _ _ _ Hrows) as Hobs.
  pose proof (DesignMore.row_keys_before_arrange (SpatialGraph.fips edges)
                od pv ind Hod Hpv Hind) as Hkeys.
  rewrite <- (DesignMore.df_unchanged_by_arrange edges od pv ind Hod Hpv Hind),
    <- Hobs, <- list_fmap_compose, expand_grid_app in Hkeys.
  apply fmap_app_inv in Hkeys as (l1 & l2 & H1 & H2 & ->).
  assert (training_rows (l1 ++ l2) = l1 /\ validation_rows (l1 ++ l2) = l2)
    as [Ht Hv].
  { unfold training_rows, validation_rows. rewrite !filter_app.
    assert (forall r, r ∈ l1 -> year (obs r) ∈ TRAINING_YEARS) as Hl1.
    { intros r Hr.
      assert ((year (obs r), fips (obs r)) ∈
                expand_grid TRAINING_YEARS (SpatialGraph.fips edges)) as Hk
        by (rewrite H1; apply list_elem_of_fmap; by exists r).
      by apply DesignFacts.elem_of_expand_grid in Hk as [Hk _]. }
    assert (forall r, r ∈ l2 -> year (obs r) = VALIDATION_YEAR) as Hl2.
    { intros r Hr.
      assert ((year (obs r), fips (obs r)) ∈
                expand_grid [VALIDATION_YEAR] (SpatialGraph.fips edges)) as Hk
        by (rewrite H2; apply list_elem_of_fmap; by exists r).
      apply DesignFacts.elem_of_expand_grid in Hk as [Hk _].
      by apply list_elem_of_singleton in Hk. }
    assert (VALIDATION_YEAR ∉ TRAINING_YEARS) as Hnot.
    { unfold VALIDATION_YEAR, TRAINING_YEARS. rewrite elem_of_seqZ. lia. }
    rewrite (filter_all _ l1), (filter_none _ l2), app_nil_r.
    - rewrite (filter_none _ l1), (filter_all _ l2); [done| |].
      + intros r Hr. apply Z.eqb_eq. by apply Hl2.
      + intros r Hr. apply Z.eqb_neq. intros Hy. apply Hnot.
        rewrite <- Hy. by apply Hl1.
    - intros r Hr. apply bool_decide_eq_false. by rewrite (Hl2 r Hr).
    - intros r Hr. apply bool_decide_eq_true. by apply Hl1. }
  rewrite Ht, Hv. split; [done|]. split; [|split].
  - rewrite <- expand_grid_singleton. symmetry. exact H2.
  - symmetry. exact H1.
  - replace (length l1) with
      (length (expand_grid TRAINING_YEARS (SpatialGraph.fips edges)))
      by (rewrite H1; apply length_fmap).
    by rewrite DesignMore.length_expand_grid.
Qed.

Lemma validation_rows_follow_index_witness :
  exists rows,
    add_fitted (df (SpatialGraph.fips Examples.mutual_edges)
                  overdose_validation_year [] []) [Num 10] = Returns rows /\
    rows = training_rows rows ++ validation_rows rows.
Proof.
  eexists. split; [vm_compute; reflexivity|].
  refine (proj1 (validation_rows_follow_index Examples.mutual_edges
                   overdose_validation_year [] [] [Num 10] _ _ _ _ _)).
  - apply (bool_decide_unpack _). vm_compute. exact I.
  - constructor.
  - constructor.
  - vm_compute. reflexivity.
Defined.

End DiagnosticsFacts.

(** ** What the model is given of the held-out year *)

Module FitFacts.
Import RVal Design Fit.

Lemma insert_by_fmap {A B : Type} (f : A -> B) (lebA : A -> A -> bool)
    (lebB : B -> B -> bool) (x : A) (l : list A) :
  (forall a b, lebB (f a) (f b) = lebA a b) ->
  Arrange.insert_by lebB (f x) (f <$> l) = f <$> Arrange.insert_by lebA x l.
Proof.
  intros H. induction l as [|h t IH]; [done|].
  rewrite fmap_cons. cbn [Arrange.insert_by]. rewrite H.
  destruct (lebA x h); [done|]. by rewrite fmap_cons, IH.
Qed.

Lemma sort_by_fmap {A B : Type} (f : A -> B) (lebA : A -> A -> bool)
    (lebB : B -> B -> bool) (l : list A) :
  (forall a b, lebB (f a) (f b) = lebA a b) ->
  Arrange.sort_by lebB (f <$> l) = f <$> Arrange.sort_by lebA l.
Proof.
  intros H. induction l as [|h t IH]; [done|].
  rewrite fmap_cons. unfold Arrange.sort_by in *. cbn [foldr].
  rewrite IH. by apply insert_by_fmap.
Qed.

Lemma group_of_blind (l : list df_row) (r : df_row) :
  pov_percent_all <$> group_of (blind <$> l) (blind r) =
  pov_percent_all <$> group_of l r.
Proof.
  unfold group_of.
  by rewrite DiagnosticsFacts.filter_fmap, <- list_fmap_compose.
Qed.

Lemma blind_impute (l : list df_row) : blind <$> impute l = impute (blind <$> l).
Proof.
  unfold impute.
  assert (forall l, blind <$> impute_pov_percent_all l =
                    impute_pov_percent_all (blind <$> l)) as H1.
  { intros l0. unfold impute_pov_percent_all. rewrite <- !list_fmap_compose.
    apply list_fmap_ext. intros i r _. unfold compose.
    by rewrite group_of_blind. }
  assert (forall l, blind <$> impute_pov_percent_minors l =
                    impute_pov_percent_minors (blind <$> l)) as H2.
  { intros l0. unfold impute_pov_percent_minors.
    rewrite <- !list_fmap_compose.
    apply list_fmap_ext. intros i r _. unfold compose.
    by rewrite group_of_blind. }
  assert (forall l, blind <$> impute_median_income l =
                    impute_median_income (blind <$> l)) as H3.
  { intros l0. unfold impute_median_income. rewrite <- !list_fmap_compose.
    apply list_fmap_ext. intros i r _. unfold compose.
    by rewrite group_of_blind. }
  by rewrite H3, H2, H1.
Qed.

Lemma Forall2_fmap_eq {A B C : Type} (f : A -> C) (g : B -> C)
    (l : list A) (l' : list B) :
  Forall2 (λ a b, f a = g b) l l' -> f <$> l = g <$> l'.
Proof. induction 1; csimpl; congruence. Qed.

Lemma filter_overdose (k : Z * string) (od od' : list overdose_row) :
  Forall2 same_outside_validation od od' ->
  Forall2 (λ b b', rates_agree k (Some b) (Some b'))
    (List.filter (λ b, key_eqb k (od_key b)) od)
    (List.filter (λ b, key_eqb k (od_key b)) od').
Proof.
  induction 1 as [|b b' od od' [Hk Hr] _ IH]; [constructor|].
  cbn [List.filter]. rewrite <- Hk.
  destruct (key_eqb k (od_key b)) eqn:E; [|done].
  constructor; [|done]. apply DesignFacts.key_eqb_eq in E. subst k.
  intros Hy. by apply Hr.
Qed.

Lemma left_join_overdose (grid : list (Z * string))
    (od od' : list overdose_row) :
  Forall2 same_outside_validation od od' ->
  Forall2 (λ p p', p.1 = p'.1 /\ rates_agree p.1 p.2 p'.2)
    (left_join id od_key grid od) (left_join id od_key grid od').
Proof.
  intros H. unfold left_join.
  induction grid as [|k grid IH]; [constructor|].
  rewrite !bind_cons. apply Forall2_app; [|done].
  pose proof (filter_overdose k od od' H) as Hf. unfold id.
  destruct Hf as [|b b' ms ms' Hb Hms]; [by repeat constructor|].
  rewrite !fmap_cons. constructor; [done|].
  apply Forall2_fmap_2. eapply Forall2_impl; [|exact Hms].
  intros c c' Hc. by split.
Qed.

Lemma left_join_left {A A' B : Type} (ka : A -> Z * string)
    (ka' : A' -> Z * string) (kb : B -> Z * string) (R : A -> A' -> Prop)
    (x : list A) (x' : list A') (y : list B) :
  (forall a a', R a a' -> ka a = ka' a') ->
  Forall2 R x x' ->
  Forall2 (λ p p', R p.1 p'.1 /\ p.2 = p'.2)
    (left_join ka kb x y) (left_join ka' kb x' y).
Proof.
  intros Hk H. unfold left_join. apply Forall2_bind.
  eapply Forall2_impl; [|exact H]. intros a a' Ha. cbn beta.
  rewrite <- (Hk a a' Ha).
  destruct (List.filter _ y) as [|m ms]; [by repeat constructor|].
  apply Forall2_fmap_2, Forall_Forall2_diag, list.Forall_forall.
  intros b _. by split.
Qed.

Lemma blind_combined (codes : list string) (od od' : list overdose_row)
    (pv : list poverty_row) (ind : list industry_row) :
  Forall2 same_outside_validation od od' ->
  blind <$> combined codes od pv ind = blind <$> combined codes od' pv ind.
Proof.
  intros H. unfold combined, join_all. rewrite <- !list_fmap_compose.
  apply Forall2_fmap_eq. eapply Forall2_impl; cycle 1.
  - apply (left_join_left (λ r, r.1.1) (λ r, r.1.1) in_key
             (λ p p', (p.1.1 = p'.1.1 /\ rates_agree p.1.1 p.1.2 p'.1.2) /\
                      p.2 = p'.2)).
    + by intros a a' [[Hk _] _].
    + apply (left_join_left fst fst pv_key
               (λ p p', p.1 = p'.1 /\ rates_agree p.1 p.2 p'.2)).
      * by intros a a' [Hk _].
      * by apply left_join_overdose.
  - intros [[[k o1] o2] o3] [[[k' o1'] o2'] o3'] [[[Hk Hr] H2] H3].
    cbn [fst snd] in *. subst k' o2' o3'.
    unfold compose, blind, mutate_row. cbn.
    destruct (Z.eqb_spec k.1 VALIDATION_YEAR) as [|Hy]; [done|].
    destruct o1 as [b|], o1' as [b'|]; cbn in *; try done.
    by rewrite (Hr Hy).
Qed.

(** X17: the columns that the model formula names, and the order and keys
    of the rows, do not depend on the death rates recorded for the
    validation year: two overdose tables with the same records up to those
    rates (and the county names) give the same data for the fit. *)
Theorem held_out_rates_not_read (codes : list string)
    (od od' : list overdose_row) (pv : list poverty_row)
    (ind : list industry_row) :
  Forall2 same_outside_validation od od' ->
  formula_columns <$> df codes od pv ind =
    formula_columns <$> df codes od' pv ind /\
  row_key <$> df codes od pv ind = row_key <$> df codes od' pv ind.
Proof.
  intros H.
  assert (blind <$> df codes od pv ind = blind <$> df codes od' pv ind)
    as Hb.
  { unfold df. rewrite <- !(sort_by_fmap blind row_leb row_leb) by done.
    rewrite !blind_impute. by rewrite (blind_combined codes od od' pv ind H). }
  assert (forall l, formula_columns <$> l = formula_columns <$> (blind <$> l))
    as Hc by (intros l; by rewrite <- list_fmap_compose).
  assert (forall l, row_key <$> l = row_key <$> (blind <$> l))
    as Hk by (intros l; by rewrite <- list_fmap_compose).
  split.
  - by rewrite (Hc (df codes od pv ind)), (Hc (df codes od' pv ind)), Hb.
  - by rewrite (Hk (df codes od pv ind)), (Hk (df codes od' pv ind)), Hb.
Qed.

Lemma held_out_rates_not_read_witness :
  formula_columns <$> df ["01001"] overdose_validation_year [] [] =
  formula_columns <$>
    df ["01001"]
      [ {| od_year := 2018; od_fips := "01001";
           od_county := "Autauga County"; od_death_rate := Num 99 |} ]
      [] [].
Proof.
  refine (proj1 (held_out_rates_not_read ["01001"] overdose_validation_year
                   [_] [] [] _)).
  repeat constructor. intros Hy. exfalso. by apply Hy.
Defined.

End FitFacts.

(** ** The bins of the conditional percentiles *)

Module BinningFacts.
Import RVal Binning.
Local Open Scope Q_scope.

Lemma numbers_Num (xs : list Q) : numbers (Num <$> xs) = Some xs.
Proof.
  induction xs as [|q xs IH]; [done|].
  rewrite fmap_cons. cbn [numbers]. by rewrite IH.
Qed.

Lemma numbers_missing (x : list dbl) :
  (exists v, v ∈ x /\ is_na v = true) -> numbers x = None.
Proof.
  intros (v & Hv & Hna). induction x as [|a x IH]; [by apply elem_of_nil in Hv|].
  apply elem_of_cons in Hv as [<-|Hv].
  - by destruct v.
  - cbn [numbers]. destruct a; [done|done|]. by rewrite (IH Hv).
Qed.

Lemma numbers_Some (x : list dbl) (xs : list Q) :
  numbers x = Some xs -> x = Num <$> xs.
Proof.
  revert xs. induction x as [|a x IH]; intros xs.
  - by intros [= <-].
  - cbn [numbers]. destruct a as [| |q]; [done|done|].
    destruct (numbers x) as [xs'|]; [|done]. intros [= <-].
    by rewrite fmap_cons, <- (IH xs').
Qed.

Lemma pmin_le (a b : Q) :
  Intake.pmin a b <= a /\ Intake.pmin a b <= b.
Proof.
  unfold Intake.pmin. destruct (Qle_bool a b) eqn:E.
  - apply Qle_bool_iff in E. split; [apply Qle_refl|done].
  - split; [|apply Qle_refl].
    destruct (Qlt_le_dec b a) as [H|H]; [by apply Qlt_le_weak|].
    apply Qle_bool_iff in H. congruence.
Qed.

Lemma pmax_ge (a b : Q) :
  a <= Intake.pmax a b /\ b <= Intake.pmax a b.
Proof.
  unfold Intake.pmax. destruct (Qle_bool a b) eqn:E.
  - apply Qle_bool_iff in E. split; [done|apply Qle_refl].
  - split; [apply Qle_refl|].
    destruct (Qlt_le_dec b a) as [H|H]; [by apply Qlt_le_weak|].
    apply Qle_bool_iff in H. congruence.
Qed.

Lemma min_of_le (q : Q) (qs : list Q) (v : Q) :
  v ∈ q :: qs -> min_of q qs <= v.
Proof.
  unfold min_of. induction qs as [|a qs IH]; cbn [foldr].
  - intros ->%list_elem_of_singleton. apply Qle_refl.
  - destruct (pmin_le a (foldr Intake.pmin q qs)) as [H1 H2].
    rewrite !elem_of_cons. intros [->|[->|Hv]].
    + eapply Qle_trans; [exact H2|]. apply IH, elem_of_cons. by left.
    + done.
    + eapply Qle_trans; [exact H2|]. apply IH, elem_of_cons. by right.
Qed.

Lemma max_of_ge (q : Q) (qs : list Q) (v : Q) :
  v ∈ q :: qs -> v <= max_of q qs.
Proof.
  unfold max_of. induction qs as [|a qs IH]; cbn [foldr].
  - intros ->%list_elem_of_singleton. apply Qle_refl.
  - destruct (pmax_ge a (foldr Intake.pmax q qs)) as [H1 H2].
    rewrite !elem_of_cons. intros [->|[->|Hv]].
    + eapply Qle_trans; [|exact H2]. apply IH, elem_of_cons. by left.
    + done.
    + eapply Qle_trans; [|exact H2]. apply IH, elem_of_cons. by right.
Qed.

(** The whole numbers around the values: every value is between them. *)
Lemma floor_ceiling_bounds (q : Q) (qs : list Q) (v : Q) :
  v ∈ q :: qs ->
  inject_Z (Qfloor (min_of q qs)) <= v /\
  v <= inject_Z (Qceiling (max_of q qs)).
Proof.
  intros Hv. split.
  - eapply Qle_trans; [apply Qfloor_le|]. by apply min_of_le.
  - eapply Qle_trans; [|apply Qle_ceiling]. by apply max_of_ge.
Qed.

Lemma Qle_bool_false (a b : Q) : Qle_bool a b = false -> b < a.
Proof.
  intros E. destruct (Qlt_le_dec b a) as [H|H]; [done|].
  apply Qle_bool_iff in H. congruence.
Qed.

Lemma inject_nat_lt (i j : nat) :
  (i < j)%nat -> inject_Z (Z.of_nat i) < inject_Z (Z.of_nat j).
Proof. intros H. rewrite <- Zlt_Qlt. lia. Qed.

Lemma inject_nat_S (i : nat) :
  inject_Z (Z.of_nat (S i)) == inject_Z (Z.of_nat i) + 1.
Proof. rewrite Nat2Z.inj_succ. unfold Z.succ. by rewrite inject_Z_plus. Qed.

(** *** The breaks *)

Section breaks.
Variables (from to : Z) (m : nat).
Hypothesis from_lt_to : (from < to)%Z.

Local Abbreviation N := (inject_Z (Z.of_nat (S m))).
Local Abbreviation w := (width from to (S m)).
Local Abbreviation B := (seq_length_out from to (S (S m))).

Lemma breaks_N_pos : 0 < N.
Proof. change 0 with (inject_Z 0). rewrite <- Zlt_Qlt. lia. Qed.

Lemma breaks_w_pos : 0 < w.
Proof.
  unfold width. apply Qlt_shift_div_l; [apply breaks_N_pos|].
  rewrite Qmult_0_l. assert (inject_Z from < inject_Z to) as H
    by by rewrite <- Zlt_Qlt.
  lra.
Qed.

Lemma breaks_eq :
  B = inject_Z from ::
      ((λ i : nat, inject_Z from + inject_Z (Z.of_nat i) * w) <$> seq 1 m) ++
      [inject_Z to].
Proof.
  unfold seq_length_out.
  assert ((from =? to)%Z = false) as -> by (apply Z.eqb_neq; lia).
  by replace (S (S m) - 2)%nat with m by lia.
Qed.

Lemma length_breaks : length B = S (S m).
Proof.
  rewrite breaks_eq. cbn [length].
  rewrite length_app, length_fmap, length_seq. simpl. lia.
Qed.

Lemma breaks_lookup (i : nat) :
  (i <= S m)%nat ->
  exists b, B !! i = Some b /\ b == inject_Z from + inject_Z (Z.of_nat i) * w.
Proof.
  intros Hi. rewrite breaks_eq. destruct i as [|i].
  - exists (inject_Z from). split; [done|].
    change (inject_Z (Z.of_nat 0)) with 0. ring.
  - rewrite lookup_cons. destruct (decide (i < m)%nat) as [Hlt|Hge].
    + eexists. split.
      * rewrite lookup_app_l by (by rewrite length_fmap, length_seq).
        rewrite list_lookup_fmap, lookup_seq_lt by done. reflexivity.
      * reflexivity.
    + assert (i = m) as -> by lia.
      exists (inject_Z to). split.
      * rewrite lookup_app_r by (rewrite length_fmap, length_seq; lia).
        rewrite length_fmap, length_seq.
        by replace (m - m)%nat with 0%nat by lia.
      * unfold width. pose proof breaks_N_pos as HN. field.
        intros H0. rewrite H0 in HN. by apply Qlt_irrefl in HN.
Qed.

Lemma breaks_last : B !! S m = Some (inject_Z to).
Proof.
  rewrite breaks_eq, lookup_cons.
  rewrite lookup_app_r by (rewrite length_fmap, length_seq; lia).
  rewrite length_fmap, length_seq.
  by replace (m - m)%nat with 0%nat by lia.
Qed.

Lemma breaks_lookup_Some (i : nat) (b : Q) :
  B !! i = Some b ->
  (i <= S m)%nat /\ b == inject_Z from + inject_Z (Z.of_nat i) * w.
Proof.
  intros Hb.
  assert (i <= S m)%nat as Hi.
  { apply lookup_lt_Some in Hb. rewrite length_breaks in Hb. lia. }
  split; [done|]. destruct (breaks_lookup i Hi) as (b' & Hb' & Heq).
  by simplify_eq.
Qed.

Lemma breaks_increasing (i j : nat) (a b : Q) :
  (i < j)%nat -> B !! i = Some a -> B !! j = Some b -> a < b.
Proof.
  intros Hij [_ Ha]%breaks_lookup_Some [_ Hb]%breaks_lookup_Some.
  rewrite Ha, Hb. pose proof breaks_w_pos as Hw.
  pose proof (inject_nat_lt i j Hij) as Hlt.
  generalize dependent (inject_Z (Z.of_nat i)).
  generalize dependent (inject_Z (Z.of_nat j)). intros. nra.
Qed.

Lemma breaks_step (i : nat) (lo hi : Q) :
  B !! i = Some lo -> B !! S i = Some hi ->
  (i < S m)%nat /\
  lo == inject_Z from + inject_Z (Z.of_nat i) * w /\ hi - lo == w.
Proof.
  intros [_ Ha]%breaks_lookup_Some [Hi Hb]%breaks_lookup_Some.
  split; [lia|]. split; [done|]. rewrite Ha, Hb, inject_nat_S. ring.
Qed.

End breaks.

(** *** Sorted breaks without duplicates *)

Lemma Sorted_lookup {A : Type} (R : A -> A -> Prop) (l : list A) :
  (forall i a b, l !! i = Some a -> l !! S i = Some b -> R a b) ->
  Sorted R l.
Proof.
  induction l as [|x l IH]; intros H; constructor.
  - apply IH. intros i a b Ha Hb. by apply (H (S i)).
  - destruct l as [|y l]; constructor. by apply (H 0%nat).
Qed.

Lemma any_duplicated_lookup (l : list Q) :
  any_duplicated l = true ->
  exists i j a b,
    (i < j)%nat /\ l !! i = Some a /\ l !! j = Some b /\ a == b.
Proof.
  induction l as [|a l IH]; [done|]. cbn [any_duplicated].
  intros [H|H]%orb_true_iff.
  - apply existsb_exists in H as (b & Hin & Heq%Qeq_bool_iff).
    apply list_elem_of_In, list_elem_of_lookup in Hin as [j Hj].
    exists 0%nat, (S j), a, b. repeat split; [lia|done..].
  - destruct (IH H) as (i & j & a' & b' & Hij & Hi & Hj & Heq).
    exists (S i), (S j), a', b'. repeat split; [lia|done..].
Qed.

Lemma breaks_sorted (from to : Z) (m : nat) :
  (from < to)%Z -> Qsort (seq_length_out from to (S (S m))) =
                   seq_length_out from to (S (S m)).
Proof.
  intros Hlt. unfold Qsort. apply DesignMore.sort_by_sorted, Sorted_lookup.
  intros i a b Ha Hb. apply Qle_bool_iff, Qlt_le_weak.
  apply (breaks_increasing from to m Hlt i (S i)); [lia|done..].
Qed.

Lemma breaks_unique (from to : Z) (m : nat) :
  (from < to)%Z -> any_duplicated (seq_length_out from to (S (S m))) = false.
Proof.
  intros Hlt. apply not_true_is_false.
  intros (i & j & a & b & Hij & Ha & Hb & Heq)%any_duplicated_lookup.
  pose proof (breaks_increasing from to m Hlt i j a b Hij Ha Hb) as H.
  rewrite Heq in H. by apply Qlt_irrefl in H.
Qed.

(** *** The labels *)

Lemma length_midpoints (l : list Q) :
  length (midpoints l) = (length l - 1)%nat.
Proof.
  unfold midpoints, diff. rewrite !length_zip_with, length_take.
  destruct l as [|a l]; [done|]. cbn [tail length]. lia.
Qed.

Lemma midpoints_lookup (l : list Q) (i : nat) (lo hi : Q) :
  l !! i = Some lo -> l !! S i = Some hi ->
  midpoints l !! i = Some (lo + (1 # 2) * (hi - lo)).
Proof.
  intros Hlo Hhi. unfold midpoints, diff.
  assert (S i < length l)%nat as Hlen by by apply lookup_lt_Some in Hhi.
  rewrite lookup_zip_with, lookup_take_lt by lia.
  rewrite Hlo. cbn [mbind option_bind].
  by rewrite lookup_zip_with, Hlo, lookup_tail, Hhi.
Qed.

(** *** The interval of a value *)

Lemma bincode_cons (first : bool) (v lo hi : Q) (rest : list Q) :
  bincode first v (lo :: hi :: rest) =
  if (negb (Qle_bool v lo) && Qle_bool v hi) || (first && Qeq_bool v lo)
  then Some 0%nat
  else S <$> bincode false v (hi :: rest).
Proof. done. Qed.

(** A value between the lowest and the highest of nondecreasing breaks has
    an interval, and the interval holds it. *)
Lemma bincode_covers (first : bool) (v : Q) (breaks : list Q) (b0 bl : Q) :
  (forall i a b, breaks !! i = Some a -> breaks !! S i = Some b -> a <= b) ->
  head breaks = Some b0 -> breaks !! (length breaks - 1)%nat = Some bl ->
  (if first then b0 <= v else b0 < v) -> v <= bl ->
  (2 <= length breaks)%nat ->
  exists i lo hi,
    bincode first v breaks = Some i /\ breaks !! i = Some lo /\
    breaks !! S i = Some hi /\ lo <= v /\ v <= hi.
Proof.
  revert first b0.
  induction breaks as [|lo [|hi rest] IH]; intros first b0 Hnd Hhd Hla Hlo Hhi
    Hlen; [simpl in Hlen; lia..|].
  injection Hhd as <-. rewrite bincode_cons.
  destruct ((negb (Qle_bool v lo) && Qle_bool v hi) ||
            (first && Qeq_bool v lo)) eqn:E.
  - exists 0%nat, lo, hi. repeat split; try done.
    + apply orb_true_iff in E as [[E1 E2]%andb_true_iff|[E1 E2]%andb_true_iff].
      * apply negb_true_iff, Qle_bool_false in E1. by apply Qlt_le_weak.
      * apply Qeq_bool_iff in E2. rewrite E2. apply Qle_refl.
    + apply orb_true_iff in E as [[E1 E2]%andb_true_iff|[E1 E2]%andb_true_iff].
      * by apply Qle_bool_iff.
      * apply Qeq_bool_iff in E2. rewrite E2. by apply (Hnd 0%nat).
  - apply orb_false_iff in E as [E1 E2].
    assert (lo < v) as Hlt.
    { destruct first; [|done]. cbn [andb] in E2.
      apply Qle_lt_or_eq in Hlo as [Hlo|Hlo]; [done|].
      symmetry in Hlo. apply Qeq_bool_iff in Hlo. congruence. }
    assert (hi < v) as Hhv.
    { apply andb_false_iff in E1 as [E1|E1].
      - apply negb_false_iff, Qle_bool_iff in E1. lra.
      - by apply Qle_bool_false. }
    destruct rest as [|b2 rest].
    { cbn in Hla. injection Hla as <-. lra. }
    assert ((hi :: b2 :: rest) !! (length (hi :: b2 :: rest) - 1)%nat = Some bl)
      as Hla'.
    { rewrite <- Hla. cbn [length].
      by replace (S (S (S (length rest))) - 1)%nat
        with (S (S (S (length rest)) - 1))%nat by lia. }
    destruct (IH false hi) as (i & lo' & hi' & Hb & Hi1 & Hi2 & H1 & H2).
    + intros i a b Ha Hb. by apply (Hnd (S i)).
    + done.
    + exact Hla'.
    + done.
    + done.
    + simpl. lia.
    + exists (S i), lo', hi'. rewrite Hb. repeat split; done.
Qed.

(** [cut] on the breaks made for the values: every value gets the middle
    of an interval that holds it. *)
Lemma cut_returns (from to : Z) (m : nat) (xs : list Q) :
  (from < to)%Z ->
  (forall v, v ∈ xs -> inject_Z from <= v /\ v <= inject_Z to) ->
  let breaks := seq_length_out from to (S (S m)) in
  exists bins,
    cut xs breaks (midpoints breaks) = Returns (Num <$> bins) /\
    Forall2 (λ v mid, exists i lo hi,
               breaks !! i = Some lo /\ breaks !! S i = Some hi /\
               lo <= v /\ v <= hi /\ mid = lo + (1 # 2) * (hi - lo))
      xs bins.
Proof.
  intros Hlt Hxs breaks. subst breaks. unfold cut.
  rewrite (breaks_sorted from to m Hlt), (breaks_unique from to m Hlt).
  set (breaks := seq_length_out from to (S (S m))). rewrite bool_decide_eq_true_2 by apply length_midpoints.
  assert (forall v, v ∈ xs ->
            exists i lo hi,
              bincode true v breaks = Some i /\ breaks !! i = Some lo /\
              breaks !! S i = Some hi /\ lo <= v /\ v <= hi) as Hcode.
  { intros v [Hv1 Hv2]%Hxs.
    apply (bincode_covers true v breaks (inject_Z from) (inject_Z to));
      try done.
    - intros i a b Ha Hb. apply Qlt_le_weak.
      apply (breaks_increasing from to m Hlt i (S i)); [lia|done..].
    - unfold breaks. by rewrite breaks_eq.
    - unfold breaks. rewrite length_breaks by done.
      replace (S (S m) - 1)%nat with (S m) by lia. by apply breaks_last.
    - unfold breaks. rewrite length_breaks by done. lia. }
  clear Hxs. induction xs as [|v xs IH].
  - exists []. split; [done|constructor].
  - destruct IH as (bins & Hret & Hall).
    { intros u Hu. apply Hcode, elem_of_cons. by right. }
    destruct (Hcode v) as (i & lo & hi & Hb & Hi1 & Hi2 & H1 & H2).
    { apply elem_of_cons. by left. }
    exists ((lo + (1 # 2) * (hi - lo)) :: bins). split.
    + injection Hret as Hret. rewrite !fmap_cons, Hret, Hb.
      by rewrite (midpoints_lookup breaks i lo hi Hi1 Hi2).
    + constructor; [|done]. by exists i, lo, hi.
Qed.

(** *** The table and its groups *)

Lemma tibble_same_length {A B : Type} (a : list A) (b : list B) :
  length a = length b -> tibble a b = Returns (zip a b).
Proof. intros H. unfold tibble. by rewrite bool_decide_eq_true_2. Qed.

Lemma collect_all {A : Type} (l : list (outcome A)) :
  (forall o, o ∈ l -> exists a, o = Returns a) ->
  exists r, collect l = Returns r /\ Forall2 (λ o a, o = Returns a) l r.
Proof.
  induction l as [|o l IH]; intros H.
  - exists []. split; [done|constructor].
  - destruct (H o) as [a ->]; [apply elem_of_cons; by left|].
    destruct IH as (r & Hr & Hall).
    { intros o' Ho'. apply H, elem_of_cons. by right. }
    exists (a :: r). split; [|by constructor].
    cbn [collect and_then]. by rewrite Hr.
Qed.

Lemma elem_of_distinct (a : Q) (l : list Q) : a ∈ distinct l -> a ∈ l.
Proof.
  induction l as [|h t IH]; [done|]. cbn [distinct].
  rewrite !elem_of_cons. intros [->|Ha]; [by left|]. right.
  by apply DiagnosticsFacts.elem_of_filter_bool in Ha as [Ha%IH _].
Qed.

Lemma distinct_complete (a : Q) (l : list Q) :
  a ∈ l -> exists a', a' ∈ distinct l /\ a' == a.
Proof.
  induction l as [|h t IH]; [by intros ?%elem_of_nil|].
  cbn [distinct]. intros [->|Ha]%elem_of_cons.
  - exists h. split; [apply elem_of_cons; by left|reflexivity].
  - destruct (IH Ha) as (a' & Ha' & Heq).
    destruct (Qeq_bool h a') eqn:E.
    + apply Qeq_bool_iff in E. exists h.
      split; [apply elem_of_cons; by left|]. by rewrite E.
    + exists a'. split; [|done]. apply elem_of_cons. right.
      apply DiagnosticsFacts.elem_of_filter_bool. split; [done|].
      by rewrite E.
Qed.

Lemma na_rm_Num (l : list Q) : na_rm (Num <$> l) = l.
Proof.
  induction l as [|q l IH]; [done|].
  rewrite fmap_cons. cbn [na_rm]. by rewrite IH.
Qed.

Lemma group_keys_Num (l : list Q) :
  group_keys (Num <$> l) = Num <$> Qsort (distinct l).
Proof.
  unfold group_keys. rewrite na_rm_Num.
  assert (existsb is_na (Num <$> l) = false) as ->.
  { induction l as [|q l IH]; [done|]. by rewrite fmap_cons. }
  apply app_nil_r.
Qed.

Lemma combination_within (lo hi u v h q : Q) :
  lo <= u -> u <= hi -> lo <= v -> v <= hi -> 0 <= h -> h <= 1 ->
  q == (1 - h) * u + h * v -> lo <= q /\ q <= hi.
Proof.
  intros Hu1 Hu2 Hv1 Hv2 Hh0 Hh1 ->.
  assert (0 <= (1 - h) * (u - lo)) by (apply Qmult_le_0_compat; lra).
  assert (0 <= h * (v - lo)) by (apply Qmult_le_0_compat; lra).
  assert (0 <= (1 - h) * (hi - u)) by (apply Qmult_le_0_compat; lra).
  assert (0 <= h * (hi - v)) by (apply Qmult_le_0_compat; lra).
  split; lra.
Qed.

Lemma probabilities_in_range (p : Q) :
  p ∈ probabilities -> - Intake.eps <= p /\ p <= 1 + Intake.eps.
Proof.
  unfold probabilities. rewrite !elem_of_cons, elem_of_nil.
  intros [->|[->|[->|[->|[->|[]]]]]]; split; by vm_compute.
Qed.

Local Ltac in_list :=
  repeat (apply elem_of_cons; first [by left | right]).

(** The five rows of the group of one label. *)
Lemma summarise_group_returns (bins ys : list Q) (k : Q) :
  length bins = length ys -> k ∈ bins ->
  exists g,
    summarise_group (zip (Num <$> bins) ys) (Num k) = Returns g /\
    length g = 5%nat /\
    forall r, r ∈ g ->
      x_bins r = Num k /\
      (1 <= length_y r)%nat /\ (length_y r <= length ys)%nat /\
      probs r ∈ probabilities /\
      exists q, quantiles r = Num q /\
        forall lo hi, (forall y, y ∈ ys -> lo <= y /\ y <= hi) ->
          lo <= q /\ q <= hi.
Proof.
  intros Hlen Hk. unfold summarise_group.
  set (t := zip (Num <$> bins) ys).
  set (y := (List.filter (λ r, same_bin r.1 (Num k)) t).*2).
  assert (forall v, v ∈ y -> v ∈ ys) as Hsub.
  { intros v ([b v'] & -> & [Hin _]%DiagnosticsFacts.elem_of_filter_bool)
      %list_elem_of_fmap.
    by apply elem_of_zip_r in Hin. }
  assert (y <> []) as Hne.
  { apply list_elem_of_lookup in Hk as [j Hj].
    destruct (lookup_lt_is_Some_2 ys j) as [v Hv].
    { rewrite <- Hlen. by apply lookup_lt_Some in Hj. }
    assert (v ∈ y) as Hin.
    { apply list_elem_of_fmap. exists (Num k, v). split; [done|].
      apply DiagnosticsFacts.elem_of_filter_bool. split.
      - apply (list_elem_of_lookup_2 _ j). apply lookup_zip_Some.
        split; [|done]. by rewrite list_lookup_fmap, Hj.
      - cbn. apply Qeq_bool_iff. reflexivity. }
    intros Hy. rewrite Hy in Hin. by apply elem_of_nil in Hin. }
  assert (length y <= length ys)%nat as Hle.
  { unfold y. rewrite length_fmap.
    etrans; [apply filter_length_le|]. unfold t.
    rewrite length_zip, length_fmap. lia. }
  assert (forall p, p ∈ probabilities ->
            exists q, Intake.quantile y p = Returns (Num q) /\
              forall lo hi, (forall v, v ∈ ys -> lo <= v /\ v <= hi) ->
                lo <= q /\ q <= hi) as Hq.
  { intros p [Hp0 Hp1]%probabilities_in_range.
    destruct (IntakeFacts.quantile_between y p Hne Hp0 Hp1)
      as (q & u & v & h & Hret & Hu & Hv & Hh0 & Hh1 & Heq).
    exists q. split; [done|]. intros lo hi Hb.
    destruct (Hb u (Hsub u Hu)), (Hb v (Hsub v Hv)).
    by apply (combination_within lo hi u v h q). }
  assert (exists q1 q2 q3 q4 q5,
            Intake.quantile y <$> probabilities =
            Returns <$> (Num <$> [q1; q2; q3; q4; q5]) /\
            Forall (λ q, forall lo hi,
                      (forall v, v ∈ ys -> lo <= v /\ v <= hi) ->
                      lo <= q /\ q <= hi) [q1; q2; q3; q4; q5])
    as (q1 & q2 & q3 & q4 & q5 & -> & Hall).
  { unfold probabilities in *.
    destruct (Hq (1 # 10)) as (q1 & H1 & B1); [in_list|].
    destruct (Hq (1 # 4)) as (q2 & H2 & B2); [in_list|].
    destruct (Hq (1 # 2)) as (q3 & H3 & B3); [in_list|].
    destruct (Hq (3 # 4)) as (q4 & H4 & B4); [in_list|].
    destruct (Hq (9 # 10)) as (q5 & H5 & B5); [in_list|].
    exists q1, q2, q3, q4, q5. split.
    - rewrite !fmap_cons, H1, H2, H3, H4, H5. done.
    - repeat (apply Forall_cons_2; [assumption|]). apply Forall_nil_2. }
  eexists. split; [reflexivity|]. split; [done|].
  intros r Hr. cbn in Hr.
  assert (1 <= length y)%nat as Hpos
    by (destruct y; [done|simpl; lia]).
  rewrite !list.Forall_cons in Hall.
  destruct Hall as (B1 & B2 & B3 & B4 & B5 & _).
  rewrite !elem_of_cons, elem_of_nil in Hr.
  destruct Hr as [->|[->|[->|[->|[->|[]]]]]]; cbn;
    (split; [done|]); (split; [done|]); (split; [done|]);
    (split; [unfold probabilities; in_list|]); eauto.
Qed.

Lemma summarise_returns (bins ys : list Q) :
  length bins = length ys ->
  exists rows,
    summarise (zip (Num <$> bins) ys) = Returns rows /\
    (forall k, k ∈ bins ->
       exists r k', r ∈ rows /\ x_bins r = Num k' /\ k' == k) /\
    (forall r, r ∈ rows ->
       exists k, k ∈ bins /\ x_bins r = Num k /\
         (1 <= length_y r)%nat /\ (length_y r <= length ys)%nat /\
         probs r ∈ probabilities /\
         exists q, quantiles r = Num q /\
           forall lo hi, (forall y, y ∈ ys -> lo <= y /\ y <= hi) ->
             lo <= q /\ q <= hi).
Proof.
  intros Hlen. unfold summarise.
  rewrite fst_zip by (rewrite length_fmap; lia).
  rewrite group_keys_Num.
  set (t := zip (Num <$> bins) ys). set (keys := Qsort (distinct bins)).
  assert (forall k, k ∈ keys -> k ∈ bins) as Hkeys.
  { intros k Hk. by apply elem_of_distinct, IntakeFacts.elem_of_Qsort. }
  destruct (collect_all (summarise_group t <$> (Num <$> keys)))
    as (groups & -> & Hall).
  { intros o (kd & -> & (k & -> & Hk)%list_elem_of_fmap)%list_elem_of_fmap.
    destruct (summarise_group_returns bins ys k Hlen (Hkeys k Hk))
      as (g & Hg & _).
    by exists g. }
  exists (concat groups). split; [done|]. split.
  - intros k Hk. destruct (distinct_complete k bins Hk) as (k' & Hk' & Heq).
    assert (k' ∈ keys) as Hin by by apply IntakeFacts.elem_of_Qsort.
    pose proof Hin as [j Hj]%list_elem_of_lookup.
    destruct (Forall2_lookup_l _ _ _ j (summarise_group t (Num k')) Hall)
      as (g & Hgj & Hg).
    { by rewrite !list_lookup_fmap, Hj. }
    destruct (summarise_group_returns bins ys k' Hlen (Hkeys k' Hin))
      as (g' & Hg' & Hlen5 & Hrows).
    fold t in Hg'. rewrite Hg' in Hg. injection Hg as ->.
    destruct g as [|r g]; [done|]. exists r, k'. split.
    + apply list_elem_of_In, in_concat. exists (r :: g).
      split; [|by left]. apply list_elem_of_In.
      by apply (list_elem_of_lookup_2 _ j).
    + split; [|done]. apply Hrows, elem_of_cons. by left.
  - intros r (g & Hg & Hr)%list_elem_of_In%in_concat.
    apply list_elem_of_In, list_elem_of_lookup in Hg as [j Hj].
    destruct (Forall2_lookup_r _ _ _ j g Hall Hj) as (o & Ho & ->).
    rewrite !list_lookup_fmap in Ho.
    destruct (keys !! j) as [k|] eqn:Hk; [|done]. injection Ho as Ho.
    assert (k ∈ keys) as Hin by by apply (list_elem_of_lookup_2 _ j).
    destruct (summarise_group_returns bins ys k Hlen (Hkeys k Hin))
      as (g' & Hg' & _ & Hrows).
    fold t in Hg'. rewrite Hg' in Ho. injection Ho as ->.
    apply list_elem_of_In in Hr.
    destruct (Hrows r Hr) as (H1 & H2 & H3 & H4 & H5).
    exists k. by repeat split; try apply Hkeys.
Qed.

(** X18: [calculate_conditional_quantiles] on observations and predictions
    without a missing value, of one length and with two different values
    among them, for at least one bin.  It returns; every observation lies
    in one of the [n_bins] intervals of equal width between the whole
    numbers around all the values, and the result has a row labelled with
    the middle of that interval.  Every row stands for an interval that
    holds an observation, no more than half a width from its label, counts
    at least one and at most all of the predictions, and gives a quantile
    within any bounds of the predictions. *)
Theorem every_observation_has_a_bin (xs ys : list Q) (n_bins : nat) :
  length xs = length ys -> n_bins <> 0%nat ->
  (exists a b, a ∈ xs ++ ys /\ b ∈ xs ++ ys /\ a < b) ->
  exists rows (from to : Z),
    calculate_conditional_quantiles (Num <$> xs) (Num <$> ys) n_bins =
      Returns rows /\
    (from < to)%Z /\
    (forall v, v ∈ xs ++ ys -> inject_Z from <= v /\ v <= inject_Z to) /\
    (forall v, v ∈ xs ->
       exists r mid (i : nat),
         r ∈ rows /\ x_bins r = Num mid /\ (i < n_bins)%nat /\
         inject_Z from + inject_Z (Z.of_nat i) * width from to n_bins <= v /\
         v <= inject_Z from +
              (inject_Z (Z.of_nat i) + 1) * width from to n_bins /\
         mid == inject_Z from +
                (inject_Z (Z.of_nat i) + (1 # 2)) * width from to n_bins) /\
    (forall r, r ∈ rows ->
       (1 <= length_y r)%nat /\ (length_y r <= length ys)%nat /\
       probs r ∈ probabilities /\
       (exists v mid, v ∈ xs /\ x_bins r = Num mid /\
          Qabs (v - mid) <= (1 # 2) * width from to n_bins) /\
       exists q, quantiles r = Num q /\
         forall lo hi, (forall y, y ∈ ys -> lo <= y /\ y <= hi) ->
           lo <= q /\ q <= hi).
Proof.
  intros Hlen Hn (a & b & Ha & Hb & Hab).
  unfold calculate_conditional_quantiles. rewrite !numbers_Num.
  destruct (xs ++ ys) as [|v0 v] eqn:Hv; [by apply elem_of_nil in Ha|].
  set (from := Qfloor (min_of v0 v)). set (to := Qceiling (max_of v0 v)).
  assert (forall u, u ∈ v0 :: v -> inject_Z from <= u /\ u <= inject_Z to)
    as Hbounds by (intros u Hu; by apply floor_ceiling_bounds).
  assert (from < to)%Z as Hlt.
  { rewrite Zlt_Qlt. destruct (Hbounds a Ha), (Hbounds b Hb). lra. }
  destruct n_bins as [|m]; [done|].
  replace (S m + 1)%nat with (S (S m)) by lia.
  destruct (cut_returns from to m xs Hlt) as (bins & -> & Hall).
  { intros u Hu. apply Hbounds. rewrite <- Hv. apply elem_of_app. by left. }
  pose proof (Forall2_length Hall) as Hlen'.
  cbn [and_then].
  rewrite tibble_same_length by (rewrite length_fmap; lia).
  cbn [and_then].
  destruct (summarise_returns bins ys) as (rows & -> & Hkey & Hrow); [lia|].
  exists rows, from, to. split; [done|]. split; [done|]. split; [done|].
  split.
  - intros u [j Hj]%list_elem_of_lookup.
    destruct (Forall2_lookup_l _ _ _ j u Hall Hj)
      as (mid & Hmid & i & lo & hi & Hlo & Hhi & H1 & H2 & ->).
    destruct (Hkey _ (list_elem_of_lookup_2 _ _ _ Hmid)) as (r & k' & Hr & Hx & Hk).
    destruct (breaks_step from to m Hlt i lo hi Hlo Hhi) as (Hi & Hl & Hw).
    exists r, k', i. split; [done|]. split; [done|]. split; [done|].
    rewrite Hk. generalize dependent (width from to (S m)).
    generalize dependent (inject_Z (Z.of_nat i)).
    generalize dependent (inject_Z from). intros. repeat split; lra.
  - intros r (k & [j Hj]%list_elem_of_lookup & Hx & H1 & H2 & H3 & H4)%Hrow.
    split; [done|]. split; [done|]. split; [done|]. split; [|done].
    destruct (Forall2_lookup_r _ _ _ j k Hall Hj)
      as (u & Hu & i & lo & hi & Hlo & Hhi & Hu1 & Hu2 & ->).
    destruct (breaks_step from to m Hlt i lo hi Hlo Hhi) as (Hi & Hl & Hw).
    exists u, (lo + (1 # 2) * (hi - lo)).
    split; [by apply (list_elem_of_lookup_2 _ j)|]. split; [done|].
    apply Qabs_Qle_condition.
    generalize dependent (width from to (S m)). intros. split; lra.
Qed.

Lemma every_observation_has_a_bin_witness :
  exists rows,
    calculate_conditional_quantiles
      (Num <$> [12 # 10; 37 # 10; 3]) (Num <$> [2; 5; 4]) 2 = Returns rows.
Proof.
  destruct (every_observation_has_a_bin [12 # 10; 37 # 10; 3] [2; 5; 4] 2)
    as (rows & _ & _ & Hrows & _).
  - reflexivity.
  - lia.
  - exists (12 # 10), (37 # 10).
    split; [apply elem_of_cons; by left|].
    split; [apply elem_of_cons; right; apply elem_of_cons; by left|].
    reflexivity.
  - by exists rows.
Defined.

(** *** Where the function stops *)

Lemma numbers_constant (c : Q) (x : list dbl) :
  (forall v, v ∈ x -> v = Num c) ->
  numbers x = Some (replicate (length x) c).
Proof.
  induction x as [|a x IH]; intros H; [done|].
  rewrite (H a) by (apply elem_of_cons; by left).
  cbn [numbers length replicate]. rewrite IH; [done|].
  intros v Hv. apply H, elem_of_cons. by right.
Qed.

Lemma min_of_constant (c : Q) (n : nat) : min_of c (replicate n c) = c.
Proof.
  unfold min_of. induction n as [|n IH]; [done|].
  cbn [replicate foldr]. rewrite IH. unfold Intake.pmin.
  by destruct (Qle_bool c c).
Qed.

Lemma max_of_constant (c : Q) (n : nat) : max_of c (replicate n c) = c.
Proof.
  unfold max_of. induction n as [|n IH]; [done|].
  cbn [replicate foldr]. rewrite IH. unfold Intake.pmax.
  by destruct (Qle_bool c c).
Qed.

Lemma Qsort_constant (c : Q) (n : nat) :
  Qsort (replicate n c) = replicate n c.
Proof.
  unfold Qsort. apply DesignMore.sort_by_sorted, Sorted_lookup.
  intros i a b [-> _]%lookup_replicate [-> _]%lookup_replicate.
  apply Qle_bool_iff, Qle_refl.
Qed.

(** X19: [calculate_conditional_quantiles] stops when a value of the
    observations or the predictions is missing, when there is no value at
    all, whenever [n_bins] is 0, and, for at least one bin, when all the
    values are one and the same whole number, as the breaks then
    coincide. *)
Theorem conditional_quantiles_stops (x y : list dbl) (n_bins : nat) :
  ((exists v, v ∈ x ++ y /\ is_na v = true) ->
   calculate_conditional_quantiles x y n_bins =
     Stops "'from' must be a finite number") /\
  (x ++ y = [] ->
   calculate_conditional_quantiles x y n_bins =
     Stops "'from' must be a finite number") /\
  (n_bins = 0%nat ->
   exists c, calculate_conditional_quantiles x y n_bins = Stops c) /\
  (forall z : Z,
     n_bins <> 0%nat -> x ++ y <> [] ->
     (forall v, v ∈ x ++ y -> v = Num (inject_Z z)) ->
     calculate_conditional_quantiles x y n_bins =
       Stops "'breaks' are not unique").
Proof.
  unfold calculate_conditional_quantiles. repeat split.
  - intros (v & [Hv|Hv]%elem_of_app & Hna).
    + by rewrite (numbers_missing x) by by exists v.
    + rewrite (numbers_missing y) by by exists v. by destruct (numbers x).
  - intros [-> ->]%app_eq_nil. done.
  - intros ->. destruct (numbers x) as [xs|]; [|by eexists].
    destruct (numbers y) as [ys|]; [|by eexists].
    destruct (xs ++ ys) as [|v0 v]; [by eexists|]. cbn zeta.
    destruct (Qlt_le_dec _ 2); [by eexists|]. destruct xs; by eexists.
  - intros z Hn Hne Hall.
    rewrite (numbers_constant (inject_Z z) x)
      by (intros v Hv; apply Hall, elem_of_app; by left).
    rewrite (numbers_constant (inject_Z z) y)
      by (intros v Hv; apply Hall, elem_of_app; by right).
    rewrite <- replicate_add.
    assert (length x + length y <> 0)%nat as Hlen.
    { rewrite <- length_app. by destruct (x ++ y). }
    destruct (length x + length y)%nat as [|k]; [done|].
    cbn [replicate]. cbn zeta.
    rewrite min_of_constant, max_of_constant, Qfloor_Z, Qceiling_Z.
    destruct n_bins as [|m]; [done|].
    replace (S m + 1)%nat with (S (S m)) by lia.
    unfold seq_length_out. rewrite Z.eqb_refl.
    unfold cut. rewrite Qsort_constant. cbn [replicate any_duplicated existsb].
    assert (Qeq_bool (inject_Z z) (inject_Z z) = true) as ->
      by (apply Qeq_bool_iff; reflexivity).
    done.
Qed.

Lemma conditional_quantiles_stops_witness :
  calculate_conditional_quantiles [Num 3; Num 3] [Num 3; Num 3] 20 =
    Stops "'breaks' are not unique".
Proof.
  refine (proj2 (proj2 (proj2 (conditional_quantiles_stops
                                 [Num 3; Num 3] [Num 3; Num 3] 20)))
            3%Z _ _ _).
  - lia.
  - done.
  - intros v Hv. cbn in Hv.
    rewrite !elem_of_cons, elem_of_nil in Hv.
    by destruct Hv as [->|[->|[->|[->|[]]]]].
Defined.

End BinningFacts.

(** ** The checks of the exploratory notebook *)

Module EdaFacts.
Import Eda.

Lemma sum_bool_zero (l : list bool) :
  sum_bool l = 0%nat <-> forall b, b ∈ l -> b = false.
Proof.
  unfold sum_bool. induction l as [|a l IH].
  { split; [|done]. intros _ b Hb. by apply elem_of_nil in Hb. }
  cbn [List.filter]. destruct a; cbn [id length].
  - split; [done|]. intros H. by specialize (H true (list_elem_of_here _ _)).
  - rewrite IH. split.
    + intros H b [->|Hb]%elem_of_cons; [done|by apply H].
    + intros H b Hb. apply H, elem_of_cons. by right.
Qed.

Lemma isnull_sum_zero {A : Type} (col : list (option A)) :
  isnull_sum col = 0%nat <-> forall v, v ∈ col -> is_Some v.
Proof.
  unfold isnull_sum. induction col as [|a col IH].
  { split; [|done]. intros _ v Hv. by apply elem_of_nil in Hv. }
  cbn [List.filter]. destruct a as [a|]; cbn [length].
  - rewrite IH. split.
    + intros H v [->|Hv]%elem_of_cons; [by eexists|by apply H].
    + intros H v Hv. apply H, elem_of_cons. by right.
  - split; [done|]. intros H.
    by destruct (H None (list_elem_of_here _ _)).
Qed.

Lemma duplicated_from_none (seen l : list (option string * option Z)) :
  sum_bool (duplicated_from seen l) = 0%nat <->
  NoDup l /\ forall k, k ∈ l -> k ∉ seen.
Proof.
  revert seen. induction l as [|k l IH]; intros seen.
  - split; [|done]. intros _. split; [constructor|].
    by intros k ?%elem_of_nil.
  - cbn [duplicated_from]. unfold sum_bool. cbn [List.filter].
    case_bool_decide as Hk; cbn [id length].
    + split; [done|]. intros [_ H]. exfalso.
      by apply (H k); [apply elem_of_cons; left|].
    + fold (sum_bool (duplicated_from (k :: seen) l)). rewrite IH.
      rewrite list.NoDup_cons. split.
      * intros [Hnd H]. split; [split; [|done]|].
        -- intros Hin. apply (H k Hin), elem_of_cons. by left.
        -- intros k' [->|Hk']%elem_of_cons; [done|].
           intros Hs. apply (H k' Hk'), elem_of_cons. by right.
      * intros [[Hkl Hnd] H]. split; [done|].
        intros k' Hk' [->|Hs]%elem_of_cons; [done|].
        apply (H k'); [apply elem_of_cons; by right|done].
Qed.

(** The rows that fall into one of the groups, counted group by group. *)
Lemma length_by_group {A K : Type} (p : K -> A -> bool) (t : list A)
    (ks : list K) :
  (forall f f' r, p f r = true -> p f' r = true -> f = f') ->
  NoDup ks ->
  length (List.filter (λ r, existsb (λ f, p f r) ks) t) =
  sum_list ((λ f, length (List.filter (p f) t)) <$> ks).
Proof.
  intros Hdisj. induction 1 as [|f ks Hf Hnd IH].
  - cbn. rewrite DiagnosticsFacts.filter_none; [done|]. done.
  - rewrite fmap_cons. cbn [sum_list sum_list_with]. rewrite <- IH.
    clear IH Hnd. unfold id. induction t as [|r t IHt]; [done|].
    cbn [existsb] in IHt |- *. cbn [List.filter].
    destruct (p f r) eqn:Hp; cbn [orb].
    + assert (existsb (λ f0, p f0 r) ks = false) as ->.
      { apply not_true_is_false.
        intros (f' & Hin & Hp')%existsb_exists. apply Hf.
        rewrite (Hdisj f f' r Hp Hp'). by apply list_elem_of_In. }
      cbn [length]. rewrite IHt. lia.
    + destruct (existsb (λ f0, p f0 r) ks); cbn [length]; rewrite IHt; lia.
Qed.

Lemma sum_list_constant (c : nat) (l : list nat) :
  (forall n, n ∈ l -> n = c) -> sum_list l = (c * length l)%nat.
Proof.
  induction l as [|n l IH]; intros H; [cbn; lia|].
  cbn [sum_list sum_list_with length].
  rewrite (H n) by (apply elem_of_cons; by left).
  rewrite IH by (intros k Hk; apply H, elem_of_cons; by right).
  unfold id. lia.
Qed.

Lemma NoDup_fmap_filter {A B : Type} (g : A -> B) (p : A -> bool)
    (l : list A) :
  NoDup (g <$> l) -> NoDup (g <$> List.filter p l).
Proof.
  induction l as [|a l IH]; [done|]. rewrite fmap_cons.
  intros [Ha Hnd]%list.NoDup_cons. cbn [List.filter].
  destruct (p a); [|by apply IH].
  rewrite fmap_cons. apply list.NoDup_cons. split; [|by apply IH].
  intros (b & Hb & [Hin _]%DiagnosticsFacts.elem_of_filter_bool)
    %list_elem_of_fmap.
  apply Ha, list_elem_of_fmap. by exists b.
Qed.

Lemma fmap_Some_omap {A B : Type} (g : A -> option B) (l : list A) :
  (forall a, a ∈ l -> is_Some (g a)) -> g <$> l = Some <$> omap g l.
Proof.
  induction l as [|a l IH]; intros H; [done|].
  destruct (H a) as [b Hb]; [apply elem_of_cons; by left|].
  rewrite fmap_cons.
  change (omap g (a :: l))
    with (match g a with Some y => y :: omap g l | None => omap g l end).
  rewrite Hb, fmap_cons. f_equal.
  apply IH. intros a' Ha'. apply H, elem_of_cons. by right.
Qed.

(** Sixteen dated rows and one without a year: nothing is counted as
    duplicated and the county is counted with 16 years, with 17 rows in
    the table; the panel is complete only if no year is missing. *)
Lemma undated_row_passes_both_checks :
  let t := Examples.one_county_undated_row in
  duplicated_observations t = 0%nat /\
  counties_without_16_years t = 0%nat /\
  isnull_sum (Year <$> t) = 1%nat /\ length t = 17%nat /\
  length (year_count t) = 1%nat.
Proof. repeat split; vm_compute; reflexivity. Qed.

(** X21: when the notebook's checks find no missing county code and no
    missing year, no observation duplicated by FIPS code and year, and no
    county without 16 years of data, the table is a complete panel: it has
    16 rows for each of its counties, and the rows of every county carry
    16 different years. *)
Theorem complete_panel_check (t : list observation) :
  isnull_sum (FIPS <$> t) = 0%nat ->
  isnull_sum (Year <$> t) = 0%nat ->
  duplicated_observations t = 0%nat ->
  counties_without_16_years t = 0%nat ->
  length t = (16 * length (year_count t))%nat /\
  forall r, r ∈ t ->
    exists f ys,
      FIPS r = Some f /\
      Year <$> List.filter (λ r', bool_decide (FIPS r' = Some f)) t =
        Some <$> ys /\
      length ys = 16%nat /\ NoDup ys.
Proof.
  intros Hfips Hyear [Hnd _]%duplicated_from_none Hall.
  rewrite isnull_sum_zero in Hfips. rewrite isnull_sum_zero in Hyear.
  assert (forall r, r ∈ t -> is_Some (FIPS r)) as Hf
    by (intros r Hr; apply Hfips, list_elem_of_fmap; by exists r).
  assert (forall r, r ∈ t -> is_Some (Year r)) as Hy
    by (intros r Hr; apply Hyear, list_elem_of_fmap; by exists r).
  clear Hfips Hyear.
  unfold counties_without_16_years in Hall. rewrite sum_bool_zero in Hall.
  set (ks := Arrange.sort_by String.leb (SpatialGraph.unique (omap FIPS t))).
  assert (forall f, f ∈ ks <-> exists r, r ∈ t /\ FIPS r = Some f) as Hks.
  { intros f. unfold ks.
    rewrite ArrangeFacts.elem_of_sort_by, SpatialGraphFacts.elem_of_unique.
    apply list_elem_of_omap. }
  assert (NoDup ks) as Hksnd.
  { unfold ks. rewrite ArrangeFacts.sort_by_Permutation.
    apply SpatialGraphFacts.NoDup_unique_from. }
  assert (forall f, f ∈ ks -> length (List.filter (counted f) t) = 16%nat)
    as H16.
  { intros f Hin.
    assert (negb (length (List.filter (counted f) t) =? 16)%nat = false)
      as Hb.
    { apply Hall. unfold year_count. fold ks. rewrite <- list_fmap_compose.
      apply list_elem_of_fmap. by exists f. }
    by apply negb_false_iff, Nat.eqb_eq in Hb. }
  assert (forall f r, r ∈ t ->
            counted f r = bool_decide (FIPS r = Some f)) as Hcounted.
  { intros f r Hr. unfold counted. destruct (Hy r Hr) as [y ->].
    apply andb_true_r. }
  assert (forall f, List.filter (counted f) t =
                    List.filter (λ r, bool_decide (FIPS r = Some f)) t)
    as Hfilter.
  { intros f. clear -Hcounted. induction t as [|r t IH]; [done|].
    cbn [List.filter]. rewrite (Hcounted f r) by (apply elem_of_cons; by left).
    rewrite IH; [done|]. intros f' r' Hr'.
    apply Hcounted, elem_of_cons. by right. }
  split.
  - unfold year_count. fold ks. rewrite length_fmap.
    rewrite <- (DiagnosticsFacts.filter_all
                  (λ r, existsb (λ f, counted f r) ks) t) at 1.
    + rewrite (length_by_group counted t ks); [|
        intros f f' r [Hf1%bool_decide_eq_true _]%andb_true_iff
          [Hf2%bool_decide_eq_true _]%andb_true_iff; congruence | done].
      rewrite (sum_list_constant 16); [by rewrite length_fmap|].
      intros n (f & -> & Hin)%list_elem_of_fmap. by apply H16.
    + intros r Hr. destruct (Hf r Hr) as [f Hrf].
      apply existsb_exists. exists f. split.
      * apply list_elem_of_In, Hks. by exists r.
      * rewrite (Hcounted f r Hr). by apply bool_decide_eq_true.
  - intros r Hr. destruct (Hf r Hr) as [f Hrf].
    set (l := List.filter (λ r', bool_decide (FIPS r' = Some f)) t).
    assert (forall r', r' ∈ l -> r' ∈ t /\ FIPS r' = Some f) as Hl.
    { intros r' [Hin Heq%bool_decide_eq_true]
        %DiagnosticsFacts.elem_of_filter_bool. done. }
    exists f, (omap Year l). split; [done|].
    assert (Year <$> l = Some <$> omap Year l) as Heq.
    { apply fmap_Some_omap. intros r' Hr'. apply Hy. by apply Hl. }
    split; [done|]. split.
    + rewrite <- (length_fmap Some), <- Heq, length_fmap.
      unfold l. rewrite <- Hfilter. apply H16, Hks. by exists r.
    + apply (NoDup_fmap_1 Some). rewrite <- Heq.
      apply (NoDup_fmap_1 (λ y, (Some f, y))).
      rewrite <- list_fmap_compose.
      erewrite list_fmap_ext;
        [apply (NoDup_fmap_filter (λ r', (FIPS r', Year r')) _ t Hnd)|].
      intros i r' Hr'%list_elem_of_lookup_2. unfold compose.
      by destruct (Hl r' Hr') as [_ ->].
Qed.

Lemma complete_panel_check_witness :
  length Examples.one_county_16_years =
  (16 * length (year_count Examples.one_county_16_years))%nat.
Proof.
  refine (proj1 (complete_panel_check Examples.one_county_16_years
                   _ _ _ _)); vm_compute; reflexivity.
Defined.

End EdaFacts.
